(** * Aptos aggregator: route finding and quoting engine

    A shallow embedding of the TypeScript core of the aggregator
    (sdk/src/math.ts, sdk/src/router.ts, backend/src/services/poolService.ts,
    backend/src/services/routerService.ts) and the properties of its
    specification, stated over that embedding; followed by the health
    routes of the backend (backend/src/routes/health.ts) and the on-chain
    arithmetic (sources/math.move, sources/utils.move) with further
    properties of the code. *)

From Stdlib Require Import ZArith QArith Qround Qpower Qabs Qreduction.
From Stdlib Require Import List String Ascii Bool Lia Lqa Permutation Sorted.
Import ListNotations.

Local Open Scope Z_scope.

(** ** Outcomes of a call

    A TypeScript call either returns, or throws, or (for Decimal arithmetic)
    leaves the finite values: decimal.js answers a division by zero with an
    infinity or NaN.  The embedding covers the finite Decimal values and
    records the third case as [NonFinite]. *)

Inductive outcome (A : Type) : Type :=
| Ok (a : A)
| Throw (message : string)
| NonFinite.

Arguments Ok {A} a.
Arguments Throw {A} message.
Arguments NonFinite {A}.

Definition bind {A B : Type} (m : outcome A) (k : A -> outcome B) : outcome B :=
  match m with
  | Ok a => k a
  | Throw e => Throw e
  | NonFinite => NonFinite
  end.

Notation "x <- m ;; k" := (bind m (fun x => k))
  (at level 61, m at next level, right associativity).

(** ** JavaScript [Map] with string keys

    A [Map] iterates in insertion order and [set] on a key that is present
    keeps the key's position, so the embedding is an association list without
    duplicate keys. *)

Module JsMap.

Definition t (V : Type) : Type := list (string * V).

Definition empty {V : Type} : t V := [].

Fixpoint get {V : Type} (m : t V) (k : string) : option V :=
    match m with
    | [] => None
    | (k', v) :: m' => if String.eqb k' k then Some v else get m' k
    end.

Definition has {V : Type} (m : t V) (k : string) : bool :=
    match get m k with Some _ => true | None => false end.

Fixpoint set {V : Type} (m : t V) (k : string) (v : V) : t V :=
    match m with
    | [] => [(k, v)]
    | (k', v') :: m' =>
        if String.eqb k' k then (k', v) :: m' else (k', v') :: set m' k v
    end.

Definition values {V : Type} (m : t V) : list V := map snd m.

Definition keys {V : Type} (m : t V) : list string := map fst m.

Definition size {V : Type} (m : t V) : nat := List.length m.

End JsMap.

(** ** JavaScript [Set] of strings and [Array] operations *)

Module JsSet.

Definition t : Type := list string.

Definition has (s : t) (x : string) : bool := existsb (String.eqb x) s.

Definition add (s : t) (x : string) : t := if has s x then s else s ++ [x].

End JsSet.

(** ** JavaScript objects used as dictionaries

    An object written [{}] holds its own properties and inherits the members
    of [Object.prototype].  Reading [o[k]] finds an own property first, an
    inherited member next, and is [undefined] otherwise.  Writing [o[k] = v]
    with a primitive [v] creates or replaces an own property, except under
    the key [__proto__]: that member is an accessor whose setter ignores a
    value that is neither an object nor null, so the object stays as it is.
    The embedding lists the own properties in the order of their creation;
    the order in which JavaScript enumerates them (keys that are array
    indices first) is not used. *)

Module JsObject.

Definition t (V : Type) : Type := JsMap.t V.

Definition empty {V : Type} : t V := JsMap.empty.

(** [Object.getOwnPropertyNames(Object.prototype)] *)
Definition prototypeMembers : list string :=
  [ "constructor"; "__defineGetter__"; "__defineSetter__"; "hasOwnProperty";
    "__lookupGetter__"; "__lookupSetter__"; "isPrototypeOf"; "propertyIsEnumerable";
    "toString"; "valueOf"; "__proto__"; "toLocaleString" ]%string.

Definition inherits (k : string) : bool := existsb (String.eqb k) prototypeMembers.

Inductive property (V : Type) : Type :=
| Own (v : V)
| Inherited (member : string)
| Undefined.

Arguments Own {V} v.
Arguments Inherited {V} member.
Arguments Undefined {V}.

(** [Object.hasOwn(o, k) ? o[k] : undefined] *)
Definition own {V : Type} (o : t V) (k : string) : option V := JsMap.get o k.

(** [o[k]] *)
Definition get {V : Type} (o : t V) (k : string) : property V :=
  match JsMap.get o k with
  | Some v => Own v
  | None => if inherits k then Inherited k else Undefined
  end.

(** [o[k] = v], for a primitive [v] *)
Definition set {V : Type} (o : t V) (k : string) (v : V) : t V :=
  if String.eqb k "__proto__" then o else JsMap.set o k v.

End JsObject.

(** [Array.prototype.sort] with a comparator is stable, and its result is
    fixed by the language whenever the comparator is a consistent ordering of
    the elements (otherwise the order is left to the engine).  The embedding
    is the stable insertion sort, which is that result; an element goes in
    front of the first one it does not compare greater than. *)
Module JsArray.

Fixpoint insert {T : Type} (compareFn : T -> T -> Z) (x : T) (l : list T) : list T :=
    match l with
    | [] => [x]
    | y :: l' =>
        if compareFn x y <=? 0 then x :: y :: l' else y :: insert compareFn x l'
    end.

Fixpoint sort {T : Type} (compareFn : T -> T -> Z) (l : list T) : list T :=
    match l with
    | [] => []
    | x :: l' => insert compareFn x (sort compareFn l')
    end.

  (** [slice(start, end)] for [0 <= start <= end]. *)
Definition slice {T : Type} (start stop : nat) (l : list T) : list T :=
    firstn (stop - start) (skipn start l).

Definition includes (l : list string) (x : string) : bool :=
    existsb (String.eqb x) l.

End JsArray.

(** ** Pool Cache (backend/src/services/poolService.ts) *)

Record CoinInfo : Type := {
  type : string;
  name : string;
  symbol : string;
  decimals : Z;
  logoUrl : option string
}.

(** [reserveA], [reserveB], [tvl] and [volume24h] are decimal strings in the
    source; the embedding keeps the number each string denotes. *)
Record Pool : Type := {
  poolAddress : string;
  coinA : CoinInfo;
  coinB : CoinInfo;
  dexType : string;
  reserveA : Q;
  reserveB : Q;
  feeRate : Z;
  tvl : option Q;
  volume24h : option Q;
  lastUpdated : Z
}.

(** The private fields of [PoolService] that the cache operations use. *)
Record PoolService : Type := {
  pools : JsMap.t Pool;
  poolsByPair : JsMap.t (list Pool);
  lastUpdateTime : Z
}.

Definition newPoolService : PoolService :=
  {| pools := JsMap.empty; poolsByPair := JsMap.empty; lastUpdateTime := 0 |}.

(** [coinA < coinB ? `${coinA}:${coinB}` : `${coinB}:${coinA}`]; JavaScript
    compares strings code unit by code unit, [String.ltb] character by
    character. *)
Definition getPairKey (coinA coinB : string) : string :=
  if String.ltb coinA coinB
  then (coinA ++ ":" ++ coinB)%string
  else (coinB ++ ":" ++ coinA)%string.

(** What the [try] block of a provider's fetcher produces.  The repository
    ships placeholder bodies ([mockPools] for Cetus, the empty list for the
    other two); the embedding takes the three bodies' outcomes as data so that
    the [catch] branch of each fetcher is reachable. *)
Record Providers : Type := {
  cetusBody : outcome (list Pool);
  pancakeBody : outcome (list Pool);
  liquidSwapBody : outcome (list Pool)
}.

Definition mockPools (now : Z) : list Pool :=
  [ {| poolAddress := "0x1::mock::pool_apt_usdc";
       coinA := {| type := "0x1::aptos_coin::AptosCoin";
                   name := "Aptos Coin"; symbol := "APT"; decimals := 8;
                   logoUrl := None |};
       coinB := {| type := "0xf22bede237a07e121b56d91a491eb7bcdfd1f5907926a9e58338f964a01b17fa::asset::USDC";
                   name := "USD Coin"; symbol := "USDC"; decimals := 6;
                   logoUrl := None |};
       dexType := "CETUS";
       reserveA := 1000000000000 # 1;
       reserveB := 100000000000 # 1;
       feeRate := 30;
       tvl := Some (200000000000 # 1);
       volume24h := Some (50000000000 # 1);
       lastUpdated := now |} ].

Definition shippedProviders (now : Z) : Providers :=
  {| cetusBody := Ok (mockPools now);
     pancakeBody := Ok [];
     liquidSwapBody := Ok [] |}.

(** [try { ... return pools } catch (error) { logger.error(...); return [] }] *)
Definition fetchOrEmpty (body : outcome (list Pool)) : list Pool :=
  match body with
  | Ok fetched => fetched
  | Throw _ => []
  | NonFinite => []
  end.

Definition fetchCetusPools (env : Providers) : list Pool :=
  fetchOrEmpty (cetusBody env).

Definition fetchPancakePools (env : Providers) : list Pool :=
  fetchOrEmpty (pancakeBody env).

Definition fetchLiquidSwapPools (env : Providers) : list Pool :=
  fetchOrEmpty (liquidSwapBody env).

(** One turn of the [for (const pool of allPools)] loop of [refreshAllPools]:
    [poolsByPair.get(pairKey)!.push(pool)] extends the array stored under the
    key, which stays where it is in the map. *)
Definition indexPool (acc : JsMap.t Pool * JsMap.t (list Pool)) (pool : Pool)
  : JsMap.t Pool * JsMap.t (list Pool) :=
  let (byAddress, byPair) := acc in
  let byAddress := JsMap.set byAddress (poolAddress pool) pool in
  let pairKey := getPairKey (type (coinA pool)) (type (coinB pool)) in
  let byPair :=
    if negb (JsMap.has byPair pairKey) then JsMap.set byPair pairKey [] else byPair in
  let bucket := match JsMap.get byPair pairKey with Some b => b | None => [] end in
  (byAddress, JsMap.set byPair pairKey (bucket ++ [pool])).

(** The code of [refreshAllPools] after its last [await]: it runs without
    suspension from "Combine all pools" to the end of the function. *)
Definition publish (allPools : list Pool) (now : Z) (s : PoolService) : PoolService :=
  let cleared : JsMap.t Pool * JsMap.t (list Pool) := (JsMap.empty, JsMap.empty) in
  let (byAddress, byPair) := fold_left indexPool allPools cleared in
  {| pools := byAddress; poolsByPair := byPair; lastUpdateTime := now |}.

(** [refreshAllPools] is an [async] function with three [await]s.  Between
    two awaits JavaScript runs the function to the next suspension without
    interleaving any other task, so the function is a sequence of four atomic
    segments; [RefreshPoint] names the suspension it is parked at. *)
Inductive RefreshPoint : Type :=
| AwaitCetus
| AwaitPancake (cetusPools : list Pool)
| AwaitLiquidSwap (cetusPools pancakePools : list Pool)
| Returned.

Definition refreshStep (env : Providers) (now : Z)
  (c : RefreshPoint * PoolService) : RefreshPoint * PoolService :=
  let (pc, s) := c in
  match pc with
  | AwaitCetus => (AwaitPancake (fetchCetusPools env), s)
  | AwaitPancake cetusPools =>
      (AwaitLiquidSwap cetusPools (fetchPancakePools env), s)
  | AwaitLiquidSwap cetusPools pancakePools =>
      let liquidSwapPools := fetchLiquidSwapPools env in
      let allPools := cetusPools ++ pancakePools ++ liquidSwapPools in
      (Returned, publish allPools now s)
  | Returned => (Returned, s)
  end.

Fixpoint refreshRun (n : nat) (env : Providers) (now : Z)
  (c : RefreshPoint * PoolService) : RefreshPoint * PoolService :=
  match n with
  | O => c
  | S n' => refreshRun n' env now (refreshStep env now c)
  end.

(** The state once the promise of [refreshAllPools] has resolved. *)
Definition refreshAllPools (env : Providers) (now : Z) (s : PoolService) : PoolService :=
  snd (refreshRun 3 env now (AwaitCetus, s)).

Definition getAllPools (s : PoolService) : list Pool := JsMap.values (pools s).

Definition getPoolsForPair (s : PoolService) (coinA coinB : string) : list Pool :=
  let pairKey := getPairKey coinA coinB in
  match JsMap.get (poolsByPair s) pairKey with
  | Some found => found
  | None => []
  end.

Definition getPool (s : PoolService) (address : string) : option Pool :=
  JsMap.get (pools s) address.

Record HealthStatus : Type := {
  status : string;
  poolCount : nat;
  lastUpdate : Z;
  timeSinceUpdate : Z
}.

Definition getHealthStatus (now : Z) (s : PoolService) : HealthStatus :=
  let timeSinceUpdate := now - lastUpdateTime s in
  let isHealthy := timeSinceUpdate <? 60000 in
  {| status := if isHealthy then "healthy" else "stale";
     poolCount := JsMap.size (pools s);
     lastUpdate := lastUpdateTime s;
     timeSinceUpdate := timeSinceUpdate |}.

(** ** decimal.js

    The repository uses decimal.js under the library's default configuration
    (it never calls [Decimal.set]): results of [plus], [minus], [times] and
    [div] are rounded to [precision] = 20 significant digits with rounding
    mode ROUND_HALF_UP (to nearest, ties away from zero); the constructor,
    [abs], the comparisons and [toString] are exact.  A finite Decimal is
    embedded as the rational number it denotes.  The exponent limits of the
    library (9e15) are not represented. *)

Module Decimal.

Definition t : Type := Q.

Definition precision : Z := 20.

  (** [ilogZ b n] is the number of base-[b] digits of [n > 0], less one. *)
Fixpoint ilogFuel (fuel : nat) (b n : Z) : Z :=
    match fuel with
    | O => 0
    | S fuel' => if n <? b then 0 else 1 + ilogFuel fuel' b (n / b)
    end.

Definition ilogZ (b n : Z) : Z := ilogFuel (S (Z.to_nat (Z.log2 n))) b n.

  (** [ilogQ b q] is the exponent [e] with [b^e <= q < b^(e+1)], for [q > 0]. *)
Definition ilogQ (b : Z) (q : Q) : Z :=
    let e0 := ilogZ b (Qnum q) - ilogZ b (Zpos (Qden q)) in
    if Qle_bool (inject_Z b ^ e0)%Q q then e0 else e0 - 1.

  (** Rounding of a non-negative rational to an integer: to nearest, ties up
      (which for a magnitude is away from zero), and to nearest, ties to
      even. *)
Definition halfUp (y : Q) : Z := Qfloor (y + (1 # 2))%Q.

Definition halfEven (y : Q) : Z :=
    let f := Qfloor y in
    match (y - inject_Z f ?= 1 # 2)%Q with
    | Lt => f
    | Gt => f + 1
    | Eq => if Z.even f then f else f + 1
    end.

  (** Rounding of [q] to [p] significant base-[b] digits.  The magnitude is
      rounded by [rint] in units of the last kept digit ([ulpOf]); with [emin]
      the exponent of the leading digit is not taken below it (the subnormal
      range of a binary format). *)
Definition exponentOf (b : Z) (emin : option Z) (a : Q) : Z :=
    match emin with
    | None => ilogQ b a
    | Some lowest => Z.max lowest (ilogQ b a)
    end.

Definition ulpOf (b p : Z) (emin : option Z) (a : Q) : Q :=
    (inject_Z b ^ (exponentOf b emin a - p + 1))%Q.

Definition roundMagnitude (b p : Z) (emin : option Z) (rint : Q -> Z) (a : Q) : Q :=
    (inject_Z (rint (a / ulpOf b p emin a)) * ulpOf b p emin a)%Q.

Definition roundSig (b p : Z) (emin : option Z) (rint : Q -> Z) (q : Q) : Q :=
    if Qeq_bool q 0 then 0%Q
    else
      let r := roundMagnitude b p emin rint (Qabs q) in
      Qred (if Qle_bool 0 q then r else (- r)%Q).

  (** [finalise(x, Ctor.precision, Ctor.rounding)] *)
Definition round (q : Q) : t := roundSig 10 precision None halfUp q.

Definition add (x y : t) : t := round (x + y)%Q.
Definition sub (x y : t) : t := round (x - y)%Q.
Definition mul (x y : t) : t := round (x * y)%Q.

Definition div (x y : t) : outcome t :=
    if Qeq_bool y 0 then NonFinite else Ok (round (x / y)%Q).

Definition abs (x : t) : t := Qabs x.

Definition lte (x y : t) : bool := Qle_bool x y.
Definition gte (x y : t) : bool := Qle_bool y x.
Definition gt (x y : t) : bool := negb (Qle_bool x y).
Definition eq (x y : t) : bool := Qeq_bool x y.

  (** [toNumber]: the nearest IEEE 754 binary64 value (ties to even), as
      JavaScript's conversion of the Decimal's digits gives it; a magnitude
      that rounds to 2^1024 or more is an infinity. *)
Definition toNumber (x : t) : outcome Q :=
    let r := roundSig 2 53 (Some (-1022)) halfEven x in
    if Qle_bool (2 ^ 1024)%Q (Qabs r) then NonFinite else Ok r.

Definition lt (x y : t) : bool := negb (Qle_bool y x).

  (** [Decimal.max(x, y)] and [Decimal.min(x, y)] on finite values: the
      library starts from the first argument and replaces it when it is
      strictly below (above) the next one. *)
Definition max (x y : t) : t := if lt x y then y else x.
Definition min (x y : t) : t := if gt x y then y else x.

  (** [x.floor()]: the value rounded to a whole number towards minus
      infinity, whatever its number of digits. *)
Definition floor (x : t) : Z := Qfloor x.

  (** [new Decimal(10).pow(decimals)] for a whole number [decimals]: a power
      of ten has a single significant digit, which the rounding of [pow]
      keeps. *)
Definition pow10 (decimals : Z) : t := (10 ^ decimals)%Q.

End Decimal.

(** [Math.floor] on a finite number. *)
Definition Math_floor (x : Q) : Z := Qfloor x.

(** ** AMM Math (sdk/src/math.ts)

    Amounts and reserves are [string | number] arguments handed to
    [new Decimal]; the embedding takes the finite Decimal they denote.  Fee
    rates and slippage tolerances are whole numbers of basis points, on which
    the Number arithmetic of the source ([BASIS_POINTS - feeRateBp]) is
    exact. *)

Definition BASIS_POINTS : Z := 10000.

(** A regular expression of JavaScript without groups, look-around or
    back-references, anchored at both ends ([/^...$/]).  [test] on such an
    expression decides membership of the whole string in its language; the
    embedding decides it with derivatives.  Strings are sequences of bytes
    here; a character outside ASCII is in none of the classes used below,
    in either reading. *)
Module JsRegExp.

Inductive t : Type :=
| Never
| Empty
| Class (accepts : ascii -> bool)
| Seq (r1 r2 : t)
| Alt (r1 r2 : t)
| Star (r : t).

Fixpoint nullable (r : t) : bool :=
    match r with
    | Never => false
    | Empty => true
    | Class _ => false
    | Seq r1 r2 => nullable r1 && nullable r2
    | Alt r1 r2 => nullable r1 || nullable r2
    | Star _ => true
    end.

Fixpoint derive (c : ascii) (r : t) : t :=
    match r with
    | Never => Never
    | Empty => Never
    | Class accepts => if accepts c then Empty else Never
    | Seq r1 r2 =>
        if nullable r1
        then Alt (Seq (derive c r1) r2) (derive c r2)
        else Seq (derive c r1) r2
    | Alt r1 r2 => Alt (derive c r1) (derive c r2)
    | Star r' => Seq (derive c r') (Star r')
    end.

Fixpoint test (r : t) (s : string) : bool :=
    match s with
    | EmptyString => nullable r
    | String c s' => test (derive c r) s'
    end.

  (** [r+] *)
Definition plus (r : t) : t := Seq r (Star r).

  (** A sequence of literal characters. *)
Fixpoint literal (s : string) : t :=
    match s with
    | EmptyString => Empty
    | String c s' => Seq (Class (Ascii.eqb c)) (literal s')
    end.

  (** A range [lo-hi] of a character class. *)
Definition range (lo hi : ascii) (c : ascii) : bool :=
    (N_of_ascii lo <=? N_of_ascii c)%N && (N_of_ascii c <=? N_of_ascii hi)%N.

End JsRegExp.

Module MathUtils.

Definition calculateFee (amount : Q) (feeRateBp : Z) : outcome Decimal.t :=
    let amountDecimal := amount in
    feeRate <- Decimal.div (inject_Z feeRateBp) (inject_Z BASIS_POINTS) ;;
    Ok (Decimal.mul amountDecimal feeRate).

Definition amountAfterFee (amount : Q) (feeRateBp : Z) : outcome Decimal.t :=
    let amountDecimal := amount in
    fee <- calculateFee amount feeRateBp ;;
    Ok (Decimal.sub amountDecimal fee).

Definition calculateMinOutput (amount : Q) (slippageToleranceBp : Z)
    : outcome Decimal.t :=
    let amountDecimal := amount in
    slippageRate <- Decimal.div (inject_Z slippageToleranceBp) (inject_Z BASIS_POINTS) ;;
    let slippageAmount := Decimal.mul amountDecimal slippageRate in
    Ok (Decimal.sub amountDecimal slippageAmount).

Definition calculateMaxInput (amount : Q) (slippageToleranceBp : Z)
    : outcome Decimal.t :=
    let amountDecimal := amount in
    slippageRate <- Decimal.div (inject_Z slippageToleranceBp) (inject_Z BASIS_POINTS) ;;
    let slippageAmount := Decimal.mul amountDecimal slippageRate in
    Ok (Decimal.add amountDecimal slippageAmount).

Definition getAmountOut (amountIn reserveIn reserveOut : Q) (feeRateBp : Z)
    : outcome Decimal.t :=
    let amountInDecimal := amountIn in
    let reserveInDecimal := reserveIn in
    let reserveOutDecimal := reserveOut in
    if Decimal.lte amountInDecimal 0%Q || Decimal.lte reserveInDecimal 0%Q
       || Decimal.lte reserveOutDecimal 0%Q
    then Throw "Invalid amounts or reserves"
    else
      amountInWithFee <- amountAfterFee amountInDecimal feeRateBp ;;
      let numerator := Decimal.mul amountInWithFee reserveOutDecimal in
      let denominator := Decimal.add reserveInDecimal amountInWithFee in
      Decimal.div numerator denominator.

Definition getAmountIn (amountOut reserveIn reserveOut : Q) (feeRateBp : Z)
    : outcome Decimal.t :=
    let amountOutDecimal := amountOut in
    let reserveInDecimal := reserveIn in
    let reserveOutDecimal := reserveOut in
    if Decimal.lte amountOutDecimal 0%Q || Decimal.lte reserveInDecimal 0%Q
       || Decimal.lte reserveOutDecimal 0%Q
    then Throw "Invalid amounts or reserves"
    else if Decimal.gte amountOutDecimal reserveOutDecimal
    then Throw "Amount out exceeds reserve"
    else
      let numerator := Decimal.mul reserveInDecimal amountOutDecimal in
      let denominator := Decimal.sub reserveOutDecimal amountOutDecimal in
      quotient <- Decimal.div numerator denominator ;;
      let amountIn := Decimal.add quotient 1%Q in
      let feeMultiplier := inject_Z BASIS_POINTS in
      let feeDivisor := inject_Z (BASIS_POINTS - feeRateBp) in
      Decimal.div (Decimal.mul amountIn feeMultiplier) feeDivisor.

Definition calculatePriceImpact (amountIn amountOut reserveIn reserveOut : Q)
    : outcome Z :=
    let amountInDecimal := amountIn in
    let amountOutDecimal := amountOut in
    let reserveInDecimal := reserveIn in
    let reserveOutDecimal := reserveOut in
    if Decimal.lte reserveInDecimal 0%Q || Decimal.lte reserveOutDecimal 0%Q
    then Ok BASIS_POINTS
    else
      spotPrice <- Decimal.div reserveOutDecimal reserveInDecimal ;;
      executionPrice <- Decimal.div amountOutDecimal amountInDecimal ;;
      if Decimal.gte executionPrice spotPrice
      then Ok 0
      else
        let priceDiff := Decimal.sub spotPrice executionPrice in
        ratio <- Decimal.div priceDiff spotPrice ;;
        let priceImpact := Decimal.mul ratio (inject_Z BASIS_POINTS) in
        asNumber <- Decimal.toNumber priceImpact ;;
        Ok (Math_floor asNumber).

  (** The comparator of the two route sorts: a positive result puts [b]
      first.  [priceImpact] is a whole number of basis points. *)
Definition compareRoutes {T : Type} (amountOut : T -> Q) (priceImpact : T -> Z)
    (prioritizeAmount : bool) (a b : T) : Z :=
    let amountDiff := Decimal.sub (amountOut b) (amountOut a) in
    if prioritizeAmount && Decimal.gt (Decimal.abs amountDiff) (1 # 1000)
    then (if Decimal.gt amountDiff 0%Q then 1 else -1)
    else priceImpact a - priceImpact b.

  (** [findBestRoute] sorts the array it is given in place; the second
      component is the content of the caller's [routes] array when the call
      returns. *)
Definition findBestRoute {T : Type} (amountOut : T -> Q) (priceImpact : T -> Z)
    (routes : list T) (prioritizeAmount : bool) : option T * list T :=
    match routes with
    | [] => (None, routes)
    | [only] => (Some only, routes)
    | _ =>
        let sorted := JsArray.sort (compareRoutes amountOut priceImpact prioritizeAmount) routes in
        (hd_error sorted, sorted)
    end.

  (** [toleranceBp] is a whole number of basis points. *)
Definition isWithinTolerance (amount1 amount2 : Q) (toleranceBp : Z) : outcome bool :=
    let amount1Decimal := amount1 in
    let amount2Decimal := amount2 in
    if Decimal.eq amount1Decimal amount2Decimal then Ok true
    else
      let larger := Decimal.max amount1Decimal amount2Decimal in
      let smaller := Decimal.min amount1Decimal amount2Decimal in
      let diff := Decimal.sub larger smaller in
      ratio <- Decimal.div diff larger ;;
      let diffPercentage := Decimal.mul ratio (inject_Z BASIS_POINTS) in
      Ok (Decimal.lte diffPercentage (inject_Z toleranceBp)).

  (** [formatAmount] returns [toFixed()] of the quotient, its exact value in
      plain notation, and [parseAmount] returns [toString()] of a whole
      number; the embedding keeps the numbers these strings denote.
      [decimals] is a whole number. *)
Definition formatAmount (amount : Q) (decimals : Z) : outcome Decimal.t :=
    let amountDecimal := amount in
    Decimal.div amountDecimal (Decimal.pow10 decimals).

Definition parseAmount (amount : Q) (decimals : Z) : Z :=
    let amountDecimal := amount in
    Decimal.floor (Decimal.mul amountDecimal (Decimal.pow10 decimals)).

  (** [/^0x[a-fA-F0-9]+::[a-zA-Z_][a-zA-Z0-9_]*::[a-zA-Z_][a-zA-Z0-9_]*$/] *)
Definition hexDigit (c : ascii) : bool :=
    JsRegExp.range "a" "f" c || JsRegExp.range "A" "F" c || JsRegExp.range "0" "9" c.

Definition identifierStart (c : ascii) : bool :=
    JsRegExp.range "a" "z" c || JsRegExp.range "A" "Z" c || Ascii.eqb "_" c.

Definition identifierPart (c : ascii) : bool :=
    JsRegExp.range "a" "z" c || JsRegExp.range "A" "Z" c || JsRegExp.range "0" "9" c
    || Ascii.eqb "_" c.

Definition identifier : JsRegExp.t :=
    JsRegExp.Seq (JsRegExp.Class identifierStart) (JsRegExp.Star (JsRegExp.Class identifierPart)).

Definition aptosAddressRegex : JsRegExp.t :=
    JsRegExp.Seq (JsRegExp.literal "0x")
      (JsRegExp.Seq (JsRegExp.plus (JsRegExp.Class hexDigit))
         (JsRegExp.Seq (JsRegExp.literal "::")
            (JsRegExp.Seq identifier
               (JsRegExp.Seq (JsRegExp.literal "::") identifier)))).

Definition isValidCoinType (coinType : string) : bool :=
    JsRegExp.test aptosAddressRegex coinType.

End MathUtils.

(** ** Pool Cache: pricing helpers (backend/src/services/poolService.ts) *)

Definition calculateOutput (pool : Pool) (coinIn : string) (amountIn : Q)
  : outcome Decimal.t :=
  let amountInDecimal := amountIn in
  let isA2B := String.eqb (type (coinA pool)) coinIn in
  let reserveIn := if isA2B then reserveA pool else reserveB pool in
  let reserveOut := if isA2B then reserveB pool else reserveA pool in
  if Decimal.lte amountInDecimal 0%Q || Decimal.lte reserveIn 0%Q
     || Decimal.lte reserveOut 0%Q
  then Throw "Invalid amounts or reserves"
  else
    feeRate <- Decimal.div (inject_Z (feeRate pool)) 10000%Q ;;
    let amountInWithFee := Decimal.mul amountInDecimal (Decimal.sub 1%Q feeRate) in
    let numerator := Decimal.mul amountInWithFee reserveOut in
    let denominator := Decimal.add reserveIn amountInWithFee in
    Decimal.div numerator denominator.

Definition calculatePriceImpact (pool : Pool) (coinIn : string) (amountIn : Q)
  : outcome Z :=
  let amountInDecimal := amountIn in
  let isA2B := String.eqb (type (coinA pool)) coinIn in
  let reserveIn := if isA2B then reserveA pool else reserveB pool in
  let reserveOut := if isA2B then reserveB pool else reserveA pool in
  if Decimal.lte reserveIn 0%Q || Decimal.lte reserveOut 0%Q
  then Ok 10000
  else
    spotPrice <- Decimal.div reserveOut reserveIn ;;
    amountOut <- calculateOutput pool coinIn amountIn ;;
    executionPrice <- Decimal.div amountOut amountInDecimal ;;
    if Decimal.gte executionPrice spotPrice
    then Ok 0
    else
      let priceDiff := Decimal.sub spotPrice executionPrice in
      ratio <- Decimal.div priceDiff spotPrice ;;
      let priceImpact := Decimal.mul ratio 10000%Q in
      asNumber <- Decimal.toNumber priceImpact ;;
      Ok (Math_floor asNumber).

(** The loop of [getBestPoolForPair]; a pool whose pricing throws is
    skipped. *)
Definition considerPool (coinA : string) (amountIn : Q)
  (acc : outcome (option Pool * Decimal.t)) (pool : Pool)
  : outcome (option Pool * Decimal.t) :=
  best <- acc ;;
  match calculateOutput pool coinA amountIn with
  | Ok output =>
      if Decimal.gt output (snd best) then Ok (Some pool, output) else Ok best
  | Throw _ => Ok best
  | NonFinite => NonFinite
  end.

Definition getBestPoolForPair (s : PoolService) (coinA coinB : string) (amountIn : Q)
  : outcome (option Pool) :=
  let candidates := getPoolsForPair s coinA coinB in
  if (List.length candidates =? 0)%nat then Ok None
  else
    best <- fold_left (considerPool coinA amountIn) candidates (Ok (None, 0%Q)) ;;
    Ok (fst best).

(** ** Path Finder and Route Selector (backend/src/services/routerService.ts) *)

Module RouteStep.
Record t : Type := {
    dexType : string;
    coinIn : string;
    coinOut : string;
    poolAddress : string;
    amountIn : Q;
    amountOut : Q;
    feeRate : Z;
    priceImpact : Z
  }.
End RouteStep.

Module Route.
Record t : Type := {
    steps : list RouteStep.t;
    amountIn : Q;
    amountOut : Q;
    priceImpact : Z;
    fee : Q;
    estimatedGas : Z
  }.
End Route.

(** Optional fields of the request are [None] when absent. *)
Module QuoteRequest.
Record t : Type := {
    coinIn : string;
    coinOut : string;
    amountIn : Q;
    slippageTolerance : option Z;
    excludeDexes : option (list string);
    maxHops : option Z
  }.
End QuoteRequest.

Record QuoteResponse : Type := {
  route : Route.t;
  routes : list Route.t
}.

Module RouterService.

Definition maxHops : Z := 3.

Definition calculateFee (amount : Q) (feeRateBp : Z) : outcome Decimal.t :=
    let amountDecimal := amount in
    feeRate <- Decimal.div (inject_Z feeRateBp) 10000%Q ;;
    Ok (Decimal.mul amountDecimal feeRate).

  (** The body of [buildSingleHopRoute] inside its [try]. *)
Definition singleHopBody (pool : Pool) (coinIn coinOut : string) (amountIn : Q)
    : outcome Route.t :=
    amountOut <- calculateOutput pool coinIn amountIn ;;
    priceImpact <- calculatePriceImpact pool coinIn amountIn ;;
    fee <- calculateFee amountIn (feeRate pool) ;;
    let step :=
      {| RouteStep.dexType := dexType pool;
         RouteStep.coinIn := coinIn;
         RouteStep.coinOut := coinOut;
         RouteStep.poolAddress := poolAddress pool;
         RouteStep.amountIn := amountIn;
         RouteStep.amountOut := amountOut;
         RouteStep.feeRate := feeRate pool;
         RouteStep.priceImpact := priceImpact |} in
    Ok {| Route.steps := [step];
          Route.amountIn := amountIn;
          Route.amountOut := amountOut;
          Route.priceImpact := priceImpact;
          Route.fee := fee;
          Route.estimatedGas := 5000 |}.

  (** [try { ... } catch (error) { return null }] *)
Definition orNull {A : Type} (body : outcome A) : outcome (option A) :=
    match body with
    | Ok a => Ok (Some a)
    | Throw _ => Ok None
    | NonFinite => NonFinite
    end.

Definition buildSingleHopRoute (pool : Pool) (coinIn coinOut : string) (amountIn : Q)
    : outcome (option Route.t) :=
    orNull (singleHopBody pool coinIn coinOut amountIn).

Definition notExcluded (excludeDexes : list string) (pool : Pool) : bool :=
    negb (JsArray.includes excludeDexes (dexType pool)).

Definition build2HopRoute (s : PoolService) (coinIn intermediate coinOut : string)
    (amountIn : Q) (excludeDexes : list string) : outcome (option Route.t) :=
    let firstHopPools :=
      filter (notExcluded excludeDexes) (getPoolsForPair s coinIn intermediate) in
    if (List.length firstHopPools =? 0)%nat then Ok None
    else
      bestFirst <- getBestPoolForPair s coinIn intermediate amountIn ;;
      match bestFirst with
      | None => Ok None
      | Some bestFirstPool =>
          firstOutput <- calculateOutput bestFirstPool coinIn amountIn ;;
          let secondHopPools :=
            filter (notExcluded excludeDexes) (getPoolsForPair s intermediate coinOut) in
          if (List.length secondHopPools =? 0)%nat then Ok None
          else
            bestSecond <- getBestPoolForPair s intermediate coinOut firstOutput ;;
            match bestSecond with
            | None => Ok None
            | Some bestSecondPool =>
                finalOutput <- calculateOutput bestSecondPool intermediate firstOutput ;;
                firstPriceImpact <- calculatePriceImpact bestFirstPool coinIn amountIn ;;
                secondPriceImpact <-
                  calculatePriceImpact bestSecondPool intermediate firstOutput ;;
                let steps :=
                  [ {| RouteStep.dexType := dexType bestFirstPool;
                       RouteStep.coinIn := coinIn;
                       RouteStep.coinOut := intermediate;
                       RouteStep.poolAddress := poolAddress bestFirstPool;
                       RouteStep.amountIn := amountIn;
                       RouteStep.amountOut := firstOutput;
                       RouteStep.feeRate := feeRate bestFirstPool;
                       RouteStep.priceImpact := firstPriceImpact |};
                    {| RouteStep.dexType := dexType bestSecondPool;
                       RouteStep.coinIn := intermediate;
                       RouteStep.coinOut := coinOut;
                       RouteStep.poolAddress := poolAddress bestSecondPool;
                       RouteStep.amountIn := firstOutput;
                       RouteStep.amountOut := finalOutput;
                       RouteStep.feeRate := feeRate bestSecondPool;
                       RouteStep.priceImpact := secondPriceImpact |} ] in
                let totalPriceImpact := firstPriceImpact + secondPriceImpact in
                firstFee <- calculateFee amountIn (feeRate bestFirstPool) ;;
                secondFee <- calculateFee firstOutput (feeRate bestSecondPool) ;;
                let totalFee := Decimal.add firstFee secondFee in
                Ok (Some {| Route.steps := steps;
                            Route.amountIn := amountIn;
                            Route.amountOut := finalOutput;
                            Route.priceImpact := totalPriceImpact;
                            Route.fee := totalFee;
                            Route.estimatedGas := 8000 |})
            end
      end.

  (** The first loop of [findMultiHopRoutes]. *)
Definition collectIntermediate (coinIn coinOut : string) (excludeDexes : list string)
    (intermediateTokens : JsSet.t) (pool : Pool) : JsSet.t :=
    if JsArray.includes excludeDexes (dexType pool) then intermediateTokens
    else if String.eqb (type (coinA pool)) coinIn || String.eqb (type (coinB pool)) coinIn
    then
      let otherCoin :=
        if String.eqb (type (coinA pool)) coinIn
        then type (coinB pool) else type (coinA pool) in
      if negb (String.eqb otherCoin coinOut)
      then JsSet.add intermediateTokens otherCoin
      else intermediateTokens
    else intermediateTokens.

  (** A loop turn of the form
      [try { const route = build(...); if (route) routes.push(route) } catch { continue }]. *)
Definition pushRoute (acc : outcome (list Route.t)) (built : outcome (option Route.t))
    : outcome (list Route.t) :=
    routes <- acc ;;
    match built with
    | Ok (Some route) => Ok (routes ++ [route])
    | Ok None => Ok routes
    | Throw _ => Ok routes
    | NonFinite => NonFinite
    end.

Definition findMultiHopRoutes (s : PoolService) (coinIn coinOut : string)
    (amountIn : Q) (maxHops : Z) (excludeDexes : list string)
    : outcome (list Route.t) :=
    let allPools := getAllPools s in
    let intermediateTokens :=
      fold_left (collectIntermediate coinIn coinOut excludeDexes) allPools [] in
    fold_left
      (fun acc intermediateCoin =>
         pushRoute acc (build2HopRoute s coinIn intermediateCoin coinOut amountIn excludeDexes))
      intermediateTokens (Ok []).

Definition findAllRoutes (s : PoolService) (coinIn coinOut : string)
    (amountIn : Q) (maxHops : Z) (excludeDexes : list string)
    : outcome (list Route.t) :=
    let directPools := getPoolsForPair s coinIn coinOut in
    routes <- fold_left
      (fun acc pool =>
         if JsArray.includes excludeDexes (dexType pool) then acc
         else pushRoute acc (buildSingleHopRoute pool coinIn coinOut amountIn))
      directPools (Ok []) ;;
    if 1 <? maxHops
    then
      multiHopRoutes <- findMultiHopRoutes s coinIn coinOut amountIn maxHops excludeDexes ;;
      Ok (routes ++ multiHopRoutes)
    else Ok routes.

Definition compareFn (a b : Route.t) : Z :=
    MathUtils.compareRoutes Route.amountOut Route.priceImpact true a b.

  (** The Route Selector: the body of [findBestRoute] from the emptiness test
      on; [None] is the [null] of the source. *)
Definition selectRoutes (allRoutes : list Route.t) : option QuoteResponse :=
    if (List.length allRoutes =? 0)%nat then None
    else
      let sortedRoutes := JsArray.sort compareFn allRoutes in
      match sortedRoutes with
      | bestRoute :: _ =>
          let alternativeRoutes := JsArray.slice 1 5 sortedRoutes in
          Some {| route := bestRoute; routes := alternativeRoutes |}
      | [] => None
      end.

Definition findBestRoute (s : PoolService) (request : QuoteRequest.t)
    : outcome (option QuoteResponse) :=
    let coinIn := QuoteRequest.coinIn request in
    let coinOut := QuoteRequest.coinOut request in
    let amountIn := QuoteRequest.amountIn request in
    let excludeDexes :=
      match QuoteRequest.excludeDexes request with Some e => e | None => [] end in
    let maxHops :=
      match QuoteRequest.maxHops request with Some h => h | None => maxHops end in
    match findAllRoutes s coinIn coinOut amountIn maxHops excludeDexes with
    | Ok allRoutes => Ok (selectRoutes allRoutes)
    | Throw _ => Ok None
    | NonFinite => NonFinite
    end.

  (** [poolsByDex] is an object written [{}], typed [Record<string, number>].
      Under a key that names no member of [Object.prototype] it holds a
      count: [(poolsByDex[k] || 0) + 1] starts from 0 when the key is absent
      (or holds 0).  Under a key that names a member, [poolsByDex[k]] first
      reads that member (a function; for [__proto__] the prototype object),
      which [+ 1] turns into a string: the text of the member followed by
      the character 1 (in Node.js, for [toString],
      'function toString() { [native code] }1'); every further pool of that
      key appends one more 1 to the stored string.  [MemberText member ones]
      stands for the text of [member] followed by [ones] characters 1. *)
Inductive DexEntry : Type :=
| Count (n : Z)
| MemberText (member : string) (ones : nat).

Record PoolsInfo : Type := {
    totalPools : nat;
    poolsByDex : JsObject.t DexEntry;
    lastUpdate : Z
  }.

Definition countDex (poolsByDex : JsObject.t DexEntry) (pool : Pool)
    : JsObject.t DexEntry :=
    let updated :=
      match JsObject.get poolsByDex (dexType pool) with
      | JsObject.Own (Count n) => Count ((if n =? 0 then 0 else n) + 1)
      | JsObject.Own (MemberText member ones) => MemberText member (S ones)
      | JsObject.Inherited member => MemberText member 1
      | JsObject.Undefined => Count (0 + 1)
      end in
    JsObject.set poolsByDex (dexType pool) updated.

Definition getPoolsInfo (s : PoolService) : PoolsInfo :=
    let allPools := getAllPools s in
    let poolsByDex := fold_left countDex allPools JsObject.empty in
    {| totalPools := List.length allPools;
       poolsByDex := poolsByDex;
       lastUpdate := lastUpdateTime s |}.

Module Token.
Record t : Type := {
    type : string;
    name : string;
    symbol : string;
    decimals : Z
  }.
End Token.

Definition tokenOf (coin : CoinInfo) : Token.t :=
    {| Token.type := type coin;
       Token.name := name coin;
       Token.symbol := symbol coin;
       Token.decimals := decimals coin |}.

Definition addTokens (tokenMap : JsMap.t Token.t) (pool : Pool) : JsMap.t Token.t :=
    let tokenMap := JsMap.set tokenMap (type (coinA pool)) (tokenOf (coinA pool)) in
    JsMap.set tokenMap (type (coinB pool)) (tokenOf (coinB pool)).

Definition getSupportedTokens (s : PoolService) : list Token.t :=
    let allPools := getAllPools s in
    let tokenMap := fold_left addTokens allPools JsMap.empty in
    JsMap.values tokenMap.

End RouterService.

(** ** SDK route search (sdk/src/router.ts) *)

Module AptosRouter.

Record ApiCoin : Type := { type : string }.

Record ApiPool : Type := {
    pool_address : string;
    coin_a : ApiCoin;
    coin_b : ApiCoin;
    dex_type : string;
    reserve_a : Q;
    reserve_b : Q;
    fee_rate : Z
  }.

Module Neighbor.
Record t : Type := { coinOut : string; pool : ApiPool }.
End Neighbor.

Definition Graph : Type := JsMap.t (list Neighbor.t).

Definition neighborsOf (graph : Graph) (coin : string) : list Neighbor.t :=
    match JsMap.get graph coin with Some ns => ns | None => [] end.

Definition ensureKey (graph : Graph) (coin : string) : Graph :=
    if negb (JsMap.has graph coin) then JsMap.set graph coin [] else graph.

Definition pushNeighbor (graph : Graph) (coin : string) (n : Neighbor.t) : Graph :=
    JsMap.set graph coin (neighborsOf graph coin ++ [n]).

Definition buildPoolGraph (pools : list ApiPool) : Graph :=
    fold_left
      (fun graph pool =>
         let coinA := type (coin_a pool) in
         let coinB := type (coin_b pool) in
         let graph := ensureKey graph coinA in
         let graph := ensureKey graph coinB in
         let graph :=
           pushNeighbor graph coinA {| Neighbor.coinOut := coinB; Neighbor.pool := pool |} in
         pushNeighbor graph coinB {| Neighbor.coinOut := coinA; Neighbor.pool := pool |})
      pools JsMap.empty.

  (** [findAllRoutes] recurses on a path that grows by one step per call, up
      to [maxHops]; [fuel] bounds the depth of the recursion and [None] is
      the answer of a run that exhausts it.  Each recursive call receives
      [new Set(visited)], a copy: the callee's additions do not reach the
      caller's set. *)
Fixpoint findAllRoutesFuel (fuel : nat) (coinIn coinOut : string) (graph : Graph)
    (maxHops : Z) (currentPath : list Neighbor.t) (visited : JsSet.t)
    : option (list (list Neighbor.t)) :=
    match fuel with
    | O => None
    | S fuel' =>
        if Z.of_nat (List.length currentPath) >=? maxHops then Some []
        else if String.eqb coinIn coinOut && (0 <? List.length currentPath)%nat
        then Some [currentPath]
        else if JsSet.has visited coinIn then Some []
        else
          let visited := JsSet.add visited coinIn in
          let neighbors := neighborsOf graph coinIn in
          fold_left
            (fun acc neighbor =>
               match acc with
               | None => None
               | Some routes =>
                   if negb (JsSet.has visited (Neighbor.coinOut neighbor))
                   then
                     let newPath := currentPath ++ [neighbor] in
                     match findAllRoutesFuel fuel' (Neighbor.coinOut neighbor) coinOut
                             graph maxHops newPath visited with
                     | None => None
                     | Some subRoutes => Some (routes ++ subRoutes)
                     end
                   else Some routes
               end)
            neighbors (Some [])
    end.

  (** The call [this.findAllRoutes(coinIn, coinOut, graph, maxHops)] with the
      default [currentPath = []] and [visited = new Set()]. *)
Definition findAllRoutes (coinIn coinOut : string) (graph : Graph) (maxHops : Z)
    : option (list (list Neighbor.t)) :=
    findAllRoutesFuel (S (Z.to_nat maxHops)) coinIn coinOut graph maxHops [] [].

  (** One turn of the loop of [calculateRouteOutput]; the state is
      [currentAmount] and [totalPriceImpact].  [isA2B] compares the pool's
      first coin with itself, as the source does. *)
Definition routeOutputStep (acc : outcome (Q * Z)) (step : Neighbor.t) : outcome (Q * Z) :=
    state <- acc ;;
    let currentAmount := fst state in
    let totalPriceImpact := snd state in
    let pool := Neighbor.pool step in
    let isA2B := String.eqb (type (coin_a pool)) (type (coin_a (Neighbor.pool step))) in
    let reserveIn := if isA2B then reserve_a pool else reserve_b pool in
    let reserveOut := if isA2B then reserve_b pool else reserve_a pool in
    amountOut <- MathUtils.getAmountOut currentAmount reserveIn reserveOut (fee_rate pool) ;;
    priceImpact <- MathUtils.calculatePriceImpact currentAmount amountOut reserveIn reserveOut ;;
    Ok (amountOut, totalPriceImpact + priceImpact).

  (** The result is the pair of [amountOut] and [priceImpact]. *)
Definition calculateRouteOutput (route : list Neighbor.t) (amountIn : Q) : outcome (Q * Z) :=
    fold_left routeOutputStep route (Ok (amountIn, 0)).

Module SwapStep.
Record t : Type := {
    dexId : Z;
    dexType : string;
    coinIn : string;
    coinOut : string;
    poolAddress : string;
    amountIn : Q;
    amountOut : Q;
    feeRate : Z;
    priceImpact : Z
  }.
End SwapStep.

Module SwapRoute.
Record t : Type := {
    steps : list SwapStep.t;
    amountIn : Q;
    amountOut : Q;
    priceImpact : Z;
    fee : Q;
    estimatedGas : Z
  }.
End SwapRoute.

  (** [DEX_IDS[dexType] ?? 0] on the six identifiers of [DexType]. *)
Definition DEX_IDS : JsMap.t Z :=
    [ ("CETUS"%string, 1); ("PANCAKE"%string, 2); ("LIQUIDSWAP"%string, 3);
      ("THALA"%string, 4); ("AUXEXCHANGE"%string, 5); ("HIPPO"%string, 6) ].

Definition dexIdOf (dexType : string) : Z :=
    match JsMap.get DEX_IDS dexType with Some id => id | None => 0 end.

  (** One turn of the loop of [transformToSwapRoute]; the state is
      [currentAmount] and [steps]. *)
Definition swapRouteStep (acc : outcome (Q * list SwapStep.t)) (step : Neighbor.t)
    : outcome (Q * list SwapStep.t) :=
    state <- acc ;;
    let currentAmount := fst state in
    let steps := snd state in
    let pool := Neighbor.pool step in
    let isA2B := String.eqb (type (coin_a pool)) (type (coin_a (Neighbor.pool step))) in
    let reserveIn := if isA2B then reserve_a pool else reserve_b pool in
    let reserveOut := if isA2B then reserve_b pool else reserve_a pool in
    amountOut <- MathUtils.getAmountOut currentAmount reserveIn reserveOut (fee_rate pool) ;;
    priceImpact <- MathUtils.calculatePriceImpact currentAmount amountOut reserveIn reserveOut ;;
    let pushed :=
      {| SwapStep.dexId := dexIdOf (dex_type pool);
         SwapStep.dexType := dex_type pool;
         SwapStep.coinIn := if isA2B then type (coin_a pool) else type (coin_b pool);
         SwapStep.coinOut := if isA2B then type (coin_b pool) else type (coin_a pool);
         SwapStep.poolAddress := pool_address pool;
         SwapStep.amountIn := currentAmount;
         SwapStep.amountOut := amountOut;
         SwapStep.feeRate := fee_rate pool;
         SwapStep.priceImpact := priceImpact |} in
    Ok (amountOut, steps ++ [pushed]).

Definition transformToSwapRoute (route : list Neighbor.t) (amountIn finalAmountOut : Q)
    : outcome SwapRoute.t :=
    state <- fold_left swapRouteStep route (Ok (amountIn, [])) ;;
    let steps := snd state in
    fee <- MathUtils.calculateFee amountIn 30 ;;
    Ok {| SwapRoute.steps := steps;
          SwapRoute.amountIn := amountIn;
          SwapRoute.amountOut := finalAmountOut;
          SwapRoute.priceImpact :=
            fold_left (fun sum step => sum + SwapStep.priceImpact step) steps 0;
          SwapRoute.fee := fee;
          SwapRoute.estimatedGas := 5000 * Z.of_nat (List.length steps) |}.

  (** The registry of DEX configurations: [dexInfos] and its accessors.  A
      [Partial<DexInfo>] lists the fields it carries. *)
Module DexInfo.
Record t : Type := {
    type : string;
    name : string;
    enabled : bool;
    feeRate : Z;
    routerAddress : string
  }.
End DexInfo.

Module PartialDexInfo.
Record t : Type := {
    type : option string;
    name : option string;
    enabled : option bool;
    feeRate : option Z;
    routerAddress : option string
  }.
End PartialDexInfo.

Definition orElse {A : Type} (given : option A) (existing : A) : A :=
    match given with Some a => a | None => existing end.

  (** [{ ...existing, ...info }] *)
Definition spread (existing : DexInfo.t) (info : PartialDexInfo.t) : DexInfo.t :=
    {| DexInfo.type := orElse (PartialDexInfo.type info) (DexInfo.type existing);
       DexInfo.name := orElse (PartialDexInfo.name info) (DexInfo.name existing);
       DexInfo.enabled := orElse (PartialDexInfo.enabled info) (DexInfo.enabled existing);
       DexInfo.feeRate := orElse (PartialDexInfo.feeRate info) (DexInfo.feeRate existing);
       DexInfo.routerAddress :=
         orElse (PartialDexInfo.routerAddress info) (DexInfo.routerAddress existing) |}.

Definition initializeDexInfos : JsMap.t DexInfo.t :=
    let dexInfos := JsMap.empty in
    let dexInfos :=
      JsMap.set dexInfos "CETUS"
        {| DexInfo.type := "CETUS"; DexInfo.name := "Cetus"; DexInfo.enabled := true;
           DexInfo.feeRate := 30; DexInfo.routerAddress := "" |} in
    let dexInfos :=
      JsMap.set dexInfos "PANCAKE"
        {| DexInfo.type := "PANCAKE"; DexInfo.name := "PancakeSwap";
           DexInfo.enabled := true; DexInfo.feeRate := 25; DexInfo.routerAddress := "" |} in
    JsMap.set dexInfos "LIQUIDSWAP"
      {| DexInfo.type := "LIQUIDSWAP"; DexInfo.name := "LiquidSwap";
         DexInfo.enabled := true; DexInfo.feeRate := 30; DexInfo.routerAddress := "" |}.

Definition updateDexInfo (dexInfos : JsMap.t DexInfo.t) (dexType : string)
    (info : PartialDexInfo.t) : JsMap.t DexInfo.t :=
    match JsMap.get dexInfos dexType with
    | Some existing => JsMap.set dexInfos dexType (spread existing info)
    | None => dexInfos
    end.

Definition getDexInfo (dexInfos : JsMap.t DexInfo.t) (dexType : string) : option DexInfo.t :=
    JsMap.get dexInfos dexType.

Definition getEnabledDexes (dexInfos : JsMap.t DexInfo.t) : list DexInfo.t :=
    filter DexInfo.enabled (JsMap.values dexInfos).

End AptosRouter.

(** ** Pool Cache: further accessors (backend/src/services/poolService.ts) *)

Definition getPoolsByDex (s : PoolService) (wanted : string) : list Pool :=
  filter (fun pool => String.eqb (dexType pool) wanted) (JsMap.values (pools s)).

Definition getLastUpdateTime (s : PoolService) : Z := lastUpdateTime s.

Definition getPoolCount (s : PoolService) : nat := JsMap.size (pools s).

(** ** Health endpoints (backend/src/routes/health.ts)

    The handlers read the clock and the Pool Cache; the embedding keeps the
    HTTP status they answer with and the fields of the body that come from
    the cache. *)

Module HealthRoutes.

  (** [GET /]: [res.status(isHealthy ? 200 : 503)]. *)
Definition health (now : Z) (s : PoolService) : Z :=
  let poolHealth := getHealthStatus now s in
  let isHealthy := String.eqb (status poolHealth) "healthy" in
  if isHealthy then 200 else 503.

Inductive ReadyBody : Type :=
| Ready (pool_count : nat) (last_update : Z)
| NotReady (reason : string) (pool_count : nat) (time_since_update : Z).

  (** [GET /ready] *)
Definition ready (now : Z) (s : PoolService) : Z * ReadyBody :=
  let poolCount := getPoolCount s in
  let lastUpdate := getLastUpdateTime s in
  let timeSinceUpdate := now - lastUpdate in
  let isReady := (0 <? poolCount)%nat && (timeSinceUpdate <? 300000) in
  if isReady
  then (200, Ready poolCount lastUpdate)
  else (503,
        NotReady (if (poolCount =? 0)%nat then "No pools loaded" else "Pool data is stale")
          poolCount timeSinceUpdate).

End HealthRoutes.

(** ** Move math module (sources/math.move)

    Values of type [u64] are integers of [0 .. MAX_U64].  The Move VM aborts
    an addition or multiplication that overflows, a subtraction that
    underflows and a division by zero ([ArithmeticError]); [assert!] aborts
    with the code it is given. *)

Module MoveMath.

Inductive result (A : Type) : Type :=
| Return (a : A)
| Abort (code : Z)
| ArithmeticError.

Arguments Return {A} a.
Arguments Abort {A} code.
Arguments ArithmeticError {A}.

Definition andThen {A B : Type} (m : result A) (k : A -> result B) : result B :=
  match m with
  | Return a => k a
  | Abort code => Abort code
  | ArithmeticError => ArithmeticError
  end.

Notation "'let*' x ':=' m 'in' k" := (andThen m (fun x => k))
  (at level 10, x name, m at level 100, k at level 200).

Definition MAX_U64 : Z := 18446744073709551615.

Definition u64 (x : Z) : Prop := 0 <= x <= MAX_U64.

Definition u64_add (a b : Z) : result Z :=
  if a + b <=? MAX_U64 then Return (a + b) else ArithmeticError.

Definition u64_sub (a b : Z) : result Z :=
  if b <=? a then Return (a - b) else ArithmeticError.

Definition u64_mul (a b : Z) : result Z :=
  if a * b <=? MAX_U64 then Return (a * b) else ArithmeticError.

Definition u64_div (a b : Z) : result Z :=
  if b =? 0 then ArithmeticError else Return (a / b).

Definition assert (condition : bool) (code : Z) : result unit :=
  if condition then Return tt else Abort code.

  (** [std::error]: the category in the third byte, the reason below it. *)
Definition invalid_argument (reason : Z) : Z := 1 * 65536 + reason.
Definition out_of_range (reason : Z) : Z := 2 * 65536 + reason.

Definition EINVALID_AMOUNT : Z := 2001.
Definition EDIVISION_BY_ZERO : Z := 2002.
Definition EOVERFLOW : Z := 2003.

Definition BASIS_POINTS : Z := 10000.

Definition calculate_fee (amount fee_rate_bp : Z) : result Z :=
  let* _ := assert (fee_rate_bp <=? BASIS_POINTS) (invalid_argument EINVALID_AMOUNT) in
  let* product := u64_mul amount fee_rate_bp in
  u64_div product BASIS_POINTS.

Definition amount_after_fee (amount fee_rate_bp : Z) : result Z :=
  let* fee := calculate_fee amount fee_rate_bp in
  u64_sub amount fee.

Definition calculate_min_output (amount slippage_tolerance_bp : Z) : result Z :=
  let* _ := assert (slippage_tolerance_bp <=? BASIS_POINTS)
              (invalid_argument EINVALID_AMOUNT) in
  let* product := u64_mul amount slippage_tolerance_bp in
  let* slippage_amount := u64_div product BASIS_POINTS in
  let* _ := assert (amount >=? slippage_amount) (invalid_argument EINVALID_AMOUNT) in
  u64_sub amount slippage_amount.

Definition safe_mul (a b : Z) : result Z :=
  if (a =? 0) || (b =? 0) then Return 0
  else
    let* quotient := u64_div MAX_U64 b in
    let* _ := assert (a <=? quotient) (out_of_range EOVERFLOW) in
    u64_mul a b.

Definition safe_div (a b : Z) : result Z :=
  let* _ := assert (negb (b =? 0)) (invalid_argument EDIVISION_BY_ZERO) in
  u64_div a b.

Definition get_amount_out (amount_in reserve_in reserve_out fee_rate_bp : Z) : result Z :=
  let* _ := assert (0 <? amount_in) (invalid_argument EINVALID_AMOUNT) in
  let* _ := assert ((0 <? reserve_in) && (0 <? reserve_out))
              (invalid_argument EINVALID_AMOUNT) in
  let* amount_in_with_fee := amount_after_fee amount_in fee_rate_bp in
  let* numerator := safe_mul amount_in_with_fee reserve_out in
  let* denominator := u64_add reserve_in amount_in_with_fee in
  safe_div numerator denominator.

Definition get_amount_in (amount_out reserve_in reserve_out fee_rate_bp : Z) : result Z :=
  let* _ := assert (0 <? amount_out) (invalid_argument EINVALID_AMOUNT) in
  let* _ := assert ((0 <? reserve_in) && (0 <? reserve_out))
              (invalid_argument EINVALID_AMOUNT) in
  let* _ := assert (amount_out <? reserve_out) (invalid_argument EINVALID_AMOUNT) in
  let* numerator := safe_mul reserve_in amount_out in
  let* denominator := u64_sub reserve_out amount_out in
  let* quotient := safe_div numerator denominator in
  let* amount_in := u64_add quotient 1 in
  let fee_multiplier := BASIS_POINTS in
  let* fee_divisor := u64_sub BASIS_POINTS fee_rate_bp in
  let* grossed := safe_mul amount_in fee_multiplier in
  safe_div grossed fee_divisor.

Definition calculate_price_impact (amount_in amount_out reserve_in reserve_out : Z)
  : result Z :=
  if (reserve_in =? 0) || (reserve_out =? 0) then Return BASIS_POINTS
  else
    let* scaled_reserve := safe_mul reserve_out BASIS_POINTS in
    let* spot_price := safe_div scaled_reserve reserve_in in
    let* scaled_out := safe_mul amount_out BASIS_POINTS in
    let* execution_price := safe_div scaled_out amount_in in
    if execution_price >=? spot_price then Return 0
    else
      let* price_diff := u64_sub spot_price execution_price in
      let* scaled_diff := safe_mul price_diff BASIS_POINTS in
      safe_div scaled_diff spot_price.

End MoveMath.

(** ** Move utilities: the ordering of coin names (sources/utils.move)

    [compare_vectors] walks the two byte vectors by index; [compare_from] is
    its [while] loop entered at index [i] with [fuel] turns left before
    [i = min_len]. *)

Module MoveUtils.



End MoveUtils.

(** ** [refreshAllPools], statement by statement

    ECMAScript runs a job to completion: once an [async] function is
    resumed, it runs until its next [await] or its return before any other
    job runs.  [RefreshTask] follows the body of [refreshAllPools]
    (backend/src/services/poolService.ts, lines 64-100) one statement at a
    time and marks the statements that end at an [await]; the event loop
    below resumes the function for one such run at a time and lets a reader
    of the cache run in between.  The statements of the [try] block do not
    throw on values of these types (the fetchers catch their own failures),
    and the logging and the duration do not touch the cache. *)

Module RefreshTask.

(** The statement that [refreshAllPools] executes next, with the local
    variables that are live there. *)
Inductive Point : Type :=
| FetchCetus
| FetchPancake (cetusPools : list Pool)
| FetchLiquidSwap (cetusPools pancakePools : list Pool)
| Combine (cetusPools pancakePools liquidSwapPools : list Pool)
| ClearPools (allPools : list Pool)
| ClearPoolsByPair (allPools : list Pool)
| NextPool (rest : list Pool)
| SetPool (pool : Pool) (rest : list Pool)
| EnsureBucket (pool : Pool) (rest : list Pool)
| PushPool (pool : Pool) (rest : list Pool)
| SetLastUpdateTime
| Returned.

(** How a statement ends: the function goes on to its next statement, it is
    suspended at an [await], or it has returned. *)
Inductive Control : Type := Next | Await | Done.

Definition step (env : Providers) (now : Z) (c : Point * PoolService)
  : Control * (Point * PoolService) :=
  let (point, s) := c in
  match point with
  | FetchCetus =>
      (* const cetusPools = await this.fetchCetusPools() *)
      (Await, (FetchPancake (fetchCetusPools env), s))
  | FetchPancake cetusPools =>
      (* const pancakePools = await this.fetchPancakePools() *)
      (Await, (FetchLiquidSwap cetusPools (fetchPancakePools env), s))
  | FetchLiquidSwap cetusPools pancakePools =>
      (* const liquidSwapPools = await this.fetchLiquidSwapPools() *)
      (Await, (Combine cetusPools pancakePools (fetchLiquidSwapPools env), s))
  | Combine cetusPools pancakePools liquidSwapPools =>
      (* const allPools = [...cetusPools, ...pancakePools, ...liquidSwapPools] *)
      (Next, (ClearPools (cetusPools ++ pancakePools ++ liquidSwapPools), s))
  | ClearPools allPools =>
      (* this.pools.clear() *)
      (Next, (ClearPoolsByPair allPools,
              {| pools := JsMap.empty;
                 poolsByPair := poolsByPair s;
                 lastUpdateTime := lastUpdateTime s |}))
  | ClearPoolsByPair allPools =>
      (* this.poolsByPair.clear() *)
      (Next, (NextPool allPools,
              {| pools := pools s;
                 poolsByPair := JsMap.empty;
                 lastUpdateTime := lastUpdateTime s |}))
  | NextPool [] =>
      (* the loop is over *)
      (Next, (SetLastUpdateTime, s))
  | NextPool (pool :: rest) =>
      (* for (const pool of allPools) *)
      (Next, (SetPool pool rest, s))
  | SetPool pool rest =>
      (* this.pools.set(pool.poolAddress, pool) *)
      (Next, (EnsureBucket pool rest,
              {| pools := JsMap.set (pools s) (poolAddress pool) pool;
                 poolsByPair := poolsByPair s;
                 lastUpdateTime := lastUpdateTime s |}))
  | EnsureBucket pool rest =>
      (* if (!this.poolsByPair.has(pairKey)) this.poolsByPair.set(pairKey, []) *)
      let pairKey := getPairKey (type (coinA pool)) (type (coinB pool)) in
      (Next, (PushPool pool rest,
              {| pools := pools s;
                 poolsByPair :=
                   if negb (JsMap.has (poolsByPair s) pairKey)
                   then JsMap.set (poolsByPair s) pairKey []
                   else poolsByPair s;
                 lastUpdateTime := lastUpdateTime s |}))
  | PushPool pool rest =>
      (* this.poolsByPair.get(pairKey)!.push(pool): the key is present, the
         statement before has seen to it *)
      let pairKey := getPairKey (type (coinA pool)) (type (coinB pool)) in
      let bucket :=
        match JsMap.get (poolsByPair s) pairKey with Some b => b | None => [] end in
      (Next, (NextPool rest,
              {| pools := pools s;
                 poolsByPair := JsMap.set (poolsByPair s) pairKey (bucket ++ [pool]);
                 lastUpdateTime := lastUpdateTime s |}))
  | SetLastUpdateTime =>
      (* this.lastUpdateTime = Date.now() *)
      (Next, (Returned,
              {| pools := pools s;
                 poolsByPair := poolsByPair s;
                 lastUpdateTime := now |}))
  | Returned => (Done, (Returned, s))
  end.

(** The number of statements that run to their end before the function is
    next suspended or has returned. *)
Definition statementsAhead (point : Point) : nat :=
  match point with
  | FetchCetus | FetchPancake _ | FetchLiquidSwap _ _ | Returned => 0
  | Combine cetusPools pancakePools liquidSwapPools =>
      4 * List.length (cetusPools ++ pancakePools ++ liquidSwapPools) + 5
  | ClearPools allPools => 4 * List.length allPools + 4
  | ClearPoolsByPair allPools => 4 * List.length allPools + 3
  | NextPool rest => 4 * List.length rest + 2
  | SetPool _ rest => 4 * List.length rest + 5
  | EnsureBucket _ rest => 4 * List.length rest + 4
  | PushPool _ rest => 4 * List.length rest + 3
  | SetLastUpdateTime => 1
  end.

Fixpoint run (fuel : nat) (env : Providers) (now : Z) (c : Point * PoolService)
  : Point * PoolService :=
  match fuel with
  | O => c
  | S fuel' =>
      match step env now c with
      | (Next, c') => run fuel' env now c'
      | (Await, c') => c'
      | (Done, c') => c'
      end
  end.

(** One job of the event loop: the function runs from where it stands to
    its next [await] or to its return. *)
Definition resume (env : Providers) (now : Z) (c : Point * PoolService)
  : Point * PoolService :=
  run (S (statementsAhead (fst c))) env now c.

(** The first [n] statements from a point on, whatever their [Control]:
    the states that the cache passes through. *)
Fixpoint advance (n : nat) (env : Providers) (now : Z) (c : Point * PoolService)
  : Point * PoolService :=
  match n with
  | O => c
  | S n' => advance n' env now (snd (step env now c))
  end.



End RefreshTask.

(** ** Auxiliary definitions of the statements *)

(** The three providers of [refreshAllPools], in the order it queries them. *)
Inductive Provider : Type := Cetus | Pancake | LiquidSwap.

Definition bodyOf (env : Providers) (p : Provider) : outcome (list Pool) :=
  match p with
  | Cetus => cetusBody env
  | Pancake => pancakeBody env
  | LiquidSwap => liquidSwapBody env
  end.

Definition sameProvider (p q : Provider) : bool :=
  match p, q with
  | Cetus, Cetus | Pancake, Pancake | LiquidSwap, LiquidSwap => true
  | _, _ => false
  end.

(** The pools delivered by the providers other than [failed]. *)
Definition survivors (env : Providers) (failed : Provider) : list Pool :=
  flat_map
    (fun p => if sameProvider p failed then []
              else match bodyOf env p with Ok fetched => fetched | _ => [] end)
    [Cetus; Pancake; LiquidSwap].

Definition examplePool (address : string) : Pool :=
  {| poolAddress := address;
     coinA := {| type := "0x1::a::A"; name := "A"; symbol := "A"; decimals := 8;
                 logoUrl := None |};
     coinB := {| type := "0x1::b::B"; name := "B"; symbol := "B"; decimals := 6;
                 logoUrl := None |};
     dexType := "PANCAKE";
     reserveA := 1000 # 1; reserveB := 2000 # 1; feeRate := 30;
     tvl := None; volume24h := None; lastUpdated := 0 |}.

Definition oneFailing : Providers :=
  {| cetusBody := Throw "fetch failed";
     pancakeBody := Ok [examplePool "0xa"; examplePool "0xb"];
     liquidSwapBody := Ok [examplePool "0xc"] |}.


Definition directPool : AptosRouter.ApiPool :=
  {| AptosRouter.pool_address := "0xp";
     AptosRouter.coin_a := {| AptosRouter.type := "0x1::a::A" |};
     AptosRouter.coin_b := {| AptosRouter.type := "0x1::b::B" |};
     AptosRouter.dex_type := "CETUS";
     AptosRouter.reserve_a := 1000 # 1;
     AptosRouter.reserve_b := 2000 # 1;
     AptosRouter.fee_rate := 30 |}.

(** A single-hop candidate with the given output and price impact. *)
Definition sampleRoute (amountOut : Q) (priceImpact : Z) : Route.t :=
  {| Route.steps :=
       [ {| RouteStep.dexType := "CETUS";
            RouteStep.coinIn := "0x1::a::A";
            RouteStep.coinOut := "0x1::b::B";
            RouteStep.poolAddress := "0xp";
            RouteStep.amountIn := 1000 # 1;
            RouteStep.amountOut := amountOut;
            RouteStep.feeRate := 30;
            RouteStep.priceImpact := priceImpact |} ];
     Route.amountIn := 1000 # 1;
     Route.amountOut := amountOut;
     Route.priceImpact := priceImpact;
     Route.fee := 3 # 1;
     Route.estimatedGas := 5000 |}.

Definition sevenCandidates : list Route.t :=
  [ sampleRoute (3 # 1) 10; sampleRoute (7 # 1) 10; sampleRoute (1 # 1) 10;
    sampleRoute (5 # 1) 10; sampleRoute (2 # 1) 10; sampleRoute (6 # 1) 10;
    sampleRoute (4 # 1) 10 ].

(** The amount after fee and the output of the constant-product formula in
    exact arithmetic. *)
Definition exactAfterFee (amountIn : Q) (feeRateBp : Z) : Q :=
  (amountIn - amountIn * (inject_Z feeRateBp / inject_Z BASIS_POINTS))%Q.

Definition exactAmountOut (amountIn reserveIn reserveOut : Q) (feeRateBp : Z) : Q :=
  (exactAfterFee amountIn feeRateBp * reserveOut
   / (reserveIn + exactAfterFee amountIn feeRateBp))%Q.

(** Half a unit in the 20th significant digit, relative to the value:
    5 * 10^-20. *)
Definition unitRoundoff : Q := 1 # 20000000000000000000.

(** A value that [Decimal.round] leaves as it is: it has at most 20
    significant digits. *)
Definition representable (q : Q) : Prop := (Decimal.round q == q)%Q.

(** The fee, the amount after fee, the numerator and the denominator of
    [getAmountOut] all have at most 20 significant digits, so that only the
    final division rounds. *)
Definition exactIntermediates (amountIn reserveIn reserveOut : Q) (feeRateBp : Z) : Prop :=
  representable (amountIn * (inject_Z feeRateBp / inject_Z BASIS_POINTS))%Q
  /\ representable (exactAfterFee amountIn feeRateBp)
  /\ representable (exactAfterFee amountIn feeRateBp * reserveOut)%Q
  /\ representable (reserveIn + exactAfterFee amountIn feeRateBp)%Q.

(** No step of the composition of [getAmountOut] and [getAmountIn] loses a
    digit of the amount it inverts: the input, the intermediate results and
    the result of [getAmountOut], and the numerator and the denominator of
    [getAmountIn] have at most 20 significant digits. *)
Definition exactRoundTrip (amountIn reserveIn reserveOut : Q) (feeRateBp : Z) : Prop :=
  representable amountIn
  /\ exactIntermediates amountIn reserveIn reserveOut feeRateBp
  /\ representable (exactAmountOut amountIn reserveIn reserveOut feeRateBp)
  /\ representable (reserveIn * exactAmountOut amountIn reserveIn reserveOut feeRateBp)%Q
  /\ representable (reserveOut - exactAmountOut amountIn reserveIn reserveOut feeRateBp)%Q.

(** The order the Route Selector sorts by: [a] ranks before [b] when its
    output exceeds that of [b] by more than 0.001, or when the two outputs
    differ by at most 0.001 and its price impact is not the larger one.  The
    difference of the outputs is the Decimal [sub] of the source. *)
Definition amountGap (a b : Route.t) : Q :=
  Decimal.sub (Route.amountOut b) (Route.amountOut a).

Definition ranksBefore (a b : Route.t) : Prop :=
  (amountGap a b < - (1 # 1000))%Q
  \/ ((Qabs (amountGap a b) <= 1 # 1000)%Q /\ Route.priceImpact a <= Route.priceImpact b).

(** The candidates can be ranked: on them [ranksBefore] is transitive. *)
Definition rankable (allRoutes : list Route.t) : Prop :=
  forall a b c, In a allRoutes -> In b allRoutes -> In c allRoutes ->
                ranksBefore a b -> ranksBefore b c -> ranksBefore a c.

(** A decision procedure for [rankable]. *)
Definition rankableb (allRoutes : list Route.t) : bool :=
  forallb (fun a =>
    forallb (fun b =>
      forallb (fun c =>
        implb ((RouterService.compareFn a b <=? 0) && (RouterService.compareFn b c <=? 0))
              (RouterService.compareFn a c <=? 0))
        allRoutes) allRoutes) allRoutes.

(** The amount after fee and the quotient as [getAmountOut] computes them,
    each operation rounded. *)
Definition afterFee (amountIn : Q) (feeRateBp : Z) : Q :=
  Decimal.sub amountIn
    (Decimal.mul amountIn (Decimal.round (inject_Z feeRateBp / inject_Z BASIS_POINTS))).

Definition quoted (amountIn reserveIn reserveOut : Q) (feeRateBp : Z) : Q :=
  Decimal.round
    (Decimal.mul (afterFee amountIn feeRateBp) reserveOut
     / Decimal.add reserveIn (afterFee amountIn feeRateBp)).

(** The required input as [getAmountIn] computes it, each operation
    rounded: the inverted quotient, then the unit added, then the fee
    grossed up. *)
Definition inverted (amountOut reserveIn reserveOut : Q) : Q :=
  Decimal.round (Decimal.mul reserveIn amountOut / Decimal.sub reserveOut amountOut).

Definition required (amountOut reserveIn reserveOut : Q) (feeRateBp : Z) : Q :=
  Decimal.round
    (Decimal.mul (Decimal.add (inverted amountOut reserveIn reserveOut) 1%Q)
       (inject_Z BASIS_POINTS)
     / inject_Z (BASIS_POINTS - feeRateBp)).

(** A pool of the given DEX between two coins, and a cache with two pools
    for the pair A-M (one per DEX) and one pool for the pair M-B. *)
Definition poolBetween (address dex first second : string) (reserveFirst reserveSecond : Q)
  : Pool :=
  {| poolAddress := address;
     coinA := {| type := first; name := first; symbol := first; decimals := 8;
                 logoUrl := None |};
     coinB := {| type := second; name := second; symbol := second; decimals := 8;
                 logoUrl := None |};
     dexType := dex;
     reserveA := reserveFirst; reserveB := reserveSecond; feeRate := 30;
     tvl := None; volume24h := None; lastUpdated := 0 |}.

Definition triangle : PoolService :=
  publish
    [ poolBetween "0xam1" "CETUS" "0x1::a::A" "0x1::m::M" (1000 # 1) (3000 # 1);
      poolBetween "0xam2" "PANCAKE" "0x1::a::A" "0x1::m::M" (1000 # 1) (2000 # 1);
      poolBetween "0xmb" "PANCAKE" "0x1::m::M" "0x1::b::B" (1000 # 1) (1000 # 1) ]
    0 newPoolService.

(** The same pool entered from its first coin and from its second coin. *)
Definition enteredFromA : AptosRouter.Neighbor.t :=
  {| AptosRouter.Neighbor.coinOut := "0x1::b::B"; AptosRouter.Neighbor.pool := directPool |}.

Definition enteredFromB : AptosRouter.Neighbor.t :=
  {| AptosRouter.Neighbor.coinOut := "0x1::a::A"; AptosRouter.Neighbor.pool := directPool |}.

(** Strings all of whose characters are in a class, and names of the form
    [[a-zA-Z_][a-zA-Z0-9_]*]. *)
Fixpoint allOf (accepts : ascii -> bool) (s : string) : bool :=
  match s with
  | EmptyString => true
  | String c rest => accepts c && allOf accepts rest
  end.

Definition identifierName (s : string) : bool :=
  match s with
  | EmptyString => false
  | String c rest => MathUtils.identifierStart c && allOf MathUtils.identifierPart rest
  end.

(** The number that an entry of [poolsByDex] contributes to a sum of the
    counts: a string is no count. *)
Definition counted (entry : RouterService.DexEntry) : Z :=
  match entry with
  | RouterService.Count n => n
  | RouterService.MemberText _ _ => 0
  end.

(** The pools of a DEX among [seen], and the entry that [poolsByDex] holds
    for the DEX once the pools [seen] are counted. *)
Definition poolsOf (dex : string) (seen : list Pool) : list Pool :=
  filter (fun pool => String.eqb (dexType pool) dex) seen.

Definition entryFor (dex : string) (seen : list Pool) : option RouterService.DexEntry :=
  match List.length (poolsOf dex seen) with
  | O => None
  | S n =>
      if JsObject.inherits dex
      then if String.eqb dex "__proto__" then None
           else Some (RouterService.MemberText dex (S n))
      else Some (RouterService.Count (Z.of_nat (S n)))
  end.

(** The sum of the counts that [poolsByDex] holds under its own keys. *)
Definition sumOfCounts (poolsByDex : JsObject.t RouterService.DexEntry) : Z :=
  fold_right Z.add 0 (map (fun entry => counted (snd entry)) poolsByDex).

(** A pool whose DEX name is no member of [Object.prototype]. *)
Definition ordinaryDex (pool : Pool) : bool := negb (JsObject.inherits (dexType pool)).

(** * Properties *)

(** ** Pool Cache *)

Lemma getPairKey_sym (coinA coinB : string) :
  getPairKey coinA coinB = getPairKey coinB coinA.
Proof.
  unfold getPairKey, String.ltb.
  rewrite (String.compare_antisym coinA coinB).
  destruct (String.compare coinB coinA) eqn:Hcmp; simpl; try reflexivity.
  apply String.compare_eq_iff in Hcmp. now subst.
Qed.

(** C8: the lookup of the pools of a pair does not depend on the order in
    which the two coins are given, in any state of the cache. *)
Theorem getPoolsForPair_symmetric (s : PoolService) (coinA coinB : string) :
  getPoolsForPair s coinA coinB = getPoolsForPair s coinB coinA.
Proof.
  unfold getPoolsForPair. now rewrite getPairKey_sym.
Qed.

Module JsMapFacts.

Lemma get_None_notin {V : Type} (m : JsMap.t V) (k : string) :
    JsMap.get m k = None <-> ~ In k (JsMap.keys m).
Proof.
    induction m as [|[k' v] m IH]; simpl.
    - tauto.
    - destruct (String.eqb_spec k' k) as [->|Hne].
      + split; [discriminate | intros H; exfalso; apply H; now left].
      + rewrite IH. split; intros H; [intros [H'|H']; [congruence | tauto] | tauto].
Qed.

Lemma set_fresh {V : Type} (m : JsMap.t V) (k : string) (v : V) :
    ~ In k (JsMap.keys m) -> JsMap.set m k v = m ++ [(k, v)].
Proof.
    induction m as [|[k' v'] m IH]; simpl; intros Hnotin.
    - reflexivity.
    - destruct (String.eqb_spec k' k) as [->|Hne].
      + exfalso. apply Hnotin. now left.
      + rewrite IH; [reflexivity | tauto].
Qed.

Lemma keys_set {V : Type} (m : JsMap.t V) (k : string) (v : V) :
    In k (JsMap.keys m) -> JsMap.keys (JsMap.set m k v) = JsMap.keys m.
Proof.
    induction m as [|[k' v'] m IH]; simpl; intros Hin.
    - contradiction.
    - destruct (String.eqb_spec k' k) as [->|Hne]; simpl.
      + reflexivity.
      + rewrite IH; [reflexivity | destruct Hin; congruence].
Qed.

End JsMapFacts.

(** Indexing pools with fresh, pairwise distinct addresses appends them to
    the address map in order. *)
Lemma fold_indexPool_fresh (l : list Pool) :
  forall (byAddress : JsMap.t Pool) (byPair : JsMap.t (list Pool)),
    NoDup (JsMap.keys byAddress ++ map poolAddress l) ->
    fst (fold_left indexPool l (byAddress, byPair))
    = byAddress ++ map (fun p => (poolAddress p, p)) l.
Proof.
  induction l as [|p l IH]; simpl; intros byAddress byPair Hnodup.
  - now rewrite app_nil_r.
  - assert (Hfresh : ~ In (poolAddress p) (JsMap.keys byAddress)).
    { intros Hin. apply NoDup_remove_2 in Hnodup. apply Hnodup.
      apply in_or_app. now left. }
    rewrite IH.
    + rewrite (JsMapFacts.set_fresh _ _ _ Hfresh), <- app_assoc. reflexivity.
    + rewrite (JsMapFacts.set_fresh _ _ _ Hfresh).
      unfold JsMap.keys in *. rewrite map_app, <- app_assoc. simpl.
      exact Hnodup.
Qed.

Lemma getAllPools_publish (allPools : list Pool) (now : Z) (s : PoolService) :
  NoDup (map poolAddress allPools) ->
  getAllPools (publish allPools now s) = allPools.
Proof.
  intros Hnodup. unfold publish, getAllPools.
  pose proof (fold_indexPool_fresh allPools JsMap.empty JsMap.empty Hnodup) as Hfold.
  destruct (fold_left indexPool allPools (JsMap.empty, JsMap.empty)) as [byAddress byPair].
  simpl in *. subst byAddress. unfold JsMap.values.
  rewrite map_map. simpl. apply map_id.
Qed.

Lemma refreshAllPools_publish (env : Providers) (now : Z) (s : PoolService) :
  refreshAllPools env now s
  = publish (fetchCetusPools env ++ fetchPancakePools env ++ fetchLiquidSwapPools env) now s.
Proof. reflexivity. Qed.

(** C6: when the fetch of one provider fails and the other two succeed, the
    refresh still publishes the pools of the two that succeeded (pool
    addresses being unique ids), and the health status counts exactly those
    pools. *)
Theorem refresh_survives_failed_provider
  (env : Providers) (now later : Z) (s : PoolService) (failed : Provider) :
  (exists message, bodyOf env failed = Throw message) ->
  (forall p, p <> failed -> exists fetched, bodyOf env p = Ok fetched) ->
  NoDup (map poolAddress (survivors env failed)) ->
  getAllPools (refreshAllPools env now s) = survivors env failed
  /\ poolCount (getHealthStatus later (refreshAllPools env now s))
     = List.length (survivors env failed)
  /\ (survivors env failed <> [] ->
      poolCount (getHealthStatus later (refreshAllPools env now s)) <> 0%nat).
Proof.
  intros [message Hfail] Hothers Hnodup.
  assert (Hunion : fetchCetusPools env ++ fetchPancakePools env ++ fetchLiquidSwapPools env
                   = survivors env failed).
  { unfold survivors, fetchCetusPools, fetchPancakePools, fetchLiquidSwapPools.
    destruct failed; simpl in *; rewrite Hfail; simpl; rewrite ?app_nil_r;
      repeat match goal with
      | |- context [fetchOrEmpty ?b] =>
          let H := fresh in
          assert (H : fetchOrEmpty b = match b with Ok fetched => fetched | _ => [] end)
            by (destruct b; reflexivity);
          rewrite H; clear H
      end; reflexivity. }
  assert (Hall : getAllPools (refreshAllPools env now s) = survivors env failed).
  { rewrite refreshAllPools_publish, Hunion. now apply getAllPools_publish. }
  assert (Hcount : poolCount (getHealthStatus later (refreshAllPools env now s))
                   = List.length (survivors env failed)).
  { rewrite <- Hall. unfold getHealthStatus, getAllPools, JsMap.values, JsMap.size. simpl.
    now rewrite length_map. }
  repeat split; try assumption.
  intros Hnonempty. rewrite Hcount.
  destruct (survivors env failed); [congruence | discriminate].
Qed.

Lemma refresh_survives_failed_provider_witness :
  getAllPools (refreshAllPools oneFailing 1 newPoolService)
  = [examplePool "0xa"; examplePool "0xb"; examplePool "0xc"]
  /\ poolCount (getHealthStatus 2 (refreshAllPools oneFailing 1 newPoolService)) = 3%nat.
Proof.
  assert (Hfail : exists message, bodyOf oneFailing Cetus = Throw message)
    by (eexists; reflexivity).
  assert (Hothers : forall p, p <> Cetus -> exists fetched, bodyOf oneFailing p = Ok fetched)
    by (intros [| |] Hp; [congruence | eexists; reflexivity | eexists; reflexivity]).
  assert (Hnodup : NoDup (map poolAddress (survivors oneFailing Cetus)))
    by (simpl; repeat constructor; simpl; intuition discriminate).
  destruct (refresh_survives_failed_provider oneFailing 1 2 newPoolService Cetus
              Hfail Hothers Hnodup) as (Hall & Hcount & _).
  split; [exact Hall | exact Hcount].
Defined.

(** ** SDK route search *)

Module AptosRouterFacts.
Import AptosRouter.

  (** What every path returned by the search satisfies. *)
Definition withinHops (maxHops : Z) (path : list Neighbor.t) : Prop :=
    0 < Z.of_nat (List.length path) < maxHops.

Lemma findAllRoutesFuel_total (coinOut : string) (graph : Graph) (maxHops : Z) :
    forall (fuel : nat) (coinIn : string) (currentPath : list Neighbor.t) (visited : JsSet.t),
      (Z.to_nat (maxHops - Z.of_nat (List.length currentPath)) < fuel)%nat ->
      exists found,
        findAllRoutesFuel fuel coinIn coinOut graph maxHops currentPath visited = Some found
        /\ Forall (withinHops maxHops) found.
Proof.
    induction fuel as [|fuel IH]; intros coinIn currentPath visited Hfuel; [lia|].
    simpl.
    destruct (Z.geb_spec (Z.of_nat (List.length currentPath)) maxHops) as [Hfull|Hroom].
    { exists []. split; [reflexivity | constructor]. }
    destruct (String.eqb coinIn coinOut && (0 <? List.length currentPath)%nat) eqn:Harrived.
    { exists [currentPath]. split; [reflexivity|].
      constructor; [|constructor].
      apply andb_true_iff in Harrived. destruct Harrived as [_ Hlen].
      apply Nat.ltb_lt in Hlen. unfold withinHops. lia. }
    destruct (JsSet.has visited coinIn).
    { exists []. split; [reflexivity | constructor]. }
    set (visited' := JsSet.add visited coinIn).
    assert (Hloop : forall neighbors routes,
               Forall (withinHops maxHops) routes ->
               exists found,
                 fold_left
                   (fun acc neighbor =>
                      match acc with
                      | None => None
                      | Some routes =>
                          if negb (JsSet.has visited' (Neighbor.coinOut neighbor))
                          then
                            match findAllRoutesFuel fuel (Neighbor.coinOut neighbor) coinOut
                                    graph maxHops (currentPath ++ [neighbor]) visited' with
                            | None => None
                            | Some subRoutes => Some (routes ++ subRoutes)
                            end
                          else Some routes
                      end) neighbors (Some routes) = Some found
                 /\ Forall (withinHops maxHops) found).
    { induction neighbors as [|neighbor neighbors IHn]; intros routes Hroutes; simpl.
      - exists routes. split; [reflexivity | assumption].
      - destruct (negb (JsSet.has visited' (Neighbor.coinOut neighbor))).
        + destruct (IH (Neighbor.coinOut neighbor) (currentPath ++ [neighbor]) visited')
            as (subRoutes & Hsub & Hwithin).
          { rewrite length_app. simpl. lia. }
          rewrite Hsub. apply IHn. apply Forall_app. now split.
        + now apply IHn. }
    apply Hloop. constructor.
Qed.

End AptosRouterFacts.

(** C10: the search always answers, every path it returns has at least one
    step and strictly fewer than [maxHops] steps, and with [maxHops = 1] it
    returns no path at all. *)
Theorem findAllRoutes_fewer_than_maxHops
  (coinIn coinOut : string) (graph : AptosRouter.Graph) (maxHops : Z) :
  exists found,
    AptosRouter.findAllRoutes coinIn coinOut graph maxHops = Some found
    /\ Forall (fun path => Z.of_nat (List.length path) < maxHops) found
    /\ (maxHops = 1 -> found = []).
Proof.
  destruct (AptosRouterFacts.findAllRoutesFuel_total coinOut graph maxHops
              (S (Z.to_nat maxHops)) coinIn [] []) as (found & Hfound & Hwithin).
  { simpl. lia. }
  exists found. split; [exact Hfound|]. split.
  - eapply Forall_impl; [|exact Hwithin].
    intros path Hpath. apply Hpath.
  - intros ->. destruct found as [|path found]; [reflexivity|].
    apply Forall_inv in Hwithin. unfold AptosRouterFacts.withinHops in Hwithin. lia.
Qed.

(** With [maxHops = 1] a pool that connects the two coins directly is not
    found. *)
Example findAllRoutes_misses_direct_pool :
  AptosRouter.findAllRoutes "0x1::a::A" "0x1::b::B"
    (AptosRouter.buildPoolGraph [directPool]) 1 = Some []
  /\ AptosRouter.neighborsOf (AptosRouter.buildPoolGraph [directPool]) "0x1::a::A"
     = [ {| AptosRouter.Neighbor.coinOut := "0x1::b::B";
            AptosRouter.Neighbor.pool := directPool |} ]
  /\ AptosRouter.findAllRoutes "0x1::a::A" "0x1::b::B"
       (AptosRouter.buildPoolGraph [directPool]) 2
     = Some [[ {| AptosRouter.Neighbor.coinOut := "0x1::b::B";
                  AptosRouter.Neighbor.pool := directPool |} ]].
Proof. repeat split. Qed.

(** ** Rounding to significant digits *)

Module RoundingFacts.

Import Decimal.
Local Open Scope Q_scope.

Lemma Qfloor_unique (x : Q) (z : Z) :
    inject_Z z <= x -> x < inject_Z (z + 1) -> Qfloor x = z.
Proof.
    intros Hlow Hhigh.
    pose proof (Qfloor_resp_le _ _ Hlow) as H1. rewrite Qfloor_Z in H1.
    pose proof (Qfloor_le x) as H2.
    assert (H3 : inject_Z (Qfloor x) < inject_Z (z + 1)) by (eapply Qle_lt_trans; eauto).
    rewrite <- Zlt_Qlt in H3. lia.
Qed.

Lemma halfUp_mono (x y : Q) : x <= y -> (halfUp x <= halfUp y)%Z.
Proof. intros Hxy. apply Qfloor_resp_le. lra. Qed.

Lemma halfUp_Z (z : Z) : halfUp (inject_Z z) = z.
Proof.
    apply Qfloor_unique; [lra|].
    rewrite inject_Z_plus. change (inject_Z 1) with 1. lra.
Qed.

Lemma halfEven_bounds (x : Q) : (Qfloor x <= halfEven x <= Qfloor x + 1)%Z.
Proof.
    unfold halfEven.
    destruct (x - inject_Z (Qfloor x) ?= 1 # 2); try lia.
    destruct (Z.even (Qfloor x)); lia.
Qed.

Lemma halfEven_mono (x y : Q) : x <= y -> (halfEven x <= halfEven y)%Z.
Proof.
    intros Hxy.
    pose proof (Qfloor_resp_le _ _ Hxy) as Hfloor.
    pose proof (halfEven_bounds x) as Hx. pose proof (halfEven_bounds y) as Hy.
    destruct (Z.eq_dec (Qfloor x) (Qfloor y)) as [Heq|Hne]; [|lia].
    unfold halfEven in *. rewrite <- Heq in *.
    destruct (Qcompare_spec (x - inject_Z (Qfloor x)) (1 # 2)) as [Hx'|Hx'|Hx'];
      destruct (Qcompare_spec (y - inject_Z (Qfloor x)) (1 # 2)) as [Hy'|Hy'|Hy'];
      try lia; try lra; destruct (Z.even (Qfloor x)); lia.
Qed.

Lemma halfEven_Z (z : Z) : halfEven (inject_Z z) = z.
Proof.
    unfold halfEven. rewrite Qfloor_Z.
    destruct (Qcompare_spec (inject_Z z - inject_Z z) (1 # 2)) as [H|H|H]; try lra; lia.
Qed.

  (** *** Integer logarithm *)

Lemma ilogFuel_spec (b : Z) (Hb : (1 < b)%Z) :
    forall (fuel : nat) (n : Z),
      (0 < n < b ^ Z.of_nat fuel)%Z ->
      (0 <= ilogFuel fuel b n
       /\ b ^ ilogFuel fuel b n <= n < b ^ (ilogFuel fuel b n + 1))%Z.
Proof.
    induction fuel as [|fuel IH]; intros n Hn.
    - simpl in Hn. lia.
    - cbn [ilogFuel]. destruct (Z.ltb_spec n b) as [Hlt|Hge].
      + replace (0 + 1)%Z with 1%Z by lia. rewrite Z.pow_0_r, Z.pow_1_r. lia.
      + assert (Hdiv : (0 < n / b < b ^ Z.of_nat fuel)%Z).
        { split.
          - apply Z.div_str_pos. lia.
          - apply Z.div_lt_upper_bound; [lia|].
            rewrite Nat2Z.inj_succ, Z.pow_succ_r in Hn by lia. lia. }
        destruct (IH _ Hdiv) as (Hnonneg & Hlow & Hhigh).
        pose proof (Z.mul_div_le n b ltac:(lia)) as Hle.
        pose proof (Z.mul_succ_div_gt n b ltac:(lia)) as Hgt.
        split; [lia|].
        replace (1 + ilogFuel fuel b (n / b))%Z with (Z.succ (ilogFuel fuel b (n / b))) by lia.
        rewrite !Z.add_1_r, !Z.pow_succ_r in * by lia.
        set (P := (b ^ ilogFuel fuel b (n / b))%Z) in *.
        set (d := (n / b)%Z) in *.
        assert (b * P <= b * d)%Z by (apply Z.mul_le_mono_nonneg_l; lia).
        assert (b * (d + 1) <= b * (b * P))%Z by (apply Z.mul_le_mono_nonneg_l; lia).
        lia.
Qed.

Lemma ilogZ_spec (b : Z) (Hb : (1 < b)%Z) (n : Z) :
    (0 < n)%Z ->
    (0 <= ilogZ b n /\ b ^ ilogZ b n <= n < b ^ (ilogZ b n + 1))%Z.
Proof.
    intros Hn. unfold ilogZ. apply ilogFuel_spec; [assumption|].
    split; [assumption|].
    pose proof (Z.log2_spec n Hn) as [_ Hlog].
    pose proof (Z.log2_nonneg n) as Hnonneg.
    rewrite Nat2Z.inj_succ, Z2Nat.id by assumption.
    eapply Z.lt_le_trans; [exact Hlog|].
    apply Z.pow_le_mono_l. lia.
Qed.

Section Radix.

Variable b : Z.
Hypothesis Hb : (1 < b)%Z.

Local Notation "'B'" := (inject_Z b).

Lemma B_gt1 : 1 < B.
Proof. change 1 with (inject_Z 1). rewrite <- Zlt_Qlt. exact Hb. Qed.

Lemma B_pos : 0 < B.
Proof. pose proof B_gt1. lra. Qed.

Lemma B_neq0 : ~ B == 0.
Proof. pose proof B_pos. lra. Qed.

Lemma Bpow_pos (k : Z) : 0 < B ^ k.
Proof. apply Qpower_0_lt, B_pos. Qed.

Lemma Bpow_add (i j : Z) : B ^ (i + j) == B ^ i * B ^ j.
Proof. apply Qpower_plus, B_neq0. Qed.

Lemma Bpow_Z (k : Z) : (0 <= k)%Z -> B ^ k == inject_Z (b ^ k).
Proof. intros Hk. symmetry. now apply Zpower_Qpower. Qed.

Lemma Bpow_lt (i j : Z) : (i < j)%Z -> B ^ i < B ^ j.
Proof. intros Hij. apply Qpower_lt_compat_l; [exact Hij | exact B_gt1]. Qed.

Lemma Bpow_le (i j : Z) : (i <= j)%Z -> B ^ i <= B ^ j.
Proof.
      intros Hij. apply Qpower_le_compat_l; [exact Hij|]. pose proof B_gt1. lra.
Qed.

Lemma Bpow_lt_inv (i j : Z) : B ^ i < B ^ j -> (i < j)%Z.
Proof. intros Hij. eapply Qpower_lt_compat_l_inv; [exact Hij | exact B_gt1]. Qed.

Lemma Bpow_1 : B ^ 1 == B.
Proof. reflexivity. Qed.

Lemma Bpow_succ (k : Z) : B ^ (k + 1) == B ^ k * B.
Proof. rewrite Bpow_add. reflexivity. Qed.

    (** [ilogQ] finds the decade of a positive rational. *)
Lemma ilogQ_spec (q : Q) :
      0 < q -> B ^ ilogQ b q <= q /\ q < B ^ (ilogQ b q + 1).
Proof.
      intros Hq. destruct q as [n d].
      assert (Hn : (0 < n)%Z).
      { unfold Qlt in Hq. simpl in Hq. lia. }
      destruct (ilogZ_spec b Hb n Hn) as (Hn0 & Hnlow & Hnhigh).
      destruct (ilogZ_spec b Hb (Zpos d) ltac:(lia)) as (Hd0 & Hdlow & Hdhigh).
      unfold ilogQ. cbn [Qnum Qden].
      set (ln := ilogZ b n) in *. set (ld := ilogZ b (Zpos d)) in *.
      assert (Hnd : (n # d) * inject_Z (Zpos d) == inject_Z n).
      { unfold Qeq, Qmult, inject_Z. simpl. lia. }
      assert (Hupper : (n # d) < B ^ (ln - ld + 1)).
      { apply (Qmult_lt_r _ _ (B ^ ld)); [apply Bpow_pos|].
        rewrite <- Bpow_add. replace (ln - ld + 1 + ld)%Z with (ln + 1)%Z by lia.
        rewrite !Bpow_Z by lia.
        apply Qle_lt_trans with (inject_Z n).
        - rewrite <- Hnd. apply Qmult_le_l; [exact Hq|]. now rewrite <- Zle_Qle.
        - now rewrite <- Zlt_Qlt. }
      assert (Hlower : B ^ (ln - ld - 1) < (n # d)).
      { apply (Qmult_lt_r _ _ (B ^ (ld + 1))); [apply Bpow_pos|].
        rewrite <- Bpow_add. replace (ln - ld - 1 + (ld + 1))%Z with ln by lia.
        rewrite !Bpow_Z by lia.
        apply Qle_lt_trans with (inject_Z n).
        - now rewrite <- Zle_Qle.
        - rewrite <- Hnd. apply Qmult_lt_l; [exact Hq|]. now rewrite <- Zlt_Qlt. }
      destruct (Qle_bool (B ^ (ln - ld)) (n # d)) eqn:Htest.
      - apply Qle_bool_iff in Htest. split; assumption.
      - assert (Hlt : (n # d) < B ^ (ln - ld)).
        { apply Qnot_le_lt. intros Hle. apply Qle_bool_iff in Hle. congruence. }
        replace (ln - ld - 1 + 1)%Z with (ln - ld)%Z by lia.
        split; [apply Qlt_le_weak|]; assumption.
Qed.

Lemma ilogQ_unique (q : Q) (e : Z) :
      B ^ e <= q -> q < B ^ (e + 1) -> ilogQ b q = e.
Proof.
      intros Hlow Hhigh.
      assert (Hq : 0 < q) by (pose proof (Bpow_pos e); lra).
      destruct (ilogQ_spec q Hq) as [Hlow' Hhigh'].
      assert (H1 : (e < ilogQ b q + 1)%Z) by (apply Bpow_lt_inv; lra).
      assert (H2 : (ilogQ b q < e + 1)%Z) by (apply Bpow_lt_inv; lra).
      lia.
Qed.

Lemma ilogQ_proper (q q' : Q) : 0 < q -> q == q' -> ilogQ b q = ilogQ b q'.
Proof.
      intros Hq Heq. symmetry. destruct (ilogQ_spec q Hq) as [Hlow Hhigh].
      apply ilogQ_unique; rewrite <- Heq; assumption.
Qed.

Lemma ilogQ_mono (q1 q2 : Q) : 0 < q1 -> q1 <= q2 -> (ilogQ b q1 <= ilogQ b q2)%Z.
Proof.
      intros Hq1 Hle.
      destruct (ilogQ_spec q1 Hq1) as [Hlow1 _].
      destruct (ilogQ_spec q2 ltac:(lra)) as [_ Hhigh2].
      assert (H : (ilogQ b q1 < ilogQ b q2 + 1)%Z) by (apply Bpow_lt_inv; lra).
      lia.
Qed.

    (** *** Rounding of a magnitude *)

Variable p : Z.
Hypothesis Hp : (0 < p)%Z.
Variable emin : option Z.
Variable rint : Q -> Z.
Hypothesis rint_mono : forall x y, x <= y -> (rint x <= rint y)%Z.
Hypothesis rint_Z : forall z, rint (inject_Z z) = z.

Local Notation "'expo'" := (exponentOf b emin).
Local Notation "'ulp'" := (ulpOf b p emin).
Local Notation "'rmag'" := (roundMagnitude b p emin rint).

Lemma rint_proper (x y : Q) : x == y -> rint x = rint y.
Proof.
      intros Heq. apply Z.le_antisymm; apply rint_mono; rewrite Heq; apply Qle_refl.
Qed.

Lemma expo_ge_ilog (a : Q) : (ilogQ b a <= expo a)%Z.
Proof. unfold exponentOf. destruct emin; lia. Qed.

Lemma expo_cases (a : Q) :
      expo a = ilogQ b a
      \/ (exists lowest, emin = Some lowest /\ expo a = lowest /\ (ilogQ b a < lowest)%Z).
Proof.
      unfold exponentOf. destruct emin as [lowest|]; [|now left].
      destruct (Z.max_spec lowest (ilogQ b a)) as [[Hlt ->]|[Hle ->]].
      - now left.
      - destruct (Z.eq_dec lowest (ilogQ b a)) as [Heq|Hne]; [now left|].
        right. exists lowest. repeat split. lia.
Qed.

Lemma expo_mono (a1 a2 : Q) : 0 < a1 -> a1 <= a2 -> (expo a1 <= expo a2)%Z.
Proof.
      intros Hpos Hle. pose proof (ilogQ_mono a1 a2 Hpos Hle).
      unfold exponentOf. destruct emin; lia.
Qed.

Lemma expo_proper (a a' : Q) : 0 < a -> a == a' -> expo a = expo a'.
Proof.
      intros Hpos Heq. unfold exponentOf.
      rewrite (ilogQ_proper a a' Hpos Heq). reflexivity.
Qed.

Lemma ulp_pos (a : Q) : 0 < ulp a.
Proof. apply Bpow_pos. Qed.

Lemma ulp_proper (a a' : Q) : 0 < a -> a == a' -> ulp a = ulp a'.
Proof. intros Hpos Heq. unfold ulpOf. now rewrite (expo_proper a a' Hpos Heq). Qed.

Lemma rmag_proper (a a' : Q) : 0 < a -> a == a' -> rmag a == rmag a'.
Proof.
      intros Hpos Heq. unfold roundMagnitude.
      rewrite (ulp_proper a a' Hpos Heq).
      rewrite (rint_proper (a / ulp a') (a' / ulp a')); [reflexivity|].
      now rewrite Heq.
Qed.

Lemma below_next_decade (a : Q) : 0 < a -> a < B ^ (expo a + 1).
Proof.
      intros Hpos. destruct (ilogQ_spec a Hpos) as [_ Hhigh].
      eapply Qlt_le_trans; [exact Hhigh|].
      apply Bpow_le. pose proof (expo_ge_ilog a). lia.
Qed.

Lemma ulp_times_full : forall a, inject_Z (b ^ p) * ulp a == B ^ (expo a + 1).
Proof.
      intros a. unfold ulpOf. rewrite <- Bpow_Z by lia. rewrite <- Bpow_add.
      replace (p + (expo a - p + 1))%Z with (expo a + 1)%Z by lia. reflexivity.
Qed.

Lemma ulp_times_least : forall a, inject_Z (b ^ (p - 1)) * ulp a == B ^ expo a.
Proof.
      intros a. unfold ulpOf. rewrite <- Bpow_Z by lia. rewrite <- Bpow_add.
      replace (p - 1 + (expo a - p + 1))%Z with (expo a) by lia. reflexivity.
Qed.

Lemma rint_scaled_upper (a : Q) : 0 < a -> (rint (a / ulp a) <= b ^ p)%Z.
Proof.
      intros Hpos. rewrite <- (rint_Z (b ^ p)). apply rint_mono.
      apply Qle_shift_div_r; [apply ulp_pos|].
      rewrite ulp_times_full. apply Qlt_le_weak. now apply below_next_decade.
Qed.

Lemma rint_scaled_lower (a : Q) :
      0 < a -> expo a = ilogQ b a -> (b ^ (p - 1) <= rint (a / ulp a))%Z.
Proof.
      intros Hpos Hexpo. rewrite <- (rint_Z (b ^ (p - 1))). apply rint_mono.
      apply Qle_shift_div_l; [apply ulp_pos|].
      rewrite ulp_times_least, Hexpo. now apply ilogQ_spec.
Qed.

Lemma rint_scaled_nonneg (a : Q) : 0 < a -> (0 <= rint (a / ulp a))%Z.
Proof.
      intros Hpos. rewrite <- (rint_Z 0). apply rint_mono.
      apply Qle_shift_div_l; [apply ulp_pos|]. change (inject_Z 0) with 0. lra.
Qed.

Lemma rmag_upper (a : Q) : 0 < a -> rmag a <= B ^ (expo a + 1).
Proof.
      intros Hpos. unfold roundMagnitude. rewrite <- ulp_times_full.
      apply Qmult_le_compat_r; [|apply Qlt_le_weak, ulp_pos].
      rewrite <- Zle_Qle. now apply rint_scaled_upper.
Qed.

Lemma rmag_lower (a : Q) : 0 < a -> expo a = ilogQ b a -> B ^ expo a <= rmag a.
Proof.
      intros Hpos Hexpo. unfold roundMagnitude. rewrite <- ulp_times_least.
      apply Qmult_le_compat_r; [|apply Qlt_le_weak, ulp_pos].
      rewrite <- Zle_Qle. now apply rint_scaled_lower.
Qed.

Lemma rmag_nonneg (a : Q) : 0 < a -> 0 <= rmag a.
Proof.
      intros Hpos. unfold roundMagnitude.
      apply Qmult_le_0_compat; [|apply Qlt_le_weak, ulp_pos].
      change 0 with (inject_Z 0). rewrite <- Zle_Qle. now apply rint_scaled_nonneg.
Qed.

Lemma rmag_mono (a1 a2 : Q) : 0 < a1 -> a1 <= a2 -> rmag a1 <= rmag a2.
Proof.
      intros Hpos Hle.
      pose proof (expo_mono a1 a2 Hpos Hle) as Hexpo.
      destruct (Z.eq_dec (expo a1) (expo a2)) as [Hsame|Hdiff].
      - unfold roundMagnitude, ulpOf. rewrite Hsame.
        apply Qmult_le_compat_r; [|apply Qlt_le_weak, Bpow_pos].
        rewrite <- Zle_Qle. apply rint_mono.
        apply Qmult_le_compat_r; [exact Hle|].
        apply Qlt_le_weak, Qinv_lt_0_compat, Bpow_pos.
      - assert (Hunclamped : expo a2 = ilogQ b a2).
        { destruct (expo_cases a2) as [H|(lowest & Hemin & Hlow & _)]; [exact H|].
          exfalso. assert (lowest <= expo a1)%Z by (unfold exponentOf; rewrite Hemin; lia).
          lia. }
        apply Qle_trans with (B ^ (expo a1 + 1)); [now apply rmag_upper|].
        apply Qle_trans with (B ^ expo a2); [apply Bpow_le; lia|].
        apply rmag_lower; [lra | exact Hunclamped].
Qed.

Lemma rmag_integral (a : Q) (m : Z) :
      a / ulp a == inject_Z m -> rmag a == a.
Proof.
      intros Hint. unfold roundMagnitude.
      rewrite (rint_proper _ _ Hint), rint_Z, <- Hint.
      field. pose proof (ulp_pos a). lra.
Qed.

    (** A magnitude with at most [p] digits, not below the lowest exponent,
        is left as it is. *)
Lemma rmag_representable (a : Q) (k j : Z) :
      a == inject_Z k * B ^ j ->
      (0 < k < b ^ p)%Z ->
      (forall lowest, emin = Some lowest -> (lowest - p + 1 <= j)%Z) ->
      rmag a == a.
Proof.
      intros Hrepr [Hk0 Hkp] Hlowest.
      assert (Hk0' : 0 < inject_Z k) by (change 0 with (inject_Z 0); now rewrite <- Zlt_Qlt).
      assert (Hpos : 0 < a).
      { rewrite Hrepr. apply Qmult_lt_0_compat; [exact Hk0' | apply Bpow_pos]. }
      assert (Hbelow : a < B ^ (p + j)).
      { rewrite Hrepr, Bpow_add, (Bpow_Z p) by lia.
        apply Qmult_lt_compat_r; [apply Bpow_pos|]. now rewrite <- Zlt_Qlt. }
      assert (Hilog : (ilogQ b a < p + j)%Z).
      { apply Bpow_lt_inv. destruct (ilogQ_spec a Hpos) as [Hlow _]. lra. }
      assert (Hexpo : (expo a <= p + j - 1)%Z).
      { unfold exponentOf. destruct emin as [lowest|] eqn:Hemin; [|lia].
        specialize (Hlowest lowest eq_refl). lia. }
      set (t := (j - (expo a - p + 1))%Z).
      apply (rmag_integral a (k * b ^ t)).
      assert (Ht : inject_Z (b ^ t) == B ^ t) by (symmetry; apply Bpow_Z; unfold t; lia).
      rewrite inject_Z_mult, Ht.
      rewrite Hrepr at 1. unfold ulpOf.
      replace j with (t + (expo a - p + 1))%Z at 1 by (unfold t; lia).
      rewrite Bpow_add. field.
      pose proof (Bpow_pos (expo a - p + 1)). lra.
Qed.

Lemma one_lt_full : (1 < b ^ p)%Z.
Proof.
      replace p with (Z.succ (p - 1)) by lia. rewrite Z.pow_succ_r by lia.
      pose proof (Z.pow_pos_nonneg b (p - 1) ltac:(lia) ltac:(lia)). nia.
Qed.

Lemma rmag_idempotent (a : Q) : 0 < a -> 0 < rmag a -> rmag (rmag a) == rmag a.
Proof.
      intros Hpos Hrpos.
      pose proof (rint_scaled_upper a Hpos) as Hupper.
      assert (Hm : (0 < rint (a / ulp a))%Z).
      { destruct (Z.lt_ge_cases 0 (rint (a / ulp a))) as [H|H]; [exact H|].
        exfalso. unfold roundMagnitude in Hrpos.
        assert (inject_Z (rint (a / ulp a)) <= 0)
          by (change 0 with (inject_Z 0); now rewrite <- Zle_Qle).
        pose proof (ulp_pos a). nra. }
      assert (Hlowest : forall lowest, emin = Some lowest -> (lowest <= expo a)%Z).
      { intros lowest Hemin. unfold exponentOf. rewrite Hemin. lia. }
      destruct (Z.eq_dec (rint (a / ulp a)) (b ^ p)) as [Hfull|Hnotfull].
      - apply (rmag_representable _ 1 (expo a + 1)).
        + unfold roundMagnitude. rewrite Hfull, ulp_times_full.
          change (inject_Z 1) with 1. ring.
        + pose proof one_lt_full. lia.
        + intros lowest Hemin. specialize (Hlowest lowest Hemin). lia.
      - apply (rmag_representable _ (rint (a / ulp a)) (expo a - p + 1)).
        + reflexivity.
        + lia.
        + intros lowest Hemin. specialize (Hlowest lowest Hemin). lia.
Qed.

    (** *** Rounding of a signed value *)

Local Notation "'rnd'" := (roundSig b p emin rint).

Lemma roundSig_pos (q : Q) : 0 < q -> rnd q == rmag q.
Proof.
      intros Hpos. unfold roundSig.
      destruct (Qeq_bool q 0) eqn:Hzero.
      { apply Qeq_bool_iff in Hzero. lra. }
      assert (Hle : Qle_bool 0 q = true) by (apply Qle_bool_iff; lra).
      rewrite Hle, Qred_correct.
      apply rmag_proper; [|apply Qabs_pos; lra].
      rewrite Qabs_pos; lra.
Qed.

Lemma roundSig_neg (q : Q) : q < 0 -> rnd q == - rmag (- q).
Proof.
      intros Hneg. unfold roundSig.
      destruct (Qeq_bool q 0) eqn:Hzero.
      { apply Qeq_bool_iff in Hzero. lra. }
      destruct (Qle_bool 0 q) eqn:Hle.
      { apply Qle_bool_iff in Hle. lra. }
      rewrite Qred_correct.
      apply Qopp_comp, rmag_proper; [|apply Qabs_neg; lra].
      rewrite Qabs_neg; lra.
Qed.

Lemma roundSig_zero (q : Q) : q == 0 -> rnd q = 0.
Proof.
      intros Hzero. unfold roundSig. apply Qeq_bool_iff in Hzero. now rewrite Hzero.
Qed.

Lemma roundSig_proper (q q' : Q) : q == q' -> rnd q = rnd q'.
Proof.
      intros Heq. unfold roundSig.
      destruct (Qeq_bool q 0) eqn:Hq; destruct (Qeq_bool q' 0) eqn:Hq'.
      - reflexivity.
      - apply Qeq_bool_iff in Hq. apply Qeq_bool_neq in Hq'. rewrite Heq in Hq. contradiction.
      - apply Qeq_bool_iff in Hq'. apply Qeq_bool_neq in Hq. rewrite Heq in Hq. contradiction.
      - apply Qeq_bool_neq in Hq.
        assert (Habs : 0 < Qabs q).
        { pose proof (Qabs_nonneg q). apply Qabs_case; intros; lra. }
        assert (Hmag : rmag (Qabs q) == rmag (Qabs q')).
        { apply rmag_proper; [exact Habs | now rewrite Heq]. }
        assert (Hle : Qle_bool 0 q = Qle_bool 0 q').
        { destruct (Qle_bool 0 q) eqn:H1; destruct (Qle_bool 0 q') eqn:H2; try reflexivity.
          - apply Qle_bool_iff in H1. rewrite Heq in H1. apply Qle_bool_iff in H1. congruence.
          - apply Qle_bool_iff in H2. rewrite <- Heq in H2. apply Qle_bool_iff in H2. congruence. }
        rewrite Hle. apply Qred_complete.
        destruct (Qle_bool 0 q'); [exact Hmag | now apply Qopp_comp].
Qed.

Lemma roundSig_nonneg (q : Q) : 0 <= q -> 0 <= rnd q.
Proof.
      intros Hq. destruct (Qeq_dec q 0) as [Hzero|Hnonzero].
      - rewrite (roundSig_zero q Hzero). lra.
      - assert (Hpos : 0 < q) by lra.
        rewrite (roundSig_pos q Hpos). now apply rmag_nonneg.
Qed.

Lemma roundSig_nonpos (q : Q) : q <= 0 -> rnd q <= 0.
Proof.
      intros Hq. destruct (Qeq_dec q 0) as [Hzero|Hnonzero].
      - rewrite (roundSig_zero q Hzero). lra.
      - assert (Hneg : q < 0) by lra.
        rewrite (roundSig_neg q Hneg).
        pose proof (rmag_nonneg (- q) ltac:(lra)). lra.
Qed.

Lemma roundSig_opp (q : Q) : rnd (- q) == - rnd q.
Proof.
      destruct (Q_dec q 0) as [[Hneg|Hpos]|Hzero].
      - rewrite (roundSig_pos (- q)) by lra. rewrite (roundSig_neg q Hneg). ring.
      - rewrite (roundSig_neg (- q)) by lra. rewrite (roundSig_pos q Hpos).
        apply Qopp_comp, rmag_proper; [lra | ring].
      - rewrite (roundSig_zero q Hzero), (roundSig_zero (- q)) by lra. reflexivity.
Qed.

Theorem roundSig_mono (q1 q2 : Q) : q1 <= q2 -> rnd q1 <= rnd q2.
Proof.
      intros Hle.
      destruct (Q_dec q1 0) as [[Hneg1|Hpos1]|Hzero1].
      - destruct (Qlt_le_dec q2 0) as [Hneg2|Hnonneg2].
        + rewrite (roundSig_neg q1 Hneg1), (roundSig_neg q2 Hneg2).
          apply Qopp_le_compat. apply rmag_mono; lra.
        + apply Qle_trans with 0; [apply roundSig_nonpos; lra | now apply roundSig_nonneg].
      - rewrite (roundSig_pos q1 Hpos1), (roundSig_pos q2) by lra.
        now apply rmag_mono.
      - rewrite (roundSig_zero q1 Hzero1). apply roundSig_nonneg. lra.
Qed.

Theorem roundSig_idempotent (q : Q) : rnd (rnd q) == rnd q.
Proof.
      destruct (Q_dec q 0) as [[Hneg|Hpos]|Hzero].
      - pose proof (roundSig_neg q Hneg) as Hq.
        rewrite (roundSig_proper _ _ Hq), roundSig_opp, Hq.
        apply Qopp_comp.
        pose proof (rmag_nonneg (- q) ltac:(lra)) as Hnonneg.
        destruct (Qeq_dec (rmag (- q)) 0) as [Hr0|Hr0].
        + rewrite (roundSig_zero _ Hr0). now rewrite Hr0.
        + assert (Hrpos : 0 < rmag (- q)) by lra.
          rewrite (roundSig_pos _ Hrpos). apply rmag_idempotent; [lra | exact Hrpos].
      - pose proof (roundSig_pos q Hpos) as Hq.
        rewrite (roundSig_proper _ _ Hq), Hq.
        pose proof (rmag_nonneg q Hpos) as Hnonneg.
        destruct (Qeq_dec (rmag q) 0) as [Hr0|Hr0].
        + rewrite (roundSig_zero _ Hr0). now rewrite Hr0.
        + assert (Hrpos : 0 < rmag q) by lra.
          rewrite (roundSig_pos _ Hrpos). now apply rmag_idempotent.
      - rewrite (roundSig_zero q Hzero). reflexivity.
Qed.

    (** Whole numbers of at most [p] digits are left as they are. *)
Theorem roundSig_Z (z : Z) :
      (Z.abs z < b ^ p)%Z ->
      (forall lowest, emin = Some lowest -> (lowest - p + 1 <= 0)%Z) ->
      rnd (inject_Z z) == inject_Z z.
Proof.
      intros Hz Hlowest.
      assert (Hposcase : forall k, (0 < k < b ^ p)%Z -> rnd (inject_Z k) == inject_Z k).
      { intros k Hk.
        assert (Hkpos : 0 < inject_Z k)
          by (change 0 with (inject_Z 0); rewrite <- Zlt_Qlt; lia).
        rewrite (roundSig_pos _ Hkpos).
        apply (rmag_representable _ k 0); [|exact Hk|exact Hlowest].
        change (B ^ 0) with 1. ring. }
      destruct (Z.lt_trichotomy z 0) as [Hneg|[->|Hpos]].
      - replace z with (- - z)%Z by lia. rewrite inject_Z_opp, roundSig_opp.
        apply Qopp_comp, Hposcase. lia.
      - reflexivity.
      - apply Hposcase. lia.
Qed.

    (** Without a lowest exponent, rounding commutes with a shift of the
    radix point. *)
Lemma ilogQ_shift (a : Q) (k : Z) : 0 < a -> ilogQ b (a * B ^ k) = (ilogQ b a + k)%Z.
Proof.
  intros Hpos. destruct (ilogQ_spec a Hpos) as [Hlow Hhigh].
  pose proof (Bpow_pos k) as Hk.
  apply ilogQ_unique.
  - rewrite Bpow_add. now apply Qmult_le_compat_r; [|apply Qlt_le_weak].
  - replace (ilogQ b a + k + 1)%Z with (ilogQ b a + 1 + k)%Z by lia.
    rewrite Bpow_add. now apply Qmult_lt_compat_r.
Qed.

Lemma rmag_shift (a : Q) (k : Z) :
  emin = None -> 0 < a -> rmag (a * B ^ k) == rmag a * B ^ k.
Proof.
  intros Hemin Hpos.
  assert (Hexpo : expo (a * B ^ k) = (expo a + k)%Z).
  { unfold exponentOf. rewrite Hemin. now apply ilogQ_shift. }
  assert (Hulp : ulp (a * B ^ k) == ulp a * B ^ k).
  { unfold ulpOf. rewrite Hexpo, <- Bpow_add. apply Qpower_comp; [reflexivity | lia]. }
  unfold roundMagnitude.
  assert (Hscaled : a * B ^ k / ulp (a * B ^ k) == a / ulp a).
  { rewrite Hulp. field. pose proof (ulp_pos a). pose proof (Bpow_pos k). split; lra. }
  rewrite (rint_proper _ _ Hscaled), Hulp. ring.
Qed.

Lemma roundSig_shift (q : Q) (k : Z) :
  emin = None -> 0 < q -> rnd (q * B ^ k) == rnd q * B ^ k.
Proof.
  intros Hemin Hpos.
  assert (Hshifted : 0 < q * B ^ k) by (apply Qmult_lt_0_compat; [exact Hpos | apply Bpow_pos]).
  rewrite (roundSig_pos _ Hshifted), (roundSig_pos _ Hpos). now apply rmag_shift.
Qed.

(** Without a lowest exponent a positive value stays positive. *)
Lemma roundSig_positive (q : Q) : emin = None -> 0 < q -> 0 < rnd q.
Proof.
      intros Hemin Hpos. rewrite (roundSig_pos q Hpos).
      assert (Hexpo : expo q = ilogQ b q) by (unfold exponentOf; now rewrite Hemin).
      pose proof (rmag_lower q Hpos Hexpo). pose proof (Bpow_pos (expo q)). lra.
Qed.

End Radix.

End RoundingFacts.

(** ** Decimal arithmetic *)

Module DecimalFacts.

Import Decimal.
Local Open Scope Q_scope.

(** Side conditions of the rounding lemmas: the radix, the precision and the
    two properties of the integer rounding. *)
Ltac rounding_side :=
  first [ exact RoundingFacts.halfUp_mono | exact RoundingFacts.halfUp_Z
        | exact RoundingFacts.halfEven_mono | exact RoundingFacts.halfEven_Z
        | reflexivity | discriminate | assumption | idtac ].

Lemma round_mono (x y : Q) : x <= y -> round x <= round y.
Proof.
  apply RoundingFacts.roundSig_mono; rounding_side.
Qed.

Lemma round_idempotent (x : Q) : round (round x) == round x.
Proof.
  apply RoundingFacts.roundSig_idempotent; rounding_side.
Qed.

Lemma round_proper (x y : Q) : x == y -> round x = round y.
Proof.
  apply RoundingFacts.roundSig_proper; rounding_side.
Qed.

Lemma round_nonneg (x : Q) : 0 <= x -> 0 <= round x.
Proof.
  apply RoundingFacts.roundSig_nonneg; rounding_side.
Qed.

Lemma round_positive (x : Q) : 0 < x -> 0 < round x.
Proof.
  apply RoundingFacts.roundSig_positive; rounding_side.
Qed.

Lemma round_opp (x : Q) : round (- x) == - round x.
Proof.
  apply RoundingFacts.roundSig_opp; rounding_side.
Qed.

Lemma round_Z (z : Z) : (Z.abs z < 10 ^ 20)%Z -> round (inject_Z z) == inject_Z z.
Proof.
  intros Hz. apply RoundingFacts.roundSig_Z; rounding_side.
Qed.

(** A value [k * 10^j] with [0 < k < 10^20] has at most 20 significant
    digits. *)
Lemma round_representable (x : Q) (k j : Z) :
  x == inject_Z k * 10 ^ j -> (0 < k < 10 ^ 20)%Z -> round x == x.
Proof.
  intros Hx Hk.
  assert (Hpos : 0 < x).
  { rewrite Hx. apply Qmult_lt_0_compat.
    - change 0 with (inject_Z 0). rewrite <- Zlt_Qlt. lia.
    - apply Qpower_0_lt. reflexivity. }
  unfold round. rewrite RoundingFacts.roundSig_pos; rounding_side.
  apply (RoundingFacts.rmag_representable 10 ltac:(lia) precision ltac:(reflexivity)
           None halfUp RoundingFacts.halfUp_mono RoundingFacts.halfUp_Z x k j);
    rounding_side.
Qed.

Lemma round_shift (x : Q) (k : Z) : 0 < x -> round (x * 10 ^ k) == round x * 10 ^ k.
Proof.
  intros Hpos.
  apply (RoundingFacts.roundSig_shift 10 ltac:(lia) precision None halfUp
           RoundingFacts.halfUp_mono x k eq_refl Hpos).
Qed.

(** The unit roundoff of 20-digit arithmetic: rounding moves a value by at
    most this fraction of it. *)
Lemma halfUp_near (y : Q) : y - (1 # 2) <= inject_Z (halfUp y) <= y + (1 # 2).
Proof.
  unfold halfUp. pose proof (Qfloor_le (y + (1 # 2))) as Hle.
  pose proof (Qlt_floor (y + (1 # 2))) as Hlt.
  rewrite inject_Z_plus in Hlt. change (inject_Z 1) with 1 in Hlt. split; lra.
Qed.

Lemma round_relative (q : Q) :
  0 <= q -> q * (1 - unitRoundoff) <= round q /\ round q <= q * (1 + unitRoundoff).
Proof.
  intros Hq. destruct (Qeq_dec q 0) as [Hzero|Hnonzero].
  { rewrite (round_proper q 0 Hzero), Hzero. split; vm_compute; discriminate. }
  assert (Hpos : 0 < q) by lra.
  unfold round. rewrite RoundingFacts.roundSig_pos; rounding_side.
  unfold roundMagnitude.
  set (U := ulpOf 10 precision None q).
  assert (HU : 0 < U) by (apply RoundingFacts.ulp_pos; lia).
  assert (Hleast : inject_Z (10 ^ 19) * U <= q).
  { unfold U. change 19%Z with (precision - 1)%Z.
    rewrite (RoundingFacts.ulp_times_least 10 ltac:(lia) precision ltac:(reflexivity)).
    apply RoundingFacts.ilogQ_spec; [lia | exact Hpos]. }
  change (inject_Z (10 ^ 19)) with (10000000000000000000 # 1) in Hleast.
  pose proof (halfUp_near (q / U)) as [Hlow Hhigh].
  assert (Hscaled : q / U * U == q) by (field; lra).
  assert (Hl : (q / U - (1 # 2)) * U <= inject_Z (halfUp (q / U)) * U)
    by (apply Qmult_le_compat_r; lra).
  assert (Hh : inject_Z (halfUp (q / U)) * U <= (q / U + (1 # 2)) * U)
    by (apply Qmult_le_compat_r; lra).
  unfold unitRoundoff. split; lra.
Qed.

Lemma div_Ok (x y : Q) : ~ y == 0 -> div x y = Ok (round (x / y)).
Proof.
  intros Hy. unfold div.
  destruct (Qeq_bool y 0) eqn:Hzero; [|reflexivity].
  apply Qeq_bool_iff in Hzero. contradiction.
Qed.

Lemma lte_false (x y : Q) : y < x -> lte x y = false.
Proof.
  intros Hlt. unfold lte. destruct (Qle_bool x y) eqn:Hle; [|reflexivity].
  apply Qle_bool_iff in Hle. lra.
Qed.

(** [toNumber] keeps a value between zero and a whole number below 2^53
    between them. *)
Lemma toNumber_bounded (x : Q) (n : Z) :
  0 <= x -> x <= inject_Z n -> (n < 2 ^ 53)%Z ->
  exists v, toNumber x = Ok v /\ 0 <= v <= inject_Z n.
Proof.
  intros Hlow Hhigh Hn.
  set (r := roundSig 2 53 (Some (-1022)%Z) halfEven x).
  assert (Hr0 : 0 <= r).
  { apply RoundingFacts.roundSig_nonneg; rounding_side. }
  assert (Hn0 : (0 <= n)%Z).
  { rewrite Zle_Qle. change (inject_Z 0) with 0. lra. }
  assert (Hrn : r <= inject_Z n).
  { rewrite <- (RoundingFacts.roundSig_Z 2 ltac:(lia) 53 ltac:(lia) (Some (-1022)%Z) halfEven
                  RoundingFacts.halfEven_mono RoundingFacts.halfEven_Z n).
    - apply RoundingFacts.roundSig_mono; rounding_side.
    - lia.
    - intros lowest Hl. injection Hl as <-. lia. }
  exists r. split; [|split; assumption].
  unfold toNumber. fold r.
  destruct (Qle_bool (2 ^ 1024) (Qabs r)) eqn:Hover; [|reflexivity].
  exfalso. apply Qle_bool_iff in Hover. rewrite Qabs_pos in Hover by assumption.
  assert (Hbig : inject_Z n < 2 ^ 1024).
  { apply Qlt_trans with (inject_Z (2 ^ 53)); [now rewrite <- Zlt_Qlt|].
    vm_compute. reflexivity. }
  lra.
Qed.

End DecimalFacts.

(** ** AMM Math *)

Module MathFacts.

Import Decimal DecimalFacts.
Local Open Scope Q_scope.

Lemma bp_nonzero : ~ inject_Z BASIS_POINTS == 0.
Proof. unfold BASIS_POINTS. intros H. discriminate H. Qed.

(** The slippage helpers have no failing path at all. *)
Lemma calculateMinOutput_returns (amount : Q) (slippageToleranceBp : Z) :
  MathUtils.calculateMinOutput amount slippageToleranceBp
  = Ok (sub amount (mul amount (round (inject_Z slippageToleranceBp / inject_Z BASIS_POINTS)))).
Proof.
  unfold MathUtils.calculateMinOutput. rewrite (div_Ok _ _ bp_nonzero). reflexivity.
Qed.

Lemma calculateMaxInput_returns (amount : Q) (slippageToleranceBp : Z) :
  MathUtils.calculateMaxInput amount slippageToleranceBp
  = Ok (add amount (mul amount (round (inject_Z slippageToleranceBp / inject_Z BASIS_POINTS)))).
Proof.
  unfold MathUtils.calculateMaxInput. rewrite (div_Ok _ _ bp_nonzero). reflexivity.
Qed.

End MathFacts.

(** C7: with a tolerance of 20000 basis points, above the 10000 that the
    claim makes a failure, [calculateMinOutput] returns the negative amount
    -1000 and [calculateMaxInput] returns 3000; neither call fails. *)
Theorem slippage_helpers_accept_excess_tolerance :
  MathUtils.calculateMinOutput (1000 # 1) 20000 = Ok (- 1000 # 1)%Q
  /\ MathUtils.calculateMaxInput (1000 # 1) 20000 = Ok (3000 # 1)%Q.
Proof. split; vm_compute; reflexivity. Qed.

(** C1, the claim as stated: for the input 10^12 on a pool with reserves 3
    and 1 and no fee, [getAmountOut] returns 0.999999999997 (the quotient
    rounded to 20 digits), which [getAmountIn] accepts, and the input it then
    asks for, 999999999998, is less than the 10^12 that was put in. *)
Lemma getAmountIn_below_input :
  MathUtils.getAmountOut (1000000000000 # 1) (3 # 1) (1 # 1) 0
  = Ok (999999999997 # 1000000000000)%Q
  /\ MathUtils.getAmountIn (999999999997 # 1000000000000) (3 # 1) (1 # 1) 0
     = Ok (999999999998 # 1)%Q
  /\ (999999999998 # 1 < 1000000000000 # 1)%Q.
Proof. repeat split; vm_compute; reflexivity. Qed.

(** C9: called on an array of two routes whose better one comes second,
    [findBestRoute] returns that route and leaves the caller's array with its
    two elements exchanged. *)
Theorem findBestRoute_reorders_routes :
  MathUtils.findBestRoute fst snd [ (1 # 1, 10); (2 # 1, 20) ] true
  = (Some (2 # 1, 20), [ (2 # 1, 20); (1 # 1, 10) ])
  /\ [ (2 # 1, 20); (1 # 1, 10) ] <> [ (1 # 1, 10); (2 # 1, 20) ].
Proof. split; [vm_compute; reflexivity | discriminate]. Qed.

(** ** Route Selector *)

Module JsArrayFacts.

Lemma insert_perm {T : Type} (compareFn : T -> T -> Z) (x : T) (l : list T) :
  Permutation (JsArray.insert compareFn x l) (x :: l).
Proof.
  induction l as [|y l IH]; simpl.
  - reflexivity.
  - destruct (compareFn x y <=? 0)%Z; [reflexivity|].
    rewrite IH. apply perm_swap.
Qed.

Lemma sort_perm {T : Type} (compareFn : T -> T -> Z) (l : list T) :
  Permutation (JsArray.sort compareFn l) l.
Proof.
  induction l as [|x l IH]; simpl.
  - reflexivity.
  - rewrite insert_perm. now constructor.
Qed.

Lemma sort_length {T : Type} (compareFn : T -> T -> Z) (l : list T) :
  List.length (JsArray.sort compareFn l) = List.length l.
Proof. apply Permutation_length, sort_perm. Qed.

Lemma slice_length {T : Type} (start stop : nat) (l : list T) :
  List.length (JsArray.slice start stop l)
  = Nat.min (stop - start) (List.length l - start).
Proof. unfold JsArray.slice. now rewrite length_firstn, length_skipn. Qed.

End JsArrayFacts.

(** An empty candidate set is answered with the no-route value, a non-empty
    one with the head of the sorted candidates and at most four of the routes
    that follow it. *)
Lemma selectRoutes_shape (allRoutes : list Route.t) :
  match RouterService.selectRoutes allRoutes with
  | None => allRoutes = []
  | Some response =>
      JsArray.sort RouterService.compareFn allRoutes
      = route response :: skipn 1 (JsArray.sort RouterService.compareFn allRoutes)
      /\ routes response
         = firstn 4 (skipn 1 (JsArray.sort RouterService.compareFn allRoutes))
      /\ List.length (routes response) = Nat.min 4 (List.length allRoutes - 1)
  end.
Proof.
  unfold RouterService.selectRoutes.
  destruct allRoutes as [|r l]; [reflexivity|].
  cbn [List.length Nat.eqb].
  pose proof (JsArrayFacts.sort_length RouterService.compareFn (r :: l)) as Hlen.
  destruct (JsArray.sort RouterService.compareFn (r :: l)) as [|best rest] eqn:Hsort.
  - discriminate Hlen.
  - cbn [route routes]. repeat split.
    unfold JsArray.slice. rewrite length_firstn, length_skipn, Hlen. reflexivity.
Qed.

(** [sortedRoutes.slice(1, 5)], which the source comments as "Top 5
    alternatives", keeps four: of seven candidates the selector returns the
    best one and the routes ranked second to fifth. *)
Lemma selectRoutes_keeps_four_alternatives :
  RouterService.selectRoutes sevenCandidates
  = Some {| route := sampleRoute (7 # 1) 10;
            routes := [ sampleRoute (6 # 1) 10; sampleRoute (5 # 1) 10;
                        sampleRoute (4 # 1) 10; sampleRoute (3 # 1) 10 ] |}
  /\ RouterService.selectRoutes [] = None.
Proof. split; vm_compute; reflexivity. Qed.

(** ** Price impact *)

Module ImpactFacts.

Import Decimal DecimalFacts.
Local Open Scope Q_scope.

Lemma reserves_guard_false (reserveIn reserveOut : Q) :
  0 < reserveIn -> 0 < reserveOut ->
  lte reserveIn 0 || lte reserveOut 0 = false.
Proof. intros Hin Hout. now rewrite !lte_false. Qed.

Lemma reserves_guard_true (reserveIn reserveOut : Q) :
  reserveIn <= 0 \/ reserveOut <= 0 ->
  lte reserveIn 0 || lte reserveOut 0 = true.
Proof.
  intros [H|H]; apply orb_true_iff; [left|right]; now apply Qle_bool_iff.
Qed.

(** The basis-point value computed in the last branch, before its
    conversion to a number, lies between 0 and 10000. *)
Lemma scaled_ratio_bounded (spotPrice executionPrice : Q) :
  round spotPrice == spotPrice -> 0 <= executionPrice -> executionPrice < spotPrice ->
  0 <= mul (round (sub spotPrice executionPrice / spotPrice)) (inject_Z BASIS_POINTS)
    <= inject_Z BASIS_POINTS.
Proof.
  intros Hfix Hexec Hlt.
  assert (Hspot : 0 < spotPrice) by lra.
  assert (Hdiff : 0 <= sub spotPrice executionPrice <= spotPrice).
  { unfold sub. split.
    - apply round_nonneg. lra.
    - rewrite <- Hfix at 2. apply round_mono. lra. }
  assert (Hratio : 0 <= round (sub spotPrice executionPrice / spotPrice) <= 1).
  { split.
    - apply round_nonneg. apply Qle_shift_div_l; [exact Hspot|]. lra.
    - rewrite <- (round_Z 1) by reflexivity. apply round_mono.
      apply Qle_shift_div_r; [exact Hspot|]. change (inject_Z 1) with 1. lra. }
  unfold mul, BASIS_POINTS. change (inject_Z 10000) with 10000. split.
  - apply round_nonneg. nra.
  - change 10000 with (inject_Z 10000) at 2.
    rewrite <- (round_Z 10000) by reflexivity. apply round_mono.
    change (inject_Z 10000) with 10000. nra.
Qed.

(** The two branches taken on positive reserves. *)
Lemma calculatePriceImpact_branches (amountIn amountOut reserveIn reserveOut : Q) :
  0 < reserveIn -> 0 < reserveOut -> ~ amountIn == 0 ->
  let result := MathUtils.calculatePriceImpact amountIn amountOut reserveIn reserveOut in
  let spotPrice := round (reserveOut / reserveIn) in
  let executionPrice := round (amountOut / amountIn) in
  (spotPrice <= executionPrice -> result = Ok 0%Z)
  /\ (executionPrice < spotPrice ->
      result
      = (asNumber <- toNumber
                       (mul (round (sub spotPrice executionPrice / spotPrice))
                            (inject_Z BASIS_POINTS)) ;;
         Ok (Math_floor asNumber))).
Proof.
  intros Hin Hout Hamount result spotPrice executionPrice.
  assert (Hspot : 0 < spotPrice).
  { apply round_positive. apply Qlt_shift_div_l; [exact Hin|]. lra. }
  unfold result, MathUtils.calculatePriceImpact.
  rewrite (reserves_guard_false _ _ Hin Hout).
  rewrite (div_Ok reserveOut reserveIn) by lra.
  rewrite (div_Ok amountOut amountIn) by exact Hamount.
  cbn [bind]. fold spotPrice executionPrice. unfold gte.
  split; intros Hcmp.
  - apply Qle_bool_iff in Hcmp. now rewrite Hcmp.
  - destruct (Qle_bool spotPrice executionPrice) eqn:Htest.
    { apply Qle_bool_iff in Htest. lra. }
    rewrite (div_Ok _ spotPrice) by lra. reflexivity.
Qed.

(** A positive [amountIn] and a non-negative [amountOut] give an impact
    between 0 and 10000 basis points. *)
Lemma calculatePriceImpact_in_range (amountIn amountOut reserveIn reserveOut : Q) :
  0 < amountIn -> 0 <= amountOut ->
  exists impact,
    MathUtils.calculatePriceImpact amountIn amountOut reserveIn reserveOut = Ok impact
    /\ (0 <= impact <= 10000)%Z.
Proof.
  intros Hamount Hout.
  destruct (Qlt_le_dec 0 reserveIn) as [Hrin|Hrin];
    [destruct (Qlt_le_dec 0 reserveOut) as [Hrout|Hrout]|].
  - destruct (calculatePriceImpact_branches amountIn amountOut reserveIn reserveOut
                Hrin Hrout ltac:(lra)) as [Hzero Hfloor].
    set (spotPrice := round (reserveOut / reserveIn)) in *.
    set (executionPrice := round (amountOut / amountIn)) in *.
    assert (Hexec : 0 <= executionPrice).
    { apply round_nonneg. apply Qle_shift_div_l; [exact Hamount|]. lra. }
    destruct (Qlt_le_dec executionPrice spotPrice) as [Hlt|Hge].
    + rewrite (Hfloor Hlt).
      destruct (scaled_ratio_bounded spotPrice executionPrice
                  (round_idempotent _) Hexec Hlt) as [Hlow Hhigh].
      destruct (toNumber_bounded _ 10000 Hlow Hhigh ltac:(reflexivity))
        as (v & Hv & Hv0 & Hv1).
      rewrite Hv. cbn [bind]. eexists. split; [reflexivity|].
      unfold Math_floor. split.
      * change 0%Z with (Qfloor 0). now apply Qfloor_resp_le.
      * change 10000%Z with (Qfloor (inject_Z 10000)). now apply Qfloor_resp_le.
    + exists 0%Z. split; [now apply Hzero | lia].
  - exists 10000%Z. split; [|lia].
    unfold MathUtils.calculatePriceImpact.
    rewrite (reserves_guard_true reserveIn reserveOut); [reflexivity|now right].
  - exists 10000%Z. split; [|lia].
    unfold MathUtils.calculatePriceImpact.
    rewrite (reserves_guard_true reserveIn reserveOut); [reflexivity|now left].
Qed.

(** The Pool Cache prices the output itself and then computes the impact as
    [MathUtils.calculatePriceImpact] does. *)
Lemma calculateOutput_nonneg (pool : Pool) (coinIn : string) (amountIn : Q) :
  0 < amountIn -> (0 <= feeRate pool <= 10000)%Z ->
  (exists message, calculateOutput pool coinIn amountIn = Throw message)
  \/ (exists amountOut, calculateOutput pool coinIn amountIn = Ok amountOut
                        /\ 0 <= amountOut).
Proof.
  intros Hamount Hfee. unfold calculateOutput.
  set (reserveIn := if String.eqb (type (coinA pool)) coinIn
                    then reserveA pool else reserveB pool).
  set (reserveOut := if String.eqb (type (coinA pool)) coinIn
                     then reserveB pool else reserveA pool).
  destruct (lte amountIn 0 || lte reserveIn 0 || lte reserveOut 0) eqn:Hguard.
  { left. eexists. reflexivity. }
  right.
  apply orb_false_iff in Hguard. destruct Hguard as [Hguard Hrout].
  apply orb_false_iff in Hguard. destruct Hguard as [_ Hrin].
  assert (Hin : 0 < reserveIn).
  { apply Qnot_le_lt. intros Hle. apply Qle_bool_iff in Hle. unfold lte in Hrin. congruence. }
  assert (Hout : 0 < reserveOut).
  { apply Qnot_le_lt. intros Hle. apply Qle_bool_iff in Hle. unfold lte in Hrout. congruence. }
  rewrite div_Ok by discriminate. cbn [bind].
  set (rate := round (inject_Z (feeRate pool) / 10000)).
  assert (Hrate : rate <= 1).
  { unfold rate. rewrite <- (round_Z 1) by reflexivity. apply round_mono.
    apply Qle_shift_div_r; [reflexivity|].
    change (inject_Z 1 * 10000) with (inject_Z 10000). rewrite <- Zle_Qle. lia. }
  assert (Hkeep : 0 <= sub 1 rate) by (apply round_nonneg; lra).
  assert (Hafter : 0 <= mul amountIn (sub 1 rate)) by (apply round_nonneg; nra).
  assert (Hnum : 0 <= mul (mul amountIn (sub 1 rate)) reserveOut)
    by (apply round_nonneg; nra).
  assert (Hden : 0 < add reserveIn (mul amountIn (sub 1 rate)))
    by (apply round_positive; lra).
  rewrite div_Ok by lra.
  eexists. split; [reflexivity|].
  apply round_nonneg. apply Qle_shift_div_l; [exact Hden | lra].
Qed.

Lemma poolService_calculatePriceImpact (pool : Pool) (coinIn : string) (amountIn : Q) :
  let isA2B := String.eqb (type (coinA pool)) coinIn in
  let reserveIn := if isA2B then reserveA pool else reserveB pool in
  let reserveOut := if isA2B then reserveB pool else reserveA pool in
  0 < reserveIn -> 0 < reserveOut ->
  calculatePriceImpact pool coinIn amountIn
  = (amountOut <- calculateOutput pool coinIn amountIn ;;
     MathUtils.calculatePriceImpact amountIn amountOut reserveIn reserveOut).
Proof.
  intros isA2B reserveIn reserveOut Hin Hout.
  unfold calculatePriceImpact, MathUtils.calculatePriceImpact.
  fold isA2B. fold reserveIn reserveOut.
  rewrite (reserves_guard_false _ _ Hin Hout).
  rewrite (div_Ok reserveOut reserveIn) by lra. cbn [bind].
  destruct (calculateOutput pool coinIn amountIn); reflexivity.
Qed.

(** The impact the Pool Cache reports for a positive amount on a pool with a
    fee of at most 100% lies between 0 and 10000 basis points. *)
Lemma poolService_calculatePriceImpact_in_range
  (pool : Pool) (coinIn : string) (amountIn : Q) :
  0 < amountIn -> (0 <= feeRate pool <= 10000)%Z ->
  exists impact,
    calculatePriceImpact pool coinIn amountIn = Ok impact /\ (0 <= impact <= 10000)%Z.
Proof.
  intros Hamount Hfee.
  set (reserveIn := if String.eqb (type (coinA pool)) coinIn
                    then reserveA pool else reserveB pool).
  set (reserveOut := if String.eqb (type (coinA pool)) coinIn
                     then reserveB pool else reserveA pool).
  destruct (Qlt_le_dec 0 reserveIn) as [Hrin|Hrin];
    [destruct (Qlt_le_dec 0 reserveOut) as [Hrout|Hrout]|].
  - rewrite (poolService_calculatePriceImpact pool coinIn amountIn Hrin Hrout).
    destruct (calculateOutput_nonneg pool coinIn amountIn Hamount Hfee)
      as [[message Hthrow]|(amountOut & Hok & Hnonneg)].
    + exfalso. unfold calculateOutput in Hthrow.
      fold reserveIn reserveOut in Hthrow.
      rewrite !lte_false in Hthrow by assumption. cbn [orb] in Hthrow.
      rewrite div_Ok in Hthrow by discriminate. cbn [bind] in Hthrow.
      unfold div in Hthrow.
      destruct (Qeq_bool _ 0) in Hthrow; discriminate Hthrow.
    + rewrite Hok. cbn [bind].
      now apply calculatePriceImpact_in_range.
  - exists 10000%Z. split; [|lia]. unfold calculatePriceImpact.
    fold reserveIn reserveOut.
    rewrite (reserves_guard_true reserveIn reserveOut); [reflexivity|now right].
  - exists 10000%Z. split; [|lia]. unfold calculatePriceImpact.
    fold reserveIn reserveOut.
    rewrite (reserves_guard_true reserveIn reserveOut); [reflexivity|now left].
Qed.

End ImpactFacts.

(** C3 (as amended): [calculatePriceImpact] returns 10000 when a reserve is
    zero or negative; otherwise, with the rounded quotients
    [spotPrice = reserveOut / reserveIn] and
    [executionPrice = amountOut / amountIn] (for a non-zero [amountIn]), it
    returns 0 when [executionPrice >= spotPrice] and else the floor of the
    number nearest to [((spotPrice - executionPrice) / spotPrice) * 10000],
    each operation rounded.  Nothing clamps the result: it lies in
    [0, 10000] whenever [amountIn > 0] and [amountOut >= 0]. *)
Theorem calculatePriceImpact_spec (amountIn amountOut reserveIn reserveOut : Q) :
  let result := MathUtils.calculatePriceImpact amountIn amountOut reserveIn reserveOut in
  let spotPrice := Decimal.round (reserveOut / reserveIn) in
  let executionPrice := Decimal.round (amountOut / amountIn) in
  ((reserveIn <= 0 \/ reserveOut <= 0)%Q -> result = Ok 10000)
  /\ ((0 < reserveIn)%Q -> (0 < reserveOut)%Q -> ~ (amountIn == 0)%Q ->
      ((spotPrice <= executionPrice)%Q -> result = Ok 0)
      /\ ((executionPrice < spotPrice)%Q ->
          result
          = (asNumber <- Decimal.toNumber
                           (Decimal.mul
                              (Decimal.round
                                 (Decimal.sub spotPrice executionPrice / spotPrice)%Q)
                              (inject_Z BASIS_POINTS)) ;;
             Ok (Math_floor asNumber))))
  /\ ((0 < amountIn)%Q -> (0 <= amountOut)%Q ->
      exists impact, result = Ok impact /\ 0 <= impact <= 10000).
Proof.
  intros result spotPrice executionPrice. split; [|split].
  - intros Hreserve. unfold result, MathUtils.calculatePriceImpact.
    now rewrite (ImpactFacts.reserves_guard_true _ _ Hreserve).
  - intros Hin Hout Hamount.
    exact (ImpactFacts.calculatePriceImpact_branches amountIn amountOut reserveIn reserveOut
             Hin Hout Hamount).
  - intros Hamount Hout. now apply ImpactFacts.calculatePriceImpact_in_range.
Qed.

(** C3, the claim as stated: a negative [amountOut] gives an impact of 20000
    basis points, outside [0, 10000]. *)
Lemma calculatePriceImpact_exceeds_range :
  MathUtils.calculatePriceImpact (1 # 1) (- 1 # 1) (1 # 1) (1 # 1) = Ok 20000
  /\ ~ (0 <= 20000 <= 10000).
Proof. split; [vm_compute; reflexivity | lia]. Qed.

(** ** Constant-product output *)

Module AmountOutFacts.

Import Decimal DecimalFacts.
Local Open Scope Q_scope.

Lemma feeRate_representable (feeRateBp : Z) :
  (0 <= feeRateBp < 10000)%Z ->
  round (inject_Z feeRateBp / inject_Z BASIS_POINTS)
  == inject_Z feeRateBp / inject_Z BASIS_POINTS.
Proof.
  intros Hfee. destruct (Z.eq_dec feeRateBp 0) as [->|Hnonzero].
  - reflexivity.
  - apply (round_representable _ feeRateBp (-4)); [|lia].
    unfold BASIS_POINTS, Qdiv. apply Qmult_comp; reflexivity.
Qed.

Lemma exactAfterFee_pos (amountIn : Q) (feeRateBp : Z) :
  0 < amountIn -> (0 <= feeRateBp < 10000)%Z -> 0 < exactAfterFee amountIn feeRateBp.
Proof.
  intros Hamount Hfee. unfold exactAfterFee, BASIS_POINTS.
  assert (Hrate : inject_Z feeRateBp / inject_Z 10000 < 1).
  { apply Qlt_shift_div_r; [reflexivity|].
    change (1 * inject_Z 10000) with (inject_Z 10000). rewrite <- Zlt_Qlt. lia. }
  nra.
Qed.

Lemma exactAfterFee_mono (x1 x2 : Q) (feeRateBp : Z) :
  x1 < x2 -> (0 <= feeRateBp < 10000)%Z ->
  exactAfterFee x1 feeRateBp < exactAfterFee x2 feeRateBp.
Proof.
  intros Hlt Hfee. unfold exactAfterFee, BASIS_POINTS.
  assert (Hrate : inject_Z feeRateBp / inject_Z 10000 < 1).
  { apply Qlt_shift_div_r; [reflexivity|].
    change (1 * inject_Z 10000) with (inject_Z 10000). rewrite <- Zlt_Qlt. lia. }
  nra.
Qed.

(** When the intermediate results are exact, [getAmountOut] is the exact
    output rounded once. *)
Lemma getAmountOut_exact (amountIn reserveIn reserveOut : Q) (feeRateBp : Z) :
  0 < amountIn -> 0 < reserveIn -> 0 < reserveOut -> (0 <= feeRateBp < 10000)%Z ->
  exactIntermediates amountIn reserveIn reserveOut feeRateBp ->
  MathUtils.getAmountOut amountIn reserveIn reserveOut feeRateBp
  = Ok (round (exactAmountOut amountIn reserveIn reserveOut feeRateBp)).
Proof.
  intros Hamount Hin Hout Hfee (Hexfee & Hexafter & Hexnum & Hexden).
  unfold representable in *.
  pose proof (exactAfterFee_pos amountIn feeRateBp Hamount Hfee) as Hafter.
  unfold MathUtils.getAmountOut, MathUtils.amountAfterFee, MathUtils.calculateFee.
  rewrite !lte_false by assumption. cbn [orb].
  rewrite (div_Ok _ _ MathFacts.bp_nonzero). cbn [bind].
  set (after := sub amountIn (mul amountIn (round (inject_Z feeRateBp / inject_Z BASIS_POINTS)))).
  assert (Hfeeval : mul amountIn (round (inject_Z feeRateBp / inject_Z BASIS_POINTS))
                    == amountIn * (inject_Z feeRateBp / inject_Z BASIS_POINTS)).
  { unfold mul.
    rewrite (round_proper _ (amountIn * (inject_Z feeRateBp / inject_Z BASIS_POINTS)));
      [exact Hexfee|].
    now rewrite (feeRate_representable feeRateBp Hfee). }
  assert (Hafterval : after == exactAfterFee amountIn feeRateBp).
  { unfold after, sub.
    rewrite (round_proper _ (exactAfterFee amountIn feeRateBp)); [exact Hexafter|].
    unfold exactAfterFee. now rewrite Hfeeval. }
  assert (Hnum : mul after reserveOut == exactAfterFee amountIn feeRateBp * reserveOut).
  { unfold mul.
    rewrite (round_proper _ (exactAfterFee amountIn feeRateBp * reserveOut));
      [exact Hexnum|].
    now rewrite Hafterval. }
  assert (Hden : add reserveIn after == reserveIn + exactAfterFee amountIn feeRateBp).
  { unfold add.
    rewrite (round_proper _ (reserveIn + exactAfterFee amountIn feeRateBp));
      [exact Hexden|].
    now rewrite Hafterval. }
  rewrite div_Ok by (rewrite Hden; lra).
  f_equal. apply round_proper. unfold exactAmountOut. now rewrite Hnum, Hden.
Qed.

Lemma exactAmountOut_below_reserve (amountIn reserveIn reserveOut : Q) (feeRateBp : Z) :
  0 < amountIn -> 0 < reserveIn -> 0 < reserveOut -> (0 <= feeRateBp < 10000)%Z ->
  0 < exactAmountOut amountIn reserveIn reserveOut feeRateBp < reserveOut.
Proof.
  intros Hamount Hin Hout Hfee.
  pose proof (exactAfterFee_pos amountIn feeRateBp Hamount Hfee) as Hafter.
  unfold exactAmountOut. split.
  - apply Qlt_shift_div_l; [lra | nra].
  - apply Qlt_shift_div_r; [lra | nra].
Qed.

Lemma exactAmountOut_increasing (x1 x2 reserveIn reserveOut : Q) (feeRateBp : Z) :
  0 < x1 -> x1 < x2 -> 0 < reserveIn -> 0 < reserveOut -> (0 <= feeRateBp < 10000)%Z ->
  exactAmountOut x1 reserveIn reserveOut feeRateBp
  < exactAmountOut x2 reserveIn reserveOut feeRateBp.
Proof.
  intros Hx1 Hlt Hin Hout Hfee.
  pose proof (exactAfterFee_pos x1 feeRateBp Hx1 Hfee) as Ha1.
  pose proof (exactAfterFee_mono x1 x2 feeRateBp Hlt Hfee) as Ha.
  unfold exactAmountOut.
  set (a1 := exactAfterFee x1 feeRateBp) in *.
  set (a2 := exactAfterFee x2 feeRateBp) in *.
  apply Qlt_shift_div_l; [lra|].
  assert (Heq : a1 * reserveOut / (reserveIn + a1) * (reserveIn + a2)
                == a1 * reserveOut * (reserveIn + a2) / (reserveIn + a1))
    by (field; lra).
  rewrite Heq. apply Qlt_shift_div_r; [lra|].
  assert (Hprod : 0 < reserveOut * reserveIn) by (apply Qmult_lt_0_compat; assumption).
  assert (Hgap : 0 < (a2 - a1) * (reserveOut * reserveIn))
    by (apply Qmult_lt_0_compat; lra).
  lra.
Qed.

End AmountOutFacts.

(** At any magnitude: on valid inputs for which the fee, the amount after
    fee, the numerator and the denominator need no rounding, and a
    [reserveOut] of at most 20 significant digits, [getAmountOut] returns a
    positive amount that is at most [reserveOut], and it is non-decreasing in
    [amountIn]. *)
Theorem getAmountOut_bounded_and_monotone
  (amountIn1 amountIn2 reserveIn reserveOut : Q) (feeRateBp : Z) :
  (0 < amountIn1)%Q -> (amountIn1 < amountIn2)%Q ->
  (0 < reserveIn)%Q -> (0 < reserveOut)%Q -> 0 <= feeRateBp < 10000 ->
  representable reserveOut ->
  exactIntermediates amountIn1 reserveIn reserveOut feeRateBp ->
  exactIntermediates amountIn2 reserveIn reserveOut feeRateBp ->
  exists out1 out2,
    MathUtils.getAmountOut amountIn1 reserveIn reserveOut feeRateBp = Ok out1
    /\ MathUtils.getAmountOut amountIn2 reserveIn reserveOut feeRateBp = Ok out2
    /\ (0 < out1)%Q /\ (out1 <= out2)%Q /\ (out2 <= reserveOut)%Q.
Proof.
  intros Hx1 Hlt Hin Hout Hfee Hreserve Hexact1 Hexact2.
  assert (Hx2 : (0 < amountIn2)%Q) by lra.
  exists (Decimal.round (exactAmountOut amountIn1 reserveIn reserveOut feeRateBp)),
         (Decimal.round (exactAmountOut amountIn2 reserveIn reserveOut feeRateBp)).
  pose proof (AmountOutFacts.exactAmountOut_below_reserve amountIn1 reserveIn reserveOut
                feeRateBp Hx1 Hin Hout Hfee) as [Hpos1 _].
  pose proof (AmountOutFacts.exactAmountOut_below_reserve amountIn2 reserveIn reserveOut
                feeRateBp Hx2 Hin Hout Hfee) as [_ Hbelow2].
  pose proof (AmountOutFacts.exactAmountOut_increasing amountIn1 amountIn2 reserveIn
                reserveOut feeRateBp Hx1 Hlt Hin Hout Hfee) as Hincr.
  repeat split.
  - now apply AmountOutFacts.getAmountOut_exact.
  - now apply AmountOutFacts.getAmountOut_exact.
  - now apply DecimalFacts.round_positive.
  - apply DecimalFacts.round_mono. lra.
  - unfold representable in Hreserve.
    apply Qle_trans with (Decimal.round reserveOut).
    + apply DecimalFacts.round_mono. lra.
    + rewrite Hreserve. apply Qle_refl.
Qed.

(** C2, the claim as stated.  Two amounts one unit apart have the same
    output (every intermediate result being exact); an output can equal
    [reserveOut]; and when the numerator is rounded, a larger amount can have
    a smaller output. *)
Lemma getAmountOut_not_strictly_increasing :
  MathUtils.getAmountOut (100000000000 # 1) (1 # 1) (1 # 1) 0
  = MathUtils.getAmountOut (100000000001 # 1) (1 # 1) (1 # 1) 0
  /\ MathUtils.getAmountOut (90000000000000000000 # 1) (1 # 1) (20000000000000000000 # 1) 0
     = Ok (20000000000000000000 # 1)%Q
  /\ MathUtils.getAmountOut (18000000000000000000 # 1) (1 # 1) (5555555555555555556 # 1) 0
     = Ok (27777777777777777779 # 5)%Q
  /\ MathUtils.getAmountOut (18000000000000000001 # 1) (1 # 1) (5555555555555555556 # 1) 0
     = Ok (11111111111111111111 # 2)%Q
  /\ (11111111111111111111 # 2 < 27777777777777777779 # 5)%Q.
Proof. repeat split; vm_compute; reflexivity. Qed.

(** ** Required input for a quoted output *)

Module RoundTripFacts.

Import Decimal DecimalFacts.
Local Open Scope Q_scope.

Lemma feeDivisor_pos (feeRateBp : Z) :
  (0 <= feeRateBp < 10000)%Z -> 0 < inject_Z (BASIS_POINTS - feeRateBp).
Proof.
  intros Hfee. change 0 with (inject_Z 0). rewrite <- Zlt_Qlt. unfold BASIS_POINTS. lia.
Qed.

(** The product formula inverts itself in exact arithmetic. *)
Lemma inverse_of_exactAmountOut (amountIn reserveIn reserveOut : Q) (feeRateBp : Z) :
  0 < amountIn -> 0 < reserveIn -> 0 < reserveOut -> (0 <= feeRateBp < 10000)%Z ->
  reserveIn * exactAmountOut amountIn reserveIn reserveOut feeRateBp
  / (reserveOut - exactAmountOut amountIn reserveIn reserveOut feeRateBp)
  == exactAfterFee amountIn feeRateBp.
Proof.
  intros Hamount Hin Hout Hfee.
  pose proof (AmountOutFacts.exactAfterFee_pos amountIn feeRateBp Hamount Hfee) as Hafter.
  unfold exactAmountOut.
  set (a := exactAfterFee amountIn feeRateBp) in *.
  field. split; [lra|].
  assert (0 < reserveOut * reserveIn) by (apply Qmult_lt_0_compat; assumption).
  lra.
Qed.

Lemma grossed_up (amountIn : Q) (feeRateBp : Z) :
  (0 <= feeRateBp < 10000)%Z ->
  exactAfterFee amountIn feeRateBp * inject_Z BASIS_POINTS
  / inject_Z (BASIS_POINTS - feeRateBp)
  == amountIn.
Proof.
  intros Hfee. pose proof (feeDivisor_pos feeRateBp Hfee) as Hdiv.
  assert (Hsub : inject_Z (BASIS_POINTS - feeRateBp) == 10000 - inject_Z feeRateBp).
  { unfold BASIS_POINTS, Z.sub. rewrite inject_Z_plus, inject_Z_opp. reflexivity. }
  rewrite Hsub in *. unfold exactAfterFee, BASIS_POINTS.
  change (inject_Z 10000) with 10000. field. lra.
Qed.

Lemma representable_times_bp (q : Q) :
  0 < q -> representable q -> representable (q * inject_Z BASIS_POINTS).
Proof.
  intros Hpos Hq. unfold representable in *.
  change (inject_Z BASIS_POINTS) with (10 ^ 4).
  now rewrite (round_shift q 4 Hpos), Hq.
Qed.

End RoundTripFacts.

(** At any magnitude: for a valid input of at most 20 significant digits on
    which [getAmountOut] computes the exact output of the formula, and on
    which the numerator and the denominator of [getAmountIn] are exact,
    [getAmountIn] accepts that output and asks for at least the original
    input. *)
Theorem getAmountIn_covers_input_when_exact
  (amountIn reserveIn reserveOut : Q) (feeRateBp : Z) :
  (0 < amountIn)%Q -> (0 < reserveIn)%Q -> (0 < reserveOut)%Q -> 0 <= feeRateBp < 10000 ->
  exactRoundTrip amountIn reserveIn reserveOut feeRateBp ->
  exists amountOut required,
    MathUtils.getAmountOut amountIn reserveIn reserveOut feeRateBp = Ok amountOut
    /\ MathUtils.getAmountIn amountOut reserveIn reserveOut feeRateBp = Ok required
    /\ (amountIn <= required)%Q.
Proof.
  intros Hamount Hin Hout Hfee (Hexin & Hexact & Hexout & Hexnum & Hexden).
  pose proof (AmountOutFacts.getAmountOut_exact amountIn reserveIn reserveOut feeRateBp
                Hamount Hin Hout Hfee Hexact) as Hquote.
  pose proof (AmountOutFacts.exactAmountOut_below_reserve amountIn reserveIn reserveOut
                feeRateBp Hamount Hin Hout Hfee) as [Hpos Hbelow].
  pose proof (AmountOutFacts.exactAfterFee_pos amountIn feeRateBp Hamount Hfee) as Hafter.
  pose proof (RoundTripFacts.feeDivisor_pos feeRateBp Hfee) as Hdivisor.
  destruct Hexact as (_ & Hexafter & _ & _).
  unfold representable in *.
  set (exact := exactAmountOut amountIn reserveIn reserveOut feeRateBp) in *.
  set (after := exactAfterFee amountIn feeRateBp) in *.
  exists (Decimal.round exact). eexists. split; [exact Hquote|].
  unfold MathUtils.getAmountIn.
  rewrite !DecimalFacts.lte_false by (rewrite ?Hexout; assumption). cbn [orb].
  assert (Hgte : Decimal.gte (Decimal.round exact) reserveOut = false).
  { unfold Decimal.gte. destruct (Qle_bool reserveOut (Decimal.round exact)) eqn:Htest;
      [|reflexivity].
    apply Qle_bool_iff in Htest. rewrite Hexout in Htest. lra. }
  rewrite Hgte.
  assert (Hnum : (Decimal.mul reserveIn (Decimal.round exact) == reserveIn * exact)%Q).
  { unfold Decimal.mul.
    rewrite (DecimalFacts.round_proper _ (reserveIn * exact)%Q); [exact Hexnum|].
    now rewrite Hexout. }
  assert (Hden : (Decimal.sub reserveOut (Decimal.round exact) == reserveOut - exact)%Q).
  { unfold Decimal.sub.
    rewrite (DecimalFacts.round_proper _ (reserveOut - exact)%Q); [exact Hexden|].
    now rewrite Hexout. }
  rewrite DecimalFacts.div_Ok by (rewrite Hden; lra). cbn [bind].
  assert (Hquotient :
            (Decimal.round (Decimal.mul reserveIn (Decimal.round exact)
                            / Decimal.sub reserveOut (Decimal.round exact)) == after)%Q).
  { rewrite (DecimalFacts.round_proper _ after); [exact Hexafter|].
    rewrite Hnum, Hden.
    now apply RoundTripFacts.inverse_of_exactAmountOut. }
  set (quotient := Decimal.round (Decimal.mul reserveIn (Decimal.round exact)
                                  / Decimal.sub reserveOut (Decimal.round exact))%Q) in *.
  rewrite DecimalFacts.div_Ok by lra.
  split; [reflexivity|].
  assert (Hplus : (after <= Decimal.add quotient 1)%Q).
  { unfold Decimal.add. apply Qle_trans with (Decimal.round after).
    - rewrite Hexafter. apply Qle_refl.
    - apply DecimalFacts.round_mono. lra. }
  assert (Htimes : (after * inject_Z BASIS_POINTS
                    <= Decimal.mul (Decimal.add quotient 1) (inject_Z BASIS_POINTS))%Q).
  { pose proof (RoundTripFacts.representable_times_bp after Hafter Hexafter) as Hbp.
    unfold representable in Hbp. unfold Decimal.mul.
    apply Qle_trans with (Decimal.round (after * inject_Z BASIS_POINTS)).
    - rewrite Hbp. apply Qle_refl.
    - apply DecimalFacts.round_mono.
      apply Qmult_le_compat_r; [exact Hplus | discriminate]. }
  apply Qle_trans with (Decimal.round amountIn).
  - rewrite Hexin. apply Qle_refl.
  - apply DecimalFacts.round_mono.
    apply Qle_trans with (after * inject_Z BASIS_POINTS
                          / inject_Z (BASIS_POINTS - feeRateBp))%Q.
    + unfold after. rewrite (RoundTripFacts.grossed_up amountIn feeRateBp Hfee).
      apply Qle_refl.
    + apply Qmult_le_compat_r; [exact Htimes|].
      apply Qlt_le_weak, Qinv_lt_0_compat, Hdivisor.
Qed.

Lemma getAmountIn_covers_input_when_exact_witness :
  exists amountOut required,
    MathUtils.getAmountOut (100 # 1) (100 # 1) (200 # 1) 0 = Ok amountOut
    /\ MathUtils.getAmountIn amountOut (100 # 1) (200 # 1) 0 = Ok required
    /\ (100 # 1 <= required)%Q.
Proof.
  apply (getAmountIn_covers_input_when_exact (100 # 1) (100 # 1) (200 # 1) 0).
  - reflexivity.
  - reflexivity.
  - reflexivity.
  - lia.
  - repeat split; vm_compute; reflexivity.
Defined.

Lemma getAmountOut_bounded_and_monotone_witness :
  exists out1 out2,
    MathUtils.getAmountOut (100 # 1) (1000 # 1) (2000 # 1) 30 = Ok out1
    /\ MathUtils.getAmountOut (200 # 1) (1000 # 1) (2000 # 1) 30 = Ok out2
    /\ (0 < out1)%Q /\ (out1 <= out2)%Q /\ (out2 <= 2000 # 1)%Q.
Proof.
  apply (getAmountOut_bounded_and_monotone (100 # 1) (200 # 1) (1000 # 1) (2000 # 1) 30).
  - reflexivity.
  - reflexivity.
  - reflexivity.
  - reflexivity.
  - lia.
  - vm_compute. reflexivity.
  - repeat split; vm_compute; reflexivity.
  - repeat split; vm_compute; reflexivity.
Defined.

(** ** Rounding error of the quote *)

Module ErrorFacts.

Import Decimal DecimalFacts.
Local Open Scope Q_scope.

Local Notation "'u'" := unitRoundoff.

Lemma feeShare_bounds (amountIn : Q) (feeRateBp : Z) :
  0 < amountIn -> (0 <= feeRateBp < 10000)%Z ->
  0 <= amountIn * (inject_Z feeRateBp / inject_Z BASIS_POINTS)
  /\ amountIn * (inject_Z feeRateBp / inject_Z BASIS_POINTS) <= amountIn * (9999 # 10000).
Proof.
  intros Hamount Hfee. unfold BASIS_POINTS.
  assert (Hlow : 0 <= inject_Z feeRateBp / inject_Z 10000).
  { apply Qle_shift_div_l; [reflexivity|].
    change (0 * inject_Z 10000) with (inject_Z 0). rewrite <- Zle_Qle. lia. }
  assert (Hhigh : inject_Z feeRateBp / inject_Z 10000 <= 9999 # 10000).
  { apply Qle_shift_div_r; [reflexivity|].
    apply Qle_trans with (inject_Z 9999); [rewrite <- Zle_Qle; lia|].
    vm_compute. discriminate. }
  split.
  - apply Qmult_le_0_compat; lra.
  - apply Qmult_le_l; assumption.
Qed.

(** The rounded amount after fee is within a few units of roundoff of the
    exact one, relative to the amount put in. *)
Lemma afterFee_bounds (amountIn : Q) (feeRateBp : Z) :
  0 < amountIn -> (0 <= feeRateBp < 10000)%Z ->
  exactAfterFee amountIn feeRateBp - 2 * u * amountIn <= afterFee amountIn feeRateBp
  /\ afterFee amountIn feeRateBp <= exactAfterFee amountIn feeRateBp + 3 * u * amountIn
  /\ 0 < afterFee amountIn feeRateBp.
Proof.
  intros Hamount Hfee.
  destruct (feeShare_bounds amountIn feeRateBp Hamount Hfee) as [Hshare0 Hshare1].
  unfold afterFee, exactAfterFee, sub, mul.
  rewrite (round_proper (amountIn * round (inject_Z feeRateBp / inject_Z BASIS_POINTS))
             (amountIn * (inject_Z feeRateBp / inject_Z BASIS_POINTS)))
    by (now rewrite (AmountOutFacts.feeRate_representable feeRateBp Hfee)).
  set (share := amountIn * (inject_Z feeRateBp / inject_Z BASIS_POINTS)) in *.
  destruct (round_relative share Hshare0) as [Hfee0 Hfee1].
  set (fee := round share) in *.
  unfold unitRoundoff in *.
  assert (Hrest : 0 <= amountIn - fee) by lra.
  destruct (round_relative (amountIn - fee) Hrest) as [Hrest0 Hrest1].
  unfold unitRoundoff in *.
  repeat split; lra.
Qed.

Lemma getAmountOut_quoted (amountIn reserveIn reserveOut : Q) (feeRateBp : Z) :
  0 < amountIn -> 0 < reserveIn -> 0 < reserveOut -> (0 <= feeRateBp < 10000)%Z ->
  MathUtils.getAmountOut amountIn reserveIn reserveOut feeRateBp
  = Ok (quoted amountIn reserveIn reserveOut feeRateBp).
Proof.
  intros Hamount Hin Hout Hfee.
  destruct (afterFee_bounds amountIn feeRateBp Hamount Hfee) as (_ & _ & Hafter).
  unfold MathUtils.getAmountOut, MathUtils.amountAfterFee, MathUtils.calculateFee.
  rewrite !lte_false by assumption. cbn [orb].
  rewrite (div_Ok _ _ MathFacts.bp_nonzero). cbn [bind].
  fold (afterFee amountIn feeRateBp).
  assert (Hden : 0 < add reserveIn (afterFee amountIn feeRateBp))
    by (apply round_positive; lra).
  rewrite div_Ok by lra. reflexivity.
Qed.

(** The quote against the exact quotient of the rounded amount after fee,
    with the divisions cleared. *)
Lemma quoted_bounds (amountIn reserveIn reserveOut : Q) (feeRateBp : Z) :
  0 < amountIn -> 0 < reserveIn -> 0 < reserveOut -> (0 <= feeRateBp < 10000)%Z ->
  let after := afterFee amountIn feeRateBp in
  let out := quoted amountIn reserveIn reserveOut feeRateBp in
  0 < out
  /\ (1 - u) * (1 - u) * (after * reserveOut) <= out * ((reserveIn + after) * (1 + u))
  /\ out * ((reserveIn + after) * (1 - u)) <= (1 + u) * (1 + u) * (after * reserveOut).
Proof.
  intros Hamount Hin Hout Hfee after out.
  destruct (afterFee_bounds amountIn feeRateBp Hamount Hfee) as (_ & _ & Hafter).
  fold after in Hafter.
  assert (Hprod : 0 < after * reserveOut) by (apply Qmult_lt_0_compat; assumption).
  assert (Hsum : 0 < reserveIn + after) by lra.
  destruct (round_relative (after * reserveOut) ltac:(lra)) as [Hnum0 Hnum1].
  destruct (round_relative (reserveIn + after) ltac:(lra)) as [Hden0 Hden1].
  pose proof (round_positive _ Hprod) as Hnum.
  pose proof (round_positive _ Hsum) as Hden.
  unfold out, quoted. fold after. unfold mul, add.
  set (num := round (after * reserveOut)) in *.
  set (den := round (reserveIn + after)) in *.
  assert (Hquot : 0 < num / den) by (apply Qlt_shift_div_l; lra).
  destruct (round_relative (num / den) ltac:(lra)) as [Hout0 Hout1].
  pose proof (round_positive _ Hquot) as Hpos.
  set (y := round (num / den)) in *.
  assert (Hcancel : num / den * den == num) by (field; lra).
  assert (Hy0 : num / den * (1 - u) * den <= y * den)
    by (apply Qmult_le_compat_r; lra).
  assert (Hy1 : y * den <= num / den * (1 + u) * den)
    by (apply Qmult_le_compat_r; lra).
  assert (Hyd0 : y * den <= y * ((reserveIn + after) * (1 + u)))
    by (apply Qmult_le_l; lra).
  assert (Hyd1 : y * ((reserveIn + after) * (1 - u)) <= y * den)
    by (apply Qmult_le_l; lra).
  assert (Hn0 : (1 - u) * (after * reserveOut * (1 - u)) <= (1 - u) * num)
    by (apply Qmult_le_l; [reflexivity | lra]).
  assert (Hn1 : (1 + u) * num <= (1 + u) * (after * reserveOut * (1 + u)))
    by (apply Qmult_le_l; [reflexivity | lra]).
  split; [exact Hpos|]. split.
  - apply Qle_trans with (y * den); [|exact Hyd0].
    apply Qle_trans with ((1 - u) * num); [|].
    + eapply Qle_trans; [|exact Hn0]. apply Qle_lteq. right. ring.
    + eapply Qle_trans; [|exact Hy0]. apply Qle_lteq. right. rewrite <- Hcancel at 1. ring.
  - apply Qle_trans with (y * den); [exact Hyd1|].
    apply Qle_trans with ((1 + u) * num).
    + eapply Qle_trans; [exact Hy1|]. apply Qle_lteq. right. rewrite <- Hcancel at 2. ring.
    + eapply Qle_trans; [exact Hn1|]. apply Qle_lteq. right. ring.
Qed.

Lemma exactAfterFee_le (amountIn : Q) (feeRateBp : Z) :
  0 < amountIn -> (0 <= feeRateBp < 10000)%Z ->
  amountIn * (1 # 10000) <= exactAfterFee amountIn feeRateBp
  /\ exactAfterFee amountIn feeRateBp <= amountIn.
Proof.
  intros Hamount Hfee.
  destruct (feeShare_bounds amountIn feeRateBp Hamount Hfee) as [Hshare0 Hshare1].
  unfold exactAfterFee. split; lra.
Qed.

(** Amounts one unit apart stay a ten-thousandth apart after the fee. *)
Lemma exactAfterFee_gap (x1 x2 : Q) (feeRateBp : Z) :
  x1 + 1 <= x2 -> (0 <= feeRateBp < 10000)%Z ->
  exactAfterFee x1 feeRateBp + (1 # 10000) <= exactAfterFee x2 feeRateBp.
Proof.
  intros Hgap Hfee. unfold exactAfterFee, BASIS_POINTS.
  assert (Hkeep : 1 # 10000 <= 1 - inject_Z feeRateBp / inject_Z 10000).
  { assert (Hhigh : inject_Z feeRateBp / inject_Z 10000 <= 9999 # 10000).
    { apply Qle_shift_div_r; [reflexivity|].
      apply Qle_trans with (inject_Z 9999); [rewrite <- Zle_Qle; lia|].
      vm_compute. discriminate. }
    lra. }
  assert (Hprod : 1 * (1 # 10000)
                  <= (x2 - x1) * (1 - inject_Z feeRateBp / inject_Z 10000)).
  { apply Qmult_le_compat_nonneg; split; lra. }
  lra.
Qed.

(** Where the amount put in is below 10^18 times the reserve, the quote
    stays below the output reserve. *)
Lemma quoted_below_reserve (amountIn reserveIn reserveOut : Q) (feeRateBp : Z) :
  0 < amountIn -> 0 < reserveIn -> 0 < reserveOut -> (0 <= feeRateBp < 10000)%Z ->
  amountIn <= 1000000000000000000 * reserveIn ->
  quoted amountIn reserveIn reserveOut feeRateBp < reserveOut.
Proof.
  intros Hamount Hin Hout Hfee Hdomain.
  destruct (afterFee_bounds amountIn feeRateBp Hamount Hfee) as (_ & Hhigh & Hafter).
  destruct (exactAfterFee_le amountIn feeRateBp Hamount Hfee) as [_ Hle].
  destruct (quoted_bounds amountIn reserveIn reserveOut feeRateBp Hamount Hin Hout Hfee)
    as (Hpos & _ & Hupper).
  set (after := afterFee amountIn feeRateBp) in *.
  set (out := quoted amountIn reserveIn reserveOut feeRateBp) in *.
  destruct (Qlt_le_dec out reserveOut) as [Hlt|Hge]; [exact Hlt | exfalso].
  assert (Hscale : reserveOut * ((reserveIn + after) * (1 - u))
                   <= out * ((reserveIn + after) * (1 - u))).
  { apply Qmult_le_compat_r; [exact Hge|]. unfold unitRoundoff.
    apply Qmult_le_0_compat; lra. }
  assert (Hcancel : reserveOut * ((reserveIn + after) * (1 - u))
                    <= reserveOut * ((1 + u) * (1 + u) * after)).
  { eapply Qle_trans; [exact Hscale|]. eapply Qle_trans; [exact Hupper|].
    apply Qle_lteq. right. ring. }
  apply Qmult_le_l in Hcancel; [|exact Hout].
  unfold unitRoundoff in *. lra.
Qed.

(** Where amounts one unit apart are resolved by 20 digits, the larger
    amount has the larger quote. *)
Lemma quoted_increasing (x1 x2 reserveIn reserveOut : Q) (feeRateBp : Z) :
  0 < x1 -> x1 + 1 <= x2 -> 0 < reserveIn -> 0 < reserveOut ->
  (0 <= feeRateBp < 10000)%Z ->
  x2 * (reserveIn + x2) <= 100000000000000 * reserveIn ->
  quoted x1 reserveIn reserveOut feeRateBp < quoted x2 reserveIn reserveOut feeRateBp.
Proof.
  intros Hx1 Hgap Hin Hout Hfee Hdomain.
  assert (Hx2 : 0 < x2) by lra.
  destruct (afterFee_bounds x1 feeRateBp Hx1 Hfee) as (_ & Hhigh1 & Hafter1).
  destruct (afterFee_bounds x2 feeRateBp Hx2 Hfee) as (Hlow2 & Hhigh2 & Hafter2).
  destruct (exactAfterFee_le x1 feeRateBp Hx1 Hfee) as [Hle1' Hle1].
  destruct (exactAfterFee_le x2 feeRateBp Hx2 Hfee) as [_ Hle2].
  pose proof (exactAfterFee_gap x1 x2 feeRateBp Hgap Hfee) as Hexactgap.
  destruct (quoted_bounds x1 reserveIn reserveOut feeRateBp Hx1 Hin Hout Hfee)
    as (Hpos1 & _ & Hupper1).
  destruct (quoted_bounds x2 reserveIn reserveOut feeRateBp Hx2 Hin Hout Hfee)
    as (Hpos2 & Hlower2 & _).
  set (a1 := exactAfterFee x1 feeRateBp) in *.
  set (a2 := exactAfterFee x2 feeRateBp) in *.
  set (A1 := afterFee x1 feeRateBp) in *.
  set (A2 := afterFee x2 feeRateBp) in *.
  set (y1 := quoted x1 reserveIn reserveOut feeRateBp) in *.
  set (y2 := quoted x2 reserveIn reserveOut feeRateBp) in *.
  destruct (Qlt_le_dec y1 y2) as [Hlt|Hge]; [exact Hlt | exfalso].
  unfold unitRoundoff in *.
  set (lo := 1 - (1 # 20000000000000000000)) in *.
  set (hi := 1 + (1 # 20000000000000000000)) in *.
  assert (Hlo : 0 < lo) by (unfold lo; reflexivity).
  assert (Hhi : 0 < hi) by (unfold hi; reflexivity).
  (* lo^2 A2 Rout <= y1 (Rin + A2) hi *)
  assert (Hstep1 : lo * lo * (A2 * reserveOut) <= y1 * ((reserveIn + A2) * hi)).
  { eapply Qle_trans; [exact Hlower2|].
    apply Qmult_le_compat_r; [exact Hge|].
    apply Qmult_le_0_compat; lra. }
  (* multiply by (Rin + A1) lo and use the upper bound of y1 *)
  assert (Hstep2 : lo * lo * (A2 * reserveOut) * ((reserveIn + A1) * lo)
                   <= y1 * ((reserveIn + A2) * hi) * ((reserveIn + A1) * lo)).
  { apply Qmult_le_compat_r; [exact Hstep1|]. apply Qmult_le_0_compat; lra. }
  assert (Hstep3 : y1 * ((reserveIn + A1) * lo) * ((reserveIn + A2) * hi)
                   <= hi * hi * (A1 * reserveOut) * ((reserveIn + A2) * hi)).
  { apply Qmult_le_compat_r; [exact Hupper1|]. apply Qmult_le_0_compat; lra. }
  assert (Hcancel : reserveOut * (lo * lo * lo * (A2 * (reserveIn + A1)))
                    <= reserveOut * (hi * hi * hi * (A1 * (reserveIn + A2)))).
  { apply Qle_trans with (lo * lo * (A2 * reserveOut) * ((reserveIn + A1) * lo));
      [apply Qle_lteq; right; ring|].
    eapply Qle_trans; [exact Hstep2|].
    apply Qle_trans with (y1 * ((reserveIn + A1) * lo) * ((reserveIn + A2) * hi));
      [apply Qle_lteq; right; ring|].
    eapply Qle_trans; [exact Hstep3|]. apply Qle_lteq. right. ring. }
  apply Qmult_le_l in Hcancel; [|exact Hout].
  (* the opposite inequality, from the distance of the two amounts *)
  assert (Hbound1 : A1 <= hi * hi * hi * hi * x2) by (unfold hi, unitRoundoff in *; lra).
  assert (Hbound2 : A2 <= hi * hi * hi * hi * x2) by (unfold hi, unitRoundoff in *; lra).
  assert (Hprod : A1 * A2 <= hi * hi * hi * hi * x2 * (hi * hi * hi * hi * x2)).
  { apply Qmult_le_compat_nonneg; split; lra. }
  assert (Hgapped : (1 # 10000) - 13 * (1 # 20000000000000000000) * x2
                    <= lo * lo * lo * A2 - hi * hi * hi * A1) by (unfold lo, hi; lra).
  assert (Hscaled : reserveIn * ((1 # 10000) - 13 * (1 # 20000000000000000000) * x2)
                    <= reserveIn * (lo * lo * lo * A2 - hi * hi * hi * A1)).
  { apply Qmult_le_l; assumption. }
  assert (Hsquare : 0 <= x2 * x2) by (apply Qmult_le_0_compat; lra).
  assert (Hcross : 0 <= x2 * reserveIn) by (apply Qmult_le_0_compat; lra).
  assert (Hexpand : hi * hi * hi * (A1 * (reserveIn + A2))
                    - lo * lo * lo * (A2 * (reserveIn + A1))
                    == (hi * hi * hi - lo * lo * lo) * (A1 * A2)
                       - reserveIn * (lo * lo * lo * A2 - hi * hi * hi * A1)) by ring.
  assert (Hnoise : (hi * hi * hi - lo * lo * lo) * (A1 * A2)
                   <= (hi * hi * hi - lo * lo * lo)
                      * (hi * hi * hi * hi * x2 * (hi * hi * hi * hi * x2))).
  { apply Qmult_le_l; [unfold hi, lo; reflexivity | exact Hprod]. }
  assert (Hdomain' : x2 * x2 + x2 * reserveIn <= 100000000000000 * reserveIn) by lra.
  assert (Hnoise' : (hi * hi * hi - lo * lo * lo)
                    * (hi * hi * hi * hi * x2 * (hi * hi * hi * hi * x2))
                    == (hi * hi * hi - lo * lo * lo)
                       * (hi * hi * hi * hi * hi * hi * hi * hi) * (x2 * x2)) by ring.
  unfold lo, hi in *. lra.
Qed.

Lemma getAmountIn_required (amountOut reserveIn reserveOut : Q) (feeRateBp : Z) :
  0 < amountOut -> amountOut < reserveOut -> 0 < reserveIn ->
  (0 <= feeRateBp < 10000)%Z ->
  MathUtils.getAmountIn amountOut reserveIn reserveOut feeRateBp
  = Ok (required amountOut reserveIn reserveOut feeRateBp).
Proof.
  intros Hpos Hbelow Hin Hfee.
  unfold MathUtils.getAmountIn.
  rewrite !lte_false by lra. cbn [orb].
  assert (Hgte : gte amountOut reserveOut = false).
  { unfold gte. destruct (Qle_bool reserveOut amountOut) eqn:Htest; [|reflexivity].
    apply Qle_bool_iff in Htest. lra. }
  rewrite Hgte.
  assert (Hden : 0 < sub reserveOut amountOut) by (apply round_positive; lra).
  rewrite div_Ok by lra. cbn [bind].
  assert (Hdivisor : 0 < inject_Z (BASIS_POINTS - feeRateBp)).
  { change 0 with (inject_Z 0). rewrite <- Zlt_Qlt. unfold BASIS_POINTS. lia. }
  rewrite div_Ok by lra. reflexivity.
Qed.

(** The inverted quotient against the exact inverse of the amount it is
    given, with the divisions cleared. *)
Lemma inverted_lower (amountOut reserveIn reserveOut : Q) :
  0 < amountOut -> amountOut < reserveOut -> 0 < reserveIn ->
  0 < inverted amountOut reserveIn reserveOut
  /\ (1 - u) * (1 - u) * (reserveIn * amountOut)
     <= inverted amountOut reserveIn reserveOut * ((reserveOut - amountOut) * (1 + u)).
Proof.
  intros Hpos Hbelow Hin.
  assert (Hprod : 0 < reserveIn * amountOut) by (apply Qmult_lt_0_compat; assumption).
  destruct (round_relative (reserveIn * amountOut) ltac:(lra)) as [Hnum0 _].
  destruct (round_relative (reserveOut - amountOut) ltac:(lra)) as [_ Hden1].
  pose proof (round_positive _ Hprod) as Hnum.
  pose proof (round_positive (reserveOut - amountOut) ltac:(lra)) as Hden.
  unfold inverted, mul, sub.
  set (num := round (reserveIn * amountOut)) in *.
  set (den := round (reserveOut - amountOut)) in *.
  assert (Hquot : 0 < num / den) by (apply Qlt_shift_div_l; lra).
  destruct (round_relative (num / den) ltac:(lra)) as [Hq0 _].
  pose proof (round_positive _ Hquot) as Hqpos.
  set (q := round (num / den)) in *.
  assert (Hcancel : num / den * den == num) by (field; lra).
  assert (Hqd : num / den * (1 - u) * den <= q * den)
    by (apply Qmult_le_compat_r; lra).
  assert (Hqd' : q * den <= q * ((reserveOut - amountOut) * (1 + u)))
    by (apply Qmult_le_l; lra).
  assert (Hn : (1 - u) * (reserveIn * amountOut * (1 - u)) <= (1 - u) * num)
    by (apply Qmult_le_l; [reflexivity | lra]).
  split; [exact Hqpos|].
  apply Qle_trans with (q * den); [|exact Hqd'].
  apply Qle_trans with ((1 - u) * num).
  - eapply Qle_trans; [|exact Hn]. apply Qle_lteq. right. ring.
  - eapply Qle_trans; [|exact Hqd]. apply Qle_lteq. right. rewrite <- Hcancel at 1. ring.
Qed.

(** The required input against the inverted quotient. *)
Lemma required_lower (amountOut reserveIn reserveOut : Q) (feeRateBp : Z) :
  0 < inverted amountOut reserveIn reserveOut -> (0 <= feeRateBp < 10000)%Z ->
  (1 - u) * (1 - u) * (1 - u)
  * ((inverted amountOut reserveIn reserveOut + 1) * inject_Z BASIS_POINTS)
  <= required amountOut reserveIn reserveOut feeRateBp
     * inject_Z (BASIS_POINTS - feeRateBp).
Proof.
  intros Hq Hfee.
  assert (Hdivisor : 0 < inject_Z (BASIS_POINTS - feeRateBp)).
  { change 0 with (inject_Z 0). rewrite <- Zlt_Qlt. unfold BASIS_POINTS. lia. }
  unfold required, add, mul.
  set (q := inverted amountOut reserveIn reserveOut) in *.
  set (divisor := inject_Z (BASIS_POINTS - feeRateBp)) in *.
  assert (Hbp : inject_Z BASIS_POINTS == 10000) by reflexivity.
  destruct (round_relative (q + 1) ltac:(lra)) as [Hplus _].
  pose proof (round_positive (q + 1) ltac:(lra)) as Hpluspos.
  set (plus := round (q + 1)) in *.
  assert (Htimespos : 0 < plus * inject_Z BASIS_POINTS) by (rewrite Hbp; lra).
  destruct (round_relative (plus * inject_Z BASIS_POINTS) ltac:(lra)) as [Htimes _].
  pose proof (round_positive _ Htimespos) as Htimespos'.
  set (times := round (plus * inject_Z BASIS_POINTS)) in *.
  assert (Hquot : 0 < times / divisor) by (apply Qlt_shift_div_l; lra).
  destruct (round_relative (times / divisor) ltac:(lra)) as [Hz _].
  set (z := round (times / divisor)) in *.
  assert (Hcancel : times / divisor * divisor == times) by (field; lra).
  assert (Hzd : times / divisor * (1 - u) * divisor <= z * divisor)
    by (apply Qmult_le_compat_r; lra).
  rewrite Hbp in *. unfold unitRoundoff in *. lra.
Qed.

(** The composition stays at or above the input where the unit added by
    [getAmountIn] outweighs the rounding of the quote. *)
Lemma required_covers_input (amountIn reserveIn reserveOut : Q) (feeRateBp : Z) :
  0 < amountIn -> 0 < reserveIn -> 0 < reserveOut -> (0 <= feeRateBp < 10000)%Z ->
  amountIn * (reserveIn + amountIn) <= 1000000000000000000 * reserveIn ->
  quoted amountIn reserveIn reserveOut feeRateBp < reserveOut ->
  amountIn
  <= required (quoted amountIn reserveIn reserveOut feeRateBp) reserveIn reserveOut feeRateBp.
Proof.
  intros Hamount Hin Hout Hfee Hdomain Hvalid.
  destruct (afterFee_bounds amountIn feeRateBp Hamount Hfee) as (Hlow & Hhigh & Hafter).
  destruct (exactAfterFee_le amountIn feeRateBp Hamount Hfee) as [Hle' Hle].
  destruct (quoted_bounds amountIn reserveIn reserveOut feeRateBp Hamount Hin Hout Hfee)
    as (Hpos & Hlower & _).
  destruct (inverted_lower _ reserveIn reserveOut Hpos Hvalid Hin) as [Hq Hinverse].
  pose proof (required_lower (quoted amountIn reserveIn reserveOut feeRateBp)
                reserveIn reserveOut feeRateBp Hq Hfee) as Hrequired.
  pose proof (RoundTripFacts.feeDivisor_pos feeRateBp Hfee) as Hdivisor.
  pose proof (RoundTripFacts.grossed_up amountIn feeRateBp Hfee) as Hgross.
  set (a := exactAfterFee amountIn feeRateBp) in *.
  set (A := afterFee amountIn feeRateBp) in *.
  set (y := quoted amountIn reserveIn reserveOut feeRateBp) in *.
  set (q := inverted y reserveIn reserveOut) in *.
  set (z := required y reserveIn reserveOut feeRateBp) in *.
  set (divisor := inject_Z (BASIS_POINTS - feeRateBp)) in *.
  assert (Hbp : inject_Z BASIS_POINTS == 10000) by reflexivity.
  set (lo := 1 - u) in *. set (hi := 1 + u) in *.
  assert (Hlo : 0 < lo) by (unfold lo; reflexivity).
  assert (Hhi : 0 < hi) by (unfold hi; reflexivity).
  (* it is enough that lo^3 (q + 1) reaches the exact amount after fee *)
  assert (Henough : a <= lo * lo * lo * (q + 1) -> amountIn <= z).
  { intros Hreach.
    assert (Hexact : a * 10000 == amountIn * divisor).
    { rewrite <- Hgross. rewrite Hbp. field. lra. }
    apply (Qmult_le_r _ _ divisor); [exact Hdivisor|].
    rewrite <- Hexact. eapply Qle_trans; [|exact Hrequired].
    rewrite Hbp. lra. }
  apply Henough.
  destruct (Qlt_le_dec (lo * lo * lo * (q + 1)) a) as [Hshort|Hreach]; [exfalso | exact Hreach].
  (* y (lo^2 Rin + q hi) <= q hi Rout *)
  assert (Hy : y * (lo * lo * reserveIn + q * hi) <= q * hi * reserveOut) by lra.
  assert (Hfactor : 0 <= lo * lo * reserveIn + q * hi)
    by (assert (0 < lo * lo * reserveIn) by (repeat apply Qmult_lt_0_compat; assumption);
        assert (0 < q * hi) by (apply Qmult_lt_0_compat; assumption); lra).
  assert (Hstep1 : lo * lo * (A * reserveOut) * (lo * lo * reserveIn + q * hi)
                   <= y * ((reserveIn + A) * hi) * (lo * lo * reserveIn + q * hi))
    by (apply Qmult_le_compat_r; assumption).
  assert (Hstep2 : y * (lo * lo * reserveIn + q * hi) * ((reserveIn + A) * hi)
                   <= q * hi * reserveOut * ((reserveIn + A) * hi)).
  { apply Qmult_le_compat_r; [exact Hy|]. apply Qmult_le_0_compat; lra. }
  assert (Hcancel : reserveOut * (lo * lo * A * (lo * lo * reserveIn + q * hi))
                    <= reserveOut * (q * hi * hi * (reserveIn + A))).
  { apply Qle_trans with (lo * lo * (A * reserveOut) * (lo * lo * reserveIn + q * hi));
      [apply Qle_lteq; right; ring|].
    eapply Qle_trans; [exact Hstep1|].
    apply Qle_trans with (y * (lo * lo * reserveIn + q * hi) * ((reserveIn + A) * hi));
      [apply Qle_lteq; right; ring|].
    eapply Qle_trans; [exact Hstep2|]. apply Qle_lteq. right. ring. }
  apply Qmult_le_l in Hcancel; [|exact Hout].
  (* lo^4 A Rin <= q R, with R positive *)
  set (R := hi * hi * reserveIn + (hi * hi - lo * lo * hi) * A).
  assert (HR : 0 <= R).
  { unfold R. assert (0 <= hi * hi * reserveIn) by (repeat apply Qmult_le_0_compat; lra).
    assert (0 <= (hi * hi - lo * lo * hi) * A).
    { apply Qmult_le_0_compat; [unfold hi, lo; vm_compute; discriminate | lra]. }
    lra. }
  assert (HqR : lo * lo * lo * lo * (A * reserveIn) <= q * R) by (unfold R; lra).
  assert (Hs : lo * lo * lo * q <= a - lo * lo * lo) by lra.
  assert (HsR : lo * lo * lo * q * R <= (a - lo * lo * lo) * R)
    by (apply Qmult_le_compat_r; assumption).
  assert (Hchain : lo * lo * lo * (lo * lo * lo * lo * (A * reserveIn))
                   <= (a - lo * lo * lo) * R).
  { apply Qle_trans with (lo * lo * lo * (q * R)).
    - apply Qmult_le_l; [repeat apply Qmult_lt_0_compat; assumption | exact HqR].
    - eapply Qle_trans; [|exact HsR]. apply Qle_lteq. right. ring. }
  (* the opposite bound, from the domain *)
  assert (Hspos : 0 <= a - lo * lo * lo).
  { assert (0 < lo * lo * lo * q) by (repeat apply Qmult_lt_0_compat; assumption). lra. }
  assert (HAx : A <= hi * hi * hi * hi * amountIn) by (unfold hi, unitRoundoff in *; lra).
  assert (Hcross : (a - lo * lo * lo) * A <= amountIn * (hi * hi * hi * hi * amountIn)).
  { apply Qmult_le_compat_nonneg; split; try lra.
    assert (0 < lo * lo * lo) by (repeat apply Qmult_lt_0_compat; assumption). lra. }
  assert (Hnoise : (hi * hi - lo * lo * hi) * ((a - lo * lo * lo) * A)
                   <= (hi * hi - lo * lo * hi) * (amountIn * (hi * hi * hi * hi * amountIn))).
  { apply Qmult_le_l; [unfold hi, lo; reflexivity | exact Hcross]. }
  assert (Hlinear : (9 # 10) - 12 * u * amountIn
                    <= lo * lo * lo * lo * lo * lo * lo * A
                       - (a - lo * lo * lo) * (hi * hi))
    by (unfold lo, hi, unitRoundoff in *; lra).
  assert (Hscaled : reserveIn * ((9 # 10) - 12 * u * amountIn)
                    <= reserveIn * (lo * lo * lo * lo * lo * lo * lo * A
                                    - (a - lo * lo * lo) * (hi * hi))).
  { apply Qmult_le_l; assumption. }
  assert (Hexpand : (a - lo * lo * lo) * R
                    == (a - lo * lo * lo) * (hi * hi) * reserveIn
                       + (hi * hi - lo * lo * hi) * ((a - lo * lo * lo) * A))
    by (unfold R; ring).
  assert (Hsquare : 0 <= amountIn * amountIn) by (apply Qmult_le_0_compat; lra).
  assert (Hmixed : 0 <= amountIn * reserveIn) by (apply Qmult_le_0_compat; lra).
  assert (Hdomain' : amountIn * reserveIn + amountIn * amountIn
                     <= 1000000000000000000 * reserveIn) by lra.
  assert (Hnoise' : (hi * hi - lo * lo * hi) * (amountIn * (hi * hi * hi * hi * amountIn))
                    == (hi * hi - lo * lo * hi) * (hi * hi * hi * hi)
                       * (amountIn * amountIn)) by ring.
  unfold lo, hi, unitRoundoff in *. lra.
Qed.

End ErrorFacts.

(** * Quotes on the range where the rounding is resolved *)

(** C2 (as amended): for valid inputs whose amounts lie at least one unit
    apart, with the larger one in the range
    [amountIn2 * (reserveIn + amountIn2) <= 10^14 * reserveIn],
    [getAmountOut] returns on both, the smaller amount gets the strictly
    smaller positive output, and the larger output is strictly below
    [reserveOut]. *)
Theorem getAmountOut_strictly_increasing
  (amountIn1 amountIn2 reserveIn reserveOut : Q) (feeRateBp : Z) :
  (0 < amountIn1)%Q -> (amountIn1 + 1 <= amountIn2)%Q ->
  (0 < reserveIn)%Q -> (0 < reserveOut)%Q -> 0 <= feeRateBp < 10000 ->
  (amountIn2 * (reserveIn + amountIn2) <= 100000000000000 * reserveIn)%Q ->
  exists out1 out2,
    MathUtils.getAmountOut amountIn1 reserveIn reserveOut feeRateBp = Ok out1
    /\ MathUtils.getAmountOut amountIn2 reserveIn reserveOut feeRateBp = Ok out2
    /\ (0 < out1)%Q /\ (out1 < out2)%Q /\ (out2 < reserveOut)%Q.
Proof.
  intros Hfirst Hgap Hin Hout Hfee Hdomain.
  assert (Hsecond : (0 < amountIn2)%Q) by lra.
  exists (quoted amountIn1 reserveIn reserveOut feeRateBp),
         (quoted amountIn2 reserveIn reserveOut feeRateBp).
  split; [now apply ErrorFacts.getAmountOut_quoted|].
  split; [now apply ErrorFacts.getAmountOut_quoted|].
  split; [now apply ErrorFacts.quoted_bounds|].
  split; [now apply ErrorFacts.quoted_increasing|].
  apply ErrorFacts.quoted_below_reserve; try assumption.
  assert (Hunit : (amountIn2 * 1 <= amountIn2 * amountIn2)%Q)
    by (apply Qmult_le_l; lra).
  assert (Hmixed : (0 <= amountIn2 * reserveIn)%Q)
    by (apply Qmult_le_0_compat; lra).
  lra.
Qed.

Lemma getAmountOut_strictly_increasing_witness :
  exists out1 out2,
    MathUtils.getAmountOut (100 # 1) (1000 # 1) (2000 # 1) 30 = Ok out1
    /\ MathUtils.getAmountOut (101 # 1) (1000 # 1) (2000 # 1) 30 = Ok out2
    /\ (0 < out1)%Q /\ (out1 < out2)%Q /\ (out2 < 2000 # 1)%Q.
Proof.
  apply (getAmountOut_strictly_increasing (100 # 1) (101 # 1) (1000 # 1) (2000 # 1) 30).
  - reflexivity.
  - vm_compute. discriminate.
  - reflexivity.
  - reflexivity.
  - lia.
  - vm_compute. discriminate.
Defined.

(** C1 (as amended): for every valid input in the range
    [amountIn * (reserveIn + amountIn) <= 10^18 * reserveIn],
    [getAmountOut] returns a quote, and whenever that quote is a valid
    [amountOut] for [getAmountIn] (it is below [reserveOut]),
    [getAmountIn] returns on it and asks for at least the original
    input. *)
Theorem getAmountIn_never_underquotes
  (amountIn reserveIn reserveOut : Q) (feeRateBp : Z) :
  (0 < amountIn)%Q -> (0 < reserveIn)%Q -> (0 < reserveOut)%Q -> 0 <= feeRateBp < 10000 ->
  (amountIn * (reserveIn + amountIn) <= 1000000000000000000 * reserveIn)%Q ->
  exists amountOut,
    MathUtils.getAmountOut amountIn reserveIn reserveOut feeRateBp = Ok amountOut
    /\ ((amountOut < reserveOut)%Q ->
        exists back,
          MathUtils.getAmountIn amountOut reserveIn reserveOut feeRateBp = Ok back
          /\ (amountIn <= back)%Q).
Proof.
  intros Hamount Hin Hout Hfee Hdomain.
  exists (quoted amountIn reserveIn reserveOut feeRateBp).
  split; [now apply ErrorFacts.getAmountOut_quoted|].
  intros Hvalid.
  exists (required (quoted amountIn reserveIn reserveOut feeRateBp)
            reserveIn reserveOut feeRateBp).
  split.
  - apply ErrorFacts.getAmountIn_required; try assumption.
    now apply ErrorFacts.quoted_bounds.
  - now apply ErrorFacts.required_covers_input.
Qed.

Lemma getAmountIn_never_underquotes_witness :
  exists amountOut,
    MathUtils.getAmountOut (100 # 1) (1000 # 1) (2000 # 1) 30 = Ok amountOut
    /\ ((amountOut < 2000 # 1)%Q ->
        exists back,
          MathUtils.getAmountIn amountOut (1000 # 1) (2000 # 1) 30 = Ok back
          /\ (100 # 1 <= back)%Q).
Proof.
  apply (getAmountIn_never_underquotes (100 # 1) (1000 # 1) (2000 # 1) 30).
  - reflexivity.
  - reflexivity.
  - reflexivity.
  - lia.
  - vm_compute. discriminate.
Defined.

(** ** Ranking of the candidates *)

Module SortFacts.

Section Sorting.

Context {T : Type}.
Variable compareFn : T -> T -> Z.

Local Notation "'before'" := (fun a b => compareFn a b <= 0).

Hypothesis total : forall a b, compareFn a b <= 0 \/ compareFn b a <= 0.

Lemma insert_sorted (x : T) (l : list T) :
  (forall a b c, In a (x :: l) -> In b (x :: l) -> In c (x :: l) ->
                 compareFn a b <= 0 -> compareFn b c <= 0 -> compareFn a c <= 0) ->
  StronglySorted before l ->
  StronglySorted before (JsArray.insert compareFn x l).
Proof.
  induction l as [|y l IH]; intros Htrans Hsorted; simpl.
  - repeat constructor.
  - apply StronglySorted_inv in Hsorted. destruct Hsorted as [Hsorted Hall].
    destruct (Z.leb_spec (compareFn x y) 0) as [Hxy|Hxy].
    + constructor.
      * constructor; assumption.
      * constructor; [exact Hxy|].
        rewrite Forall_forall in *. intros z Hz.
        apply (Htrans x y z); simpl; auto.
    + assert (Hyx : compareFn y x <= 0) by (destruct (total x y); [lia | assumption]).
      constructor.
      * apply IH; [|exact Hsorted].
        intros a b c Ha Hb Hc. apply Htrans; simpl in *; tauto.
      * apply (Permutation_Forall (Permutation_sym (JsArrayFacts.insert_perm compareFn x l))).
        constructor; assumption.
Qed.

Lemma sort_sorted (l : list T) :
  (forall a b c, In a l -> In b l -> In c l ->
                 compareFn a b <= 0 -> compareFn b c <= 0 -> compareFn a c <= 0) ->
  StronglySorted before (JsArray.sort compareFn l).
Proof.
  induction l as [|x l IH]; intros Htrans; simpl.
  - constructor.
  - apply insert_sorted.
    + intros a b c Ha Hb Hc. apply Htrans.
      * destruct Ha as [<-|Ha]; [now left | right].
        now apply (Permutation_in _ (JsArrayFacts.sort_perm compareFn l)).
      * destruct Hb as [<-|Hb]; [now left | right].
        now apply (Permutation_in _ (JsArrayFacts.sort_perm compareFn l)).
      * destruct Hc as [<-|Hc]; [now left | right].
        now apply (Permutation_in _ (JsArrayFacts.sort_perm compareFn l)).
    + apply IH. intros a b c Ha Hb Hc. apply Htrans; now right.
Qed.

End Sorting.

Lemma StronglySorted_impl {T : Type} (R R' : T -> T -> Prop) (l : list T) :
  (forall a b, R a b -> R' a b) -> StronglySorted R l -> StronglySorted R' l.
Proof.
  intros Himpl Hsorted. induction Hsorted as [|x l Hsorted IH Hall].
  - constructor.
  - constructor; [exact IH|]. eapply Forall_impl; [|exact Hall]. auto.
Qed.

End SortFacts.

Module SelectorFacts.

Import Decimal DecimalFacts.

(** The comparator puts [a] first exactly when [a] ranks before [b]. *)
Lemma compareFn_ranks (a b : Route.t) :
  RouterService.compareFn a b <= 0 <-> ranksBefore a b.
Proof.
  unfold RouterService.compareFn, MathUtils.compareRoutes, ranksBefore, amountGap.
  set (amountDiff := sub (Route.amountOut b) (Route.amountOut a)).
  unfold gt, abs. cbn [andb].
  destruct (Qle_bool (Qabs amountDiff) (1 # 1000)) eqn:Hclose; cbn [negb].
  - apply Qle_bool_iff in Hclose. split.
    + intros Himpact. right. split; [exact Hclose | lia].
    + intros [Hgap|[_ Himpact]]; [|lia].
      exfalso. apply Qabs_Qle_condition in Hclose. lra.
  - assert (Hfar : (1 # 1000 < Qabs amountDiff)%Q).
    { apply Qnot_le_lt. intros Hle. apply Qle_bool_iff in Hle. congruence. }
    destruct (Qle_bool amountDiff 0) eqn:Hsign; cbn [negb].
    + apply Qle_bool_iff in Hsign. split; [intros _ | lia].
      left. rewrite Qabs_neg in Hfar by exact Hsign. lra.
    + assert (Hpos : (0 < amountDiff)%Q).
      { apply Qnot_le_lt. intros Hle. apply Qle_bool_iff in Hle. congruence. }
      split; [lia|]. intros [Hgap|[Hclose' _]]; lra.
Qed.

Lemma amountGap_opp (a b : Route.t) : (amountGap b a == - amountGap a b)%Q.
Proof.
  unfold amountGap, sub. rewrite <- round_opp.
  apply Qeq_bool_iff. rewrite (round_proper (Route.amountOut a - Route.amountOut b)
                                 (- (Route.amountOut b - Route.amountOut a))).
  - apply Qeq_bool_refl.
  - ring.
Qed.

(** Of two routes one ranks before the other. *)
Lemma ranksBefore_total (a b : Route.t) : ranksBefore a b \/ ranksBefore b a.
Proof.
  unfold ranksBefore. pose proof (amountGap_opp a b) as Hopp.
  destruct (Qlt_le_dec (amountGap a b) (- (1 # 1000))) as [Hlow|Hlow]; [now left; left|].
  destruct (Qlt_le_dec (1 # 1000) (amountGap a b)) as [Hhigh|Hhigh].
  - right. left. lra.
  - assert (Hab : (Qabs (amountGap a b) <= 1 # 1000)%Q)
      by (apply Qabs_Qle_condition; split; assumption).
    assert (Hba : (Qabs (amountGap b a) <= 1 # 1000)%Q)
      by (apply Qabs_Qle_condition; split; lra).
    destruct (Z.le_ge_cases (Route.priceImpact a) (Route.priceImpact b)).
    + left. right. now split.
    + right. right. split; [exact Hba | lia].
Qed.

Lemma compareFn_total (a b : Route.t) :
  RouterService.compareFn a b <= 0 \/ RouterService.compareFn b a <= 0.
Proof. rewrite !compareFn_ranks. apply ranksBefore_total. Qed.

Lemma rankableb_sound (allRoutes : list Route.t) :
  rankableb allRoutes = true -> rankable allRoutes.
Proof.
  unfold rankableb, rankable. intros Hcheck a b c Ha Hb Hc Hab Hbc.
  rewrite forallb_forall in Hcheck. specialize (Hcheck a Ha).
  rewrite forallb_forall in Hcheck. specialize (Hcheck b Hb).
  rewrite forallb_forall in Hcheck. specialize (Hcheck c Hc).
  apply compareFn_ranks in Hab. apply compareFn_ranks in Hbc. apply compareFn_ranks.
  apply Z.leb_le in Hab. apply Z.leb_le in Hbc.
  rewrite Hab, Hbc in Hcheck. simpl in Hcheck. now apply Z.leb_le.
Qed.

End SelectorFacts.

(** C4 (as amended): when the candidates can be ranked, the selector answers
    an empty candidate set with the no-route value and a non-empty one with
    the first route of the ranking as the best route and the routes that
    follow it, in the order of the ranking, as alternatives: of two ranked
    routes the earlier one has an output larger by more than 0.001, or the
    outputs differ by at most 0.001 and its price impact is not the larger.
    How many alternatives are kept is left open. *)
Theorem selectRoutes_ranks_candidates (allRoutes : list Route.t) :
  rankable allRoutes ->
  match RouterService.selectRoutes allRoutes with
  | None => allRoutes = []
  | Some response =>
      exists rest,
        Permutation (route response :: routes response ++ rest) allRoutes
        /\ StronglySorted ranksBefore (route response :: routes response ++ rest)
  end.
Proof.
  intros Hrankable.
  pose proof (selectRoutes_shape allRoutes) as Hshape.
  destruct (RouterService.selectRoutes allRoutes) as [response|]; [|exact Hshape].
  destruct Hshape as (Hhead & Halternatives & _).
  exists (skipn 4 (skipn 1 (JsArray.sort RouterService.compareFn allRoutes))).
  rewrite Halternatives, firstn_skipn, <- Hhead. split.
  - apply JsArrayFacts.sort_perm.
  - apply (SortFacts.StronglySorted_impl (fun a b => RouterService.compareFn a b <= 0)).
    + intros a b. apply SelectorFacts.compareFn_ranks.
    + apply SortFacts.sort_sorted; [exact SelectorFacts.compareFn_total|].
      intros a b c Ha Hb Hc Hab Hbc.
      apply SelectorFacts.compareFn_ranks.
      apply (Hrankable a b c Ha Hb Hc); now apply SelectorFacts.compareFn_ranks.
Qed.

Lemma sevenCandidates_rankable : rankable sevenCandidates.
Proof. apply SelectorFacts.rankableb_sound. vm_compute. reflexivity. Qed.

Lemma selectRoutes_ranks_candidates_witness :
  exists rest,
    Permutation
      (sampleRoute (7 # 1) 10
       :: [ sampleRoute (6 # 1) 10; sampleRoute (5 # 1) 10;
            sampleRoute (4 # 1) 10; sampleRoute (3 # 1) 10 ] ++ rest)
      sevenCandidates
    /\ StronglySorted ranksBefore
         (sampleRoute (7 # 1) 10
          :: [ sampleRoute (6 # 1) 10; sampleRoute (5 # 1) 10;
               sampleRoute (4 # 1) 10; sampleRoute (3 # 1) 10 ] ++ rest).
Proof.
  generalize (selectRoutes_ranks_candidates sevenCandidates sevenCandidates_rankable).
  rewrite (proj1 selectRoutes_keeps_four_alternatives).
  exact (fun ranked => ranked).
Defined.

(** C4, the claim as stated: two routes whose outputs differ by exactly
    0.001, which is not less than 0.001, are ranked by price impact and not by
    output: the route with the smaller output is returned as the best one. *)
Lemma selectRoutes_ties_at_epsilon :
  RouterService.selectRoutes [ sampleRoute (1001 # 1000) 5; sampleRoute (1 # 1) 3 ]
  = Some {| route := sampleRoute (1 # 1) 3;
            routes := [ sampleRoute (1001 # 1000) 5 ] |}
  /\ ~ (Qabs ((1001 # 1000) - (1 # 1)) < 1 # 1000)%Q.
Proof.
  split; [vm_compute; reflexivity|].
  intros H. vm_compute in H. discriminate H.
Qed.

(** * Further properties of the code *)

(** ** Maps with string keys *)

Module JsMapLaws.

Lemma get_set {V : Type} (m : JsMap.t V) (k q : string) (v : V) :
  JsMap.get (JsMap.set m k v) q = if String.eqb k q then Some v else JsMap.get m q.
Proof.
  induction m as [|[k' v'] m IH]; simpl.
  - reflexivity.
  - destruct (String.eqb_spec k' k) as [->|Hne]; simpl.
    + destruct (String.eqb_spec k q); reflexivity.
    + rewrite IH. destruct (String.eqb_spec k' q) as [->|Hq]; [|reflexivity].
      destruct (String.eqb_spec k q); [congruence | reflexivity].
Qed.

Lemma get_In {V : Type} (m : JsMap.t V) (k : string) (v : V) :
  JsMap.get m k = Some v -> In (k, v) m.
Proof.
  induction m as [|[k' v'] m IH]; simpl; [discriminate|].
  destruct (String.eqb_spec k' k) as [->|Hne].
  - intros [= ->]. now left.
  - intros Hget. right. now apply IH.
Qed.

Lemma get_Some_keys {V : Type} (m : JsMap.t V) (k : string) (v : V) :
  JsMap.get m k = Some v -> In k (JsMap.keys m).
Proof.
  intros Hget. apply get_In in Hget. unfold JsMap.keys.
  change k with (fst (k, v)). now apply in_map.
Qed.

Lemma keys_set_cases {V : Type} (m : JsMap.t V) (k : string) (v : V) :
  JsMap.keys (JsMap.set m k v)
  = if JsMap.has m k then JsMap.keys m else JsMap.keys m ++ [k].
Proof.
  unfold JsMap.has. destruct (JsMap.get m k) eqn:Hget.
  - apply JsMapFacts.keys_set. now apply get_Some_keys in Hget.
  - apply JsMapFacts.get_None_notin in Hget.
    rewrite (JsMapFacts.set_fresh _ _ _ Hget). unfold JsMap.keys.
    now rewrite map_app.
Qed.

Lemma keys_set_NoDup {V : Type} (m : JsMap.t V) (k : string) (v : V) :
  NoDup (JsMap.keys m) -> NoDup (JsMap.keys (JsMap.set m k v)).
Proof.
  intros Hnodup. rewrite keys_set_cases. unfold JsMap.has.
  destruct (JsMap.get m k) eqn:Hget; [exact Hnodup|].
  apply JsMapFacts.get_None_notin in Hget.
  apply NoDup_app; [exact Hnodup | repeat constructor; simpl; tauto |].
  intros x Hx [<-|[]]. contradiction.
Qed.

Lemma get_of_keyed {V : Type} (key : V -> string) (l : list V) (k : string) :
  JsMap.get (map (fun v => (key v, v)) l) k = find (fun v => String.eqb (key v) k) l.
Proof.
  induction l as [|v l IH]; simpl; [reflexivity|].
  destruct (String.eqb (key v) k); [reflexivity | exact IH].
Qed.

Lemma find_unique {V : Type} (key : V -> string) (l : list V) (v : V) :
  NoDup (map key l) -> In v l -> find (fun w => String.eqb (key w) (key v)) l = Some v.
Proof.
  induction l as [|w l IH]; simpl; intros Hnodup Hin; [contradiction|].
  inversion Hnodup as [|? ? Hnotin Hrest]; subst.
  destruct Hin as [->|Hin].
  - now rewrite String.eqb_refl.
  - destruct (String.eqb_spec (key w) (key v)) as [Heq|Hne].
    + exfalso. apply Hnotin. rewrite Heq. now apply in_map.
    + now apply IH.
Qed.

Lemma find_absent {V : Type} (key : V -> string) (l : list V) (k : string) :
  ~ In k (map key l) -> find (fun w => String.eqb (key w) k) l = None.
Proof.
  induction l as [|w l IH]; simpl; intros Hnotin; [reflexivity|].
  destruct (String.eqb_spec (key w) k) as [Heq|Hne]; [tauto | apply IH; tauto].
Qed.

End JsMapLaws.

(** ** Pool Cache: the two indexes after a refresh *)

Module IndexFacts.

Definition bucketOf (byPair : JsMap.t (list Pool)) (pairKey : string) : list Pool :=
  match JsMap.get byPair pairKey with Some bucket => bucket | None => [] end.

Definition pairKeyOf (pool : Pool) : string :=
  getPairKey (type (coinA pool)) (type (coinB pool)).

Lemma bucketOf_indexPool (acc : JsMap.t Pool * JsMap.t (list Pool)) (pool : Pool)
  (pairKey : string) :
  bucketOf (snd (indexPool acc pool)) pairKey
  = bucketOf (snd acc) pairKey
    ++ (if String.eqb (pairKeyOf pool) pairKey then [pool] else []).
Proof.
  destruct acc as [byAddress byPair]. unfold indexPool, bucketOf, pairKeyOf. simpl.
  set (key := getPairKey (type (coinA pool)) (type (coinB pool))).
  unfold JsMap.has. destruct (JsMap.get byPair key) as [bucket|] eqn:Hget; simpl.
  - rewrite Hget, JsMapLaws.get_set.
    destruct (String.eqb_spec key pairKey) as [<-|Hne].
    + now rewrite Hget.
    + now rewrite app_nil_r.
  - rewrite !JsMapLaws.get_set, String.eqb_refl.
    destruct (String.eqb_spec key pairKey) as [<-|Hne].
    + now rewrite Hget.
    + now rewrite app_nil_r.
Qed.

Lemma bucketOf_fold (l : list Pool) :
  forall (acc : JsMap.t Pool * JsMap.t (list Pool)) (pairKey : string),
    bucketOf (snd (fold_left indexPool l acc)) pairKey
    = bucketOf (snd acc) pairKey
      ++ filter (fun pool => String.eqb (pairKeyOf pool) pairKey) l.
Proof.
  induction l as [|pool l IH]; simpl; intros acc pairKey.
  - now rewrite app_nil_r.
  - rewrite IH, bucketOf_indexPool, <- app_assoc.
    destruct (String.eqb (pairKeyOf pool) pairKey); reflexivity.
Qed.

Lemma getPoolsForPair_publish (allPools : list Pool) (now : Z) (s : PoolService)
  (first second : string) :
  getPoolsForPair (publish allPools now s) first second
  = filter (fun pool => String.eqb (pairKeyOf pool) (getPairKey first second)) allPools.
Proof.
  unfold getPoolsForPair, publish.
  pose proof (bucketOf_fold allPools (JsMap.empty, JsMap.empty) (getPairKey first second))
    as Hfold.
  destruct (fold_left indexPool allPools (JsMap.empty, JsMap.empty)) as [byAddress byPair].
  simpl in *. exact Hfold.
Qed.

Lemma pools_publish (allPools : list Pool) (now : Z) (s : PoolService) :
  NoDup (map poolAddress allPools) ->
  pools (publish allPools now s) = map (fun p => (poolAddress p, p)) allPools.
Proof.
  intros Hnodup. unfold publish.
  pose proof (fold_indexPool_fresh allPools JsMap.empty JsMap.empty Hnodup) as Hfold.
  destruct (fold_left indexPool allPools (JsMap.empty, JsMap.empty)) as [byAddress byPair].
  simpl in *. exact Hfold.
Qed.

End IndexFacts.

(** X1: after a refresh whose providers deliver pools with pairwise
    distinct addresses, the two indexes of the cache describe the same pools:
    the pools of a pair are the delivered pools with that pair key, in
    delivery order; each of them is found under its address; an address that
    was not delivered is not found; and the pools of a DEX are the delivered
    pools of that DEX. *)
Theorem refresh_indexes_agree (env : Providers) (now : Z) (s : PoolService) :
  let fetched := fetchCetusPools env ++ fetchPancakePools env ++ fetchLiquidSwapPools env in
  let refreshed := refreshAllPools env now s in
  NoDup (map poolAddress fetched) ->
  (forall first second,
      getPoolsForPair refreshed first second
      = filter (fun pool =>
                  String.eqb (getPairKey (type (coinA pool)) (type (coinB pool)))
                    (getPairKey first second)) fetched)
  /\ (forall pool, In pool fetched -> getPool refreshed (poolAddress pool) = Some pool)
  /\ (forall address, ~ In address (map poolAddress fetched) ->
                      getPool refreshed address = None)
  /\ (forall dex, getPoolsByDex refreshed dex
                  = filter (fun pool => String.eqb (dexType pool) dex) fetched).
Proof.
  intros fetched refreshed Hnodup. subst refreshed.
  rewrite refreshAllPools_publish. fold fetched.
  repeat split.
  - intros first second. apply IndexFacts.getPoolsForPair_publish.
  - intros pool Hin. unfold getPool.
    rewrite (IndexFacts.pools_publish _ _ _ Hnodup), JsMapLaws.get_of_keyed.
    now apply JsMapLaws.find_unique.
  - intros address Hnotin. unfold getPool.
    rewrite (IndexFacts.pools_publish _ _ _ Hnodup), JsMapLaws.get_of_keyed.
    now apply JsMapLaws.find_absent.
  - intros dex. unfold getPoolsByDex.
    pose proof (getAllPools_publish fetched now s Hnodup) as Hall.
    unfold getAllPools in Hall. now rewrite Hall.
Qed.

Lemma refresh_indexes_agree_witness :
  getPoolsForPair (refreshAllPools oneFailing 1 newPoolService) "0x1::b::B" "0x1::a::A"
  = [examplePool "0xa"; examplePool "0xb"; examplePool "0xc"]
  /\ getPool (refreshAllPools oneFailing 1 newPoolService) "0xb" = Some (examplePool "0xb")
  /\ getPool (refreshAllPools oneFailing 1 newPoolService) "0xd" = None
  /\ getPoolsByDex (refreshAllPools oneFailing 1 newPoolService) "CETUS" = [].
Proof.
  assert (Hnodup : NoDup (map poolAddress
                            (fetchCetusPools oneFailing ++ fetchPancakePools oneFailing
                             ++ fetchLiquidSwapPools oneFailing))).
  { simpl. repeat constructor; simpl; intuition discriminate. }
  destruct (refresh_indexes_agree oneFailing 1 newPoolService Hnodup)
    as (Hpair & Hfound & Habsent & Hdex).
  split; [|split; [|split]].
  - rewrite Hpair. reflexivity.
  - apply (Hfound (examplePool "0xb")). simpl. tauto.
  - apply Habsent. simpl. intuition discriminate.
  - rewrite Hdex. reflexivity.
Defined.

(** ** Pool Cache: pricing and pool choice *)

Module PricingFacts.

Import Decimal DecimalFacts.
Local Open Scope Q_scope.

Lemma lte_true (x y : Q) : x <= y -> lte x y = true.
Proof. intros Hle. unfold lte. now apply Qle_bool_iff. Qed.

Lemma gt_true (x y : Q) : gt x y = true <-> y < x.
Proof.
  unfold gt. destruct (Qle_bool x y) eqn:Htest; simpl.
  - apply Qle_bool_iff in Htest. split; [discriminate | lra].
  - split; [|reflexivity]. intros _. apply Qnot_le_lt. intros Hle.
    apply Qle_bool_iff in Hle. congruence.
Qed.

Lemma gt_false (x y : Q) : gt x y = false <-> x <= y.
Proof.
  unfold gt. destruct (Qle_bool x y) eqn:Htest; simpl.
  - apply Qle_bool_iff in Htest. tauto.
  - split; [discriminate|]. intros Hle. apply Qle_bool_iff in Hle. congruence.
Qed.

Lemma guard_true (amountIn reserveIn reserveOut : Q) :
  amountIn <= 0 \/ reserveIn <= 0 \/ reserveOut <= 0 ->
  lte amountIn 0 || lte reserveIn 0 || lte reserveOut 0 = true.
Proof.
  intros [H|[H|H]]; rewrite (lte_true _ _ H); rewrite ?orb_true_r; reflexivity.
Qed.

Lemma guard_false (amountIn reserveIn reserveOut : Q) :
  0 < amountIn -> 0 < reserveIn -> 0 < reserveOut ->
  lte amountIn 0 || lte reserveIn 0 || lte reserveOut 0 = false.
Proof. intros. now rewrite !lte_false. Qed.

Lemma keptShare_exact (feeRateBp : Z) :
  (0 <= feeRateBp < 10000)%Z ->
  sub 1 (round (inject_Z feeRateBp / 10000)) == 1 - inject_Z feeRateBp / 10000.
Proof.
  intros Hfee. unfold sub.
  pose proof (AmountOutFacts.feeRate_representable feeRateBp Hfee) as Hrate.
  change (inject_Z BASIS_POINTS) with 10000 in Hrate.
  rewrite (round_proper _ (1 - inject_Z feeRateBp / 10000)) by now rewrite Hrate.
  apply (round_representable _ (10000 - feeRateBp) (-4)); [|lia].
  unfold Z.sub. rewrite inject_Z_plus, inject_Z_opp.
  change (inject_Z 10000) with 10000. change (10 ^ (-4)) with (/ 10000). field.
Qed.

(** On a whole amount below 10^16 neither way of taking the fee rounds:
    [amountIn * (1 - rate)] of the backend and [amountIn - amountIn * rate]
    of the SDK are the same Decimal. *)
Lemma afterFee_two_ways (amount feeRateBp : Z) :
  (0 < amount < 10 ^ 16)%Z -> (0 <= feeRateBp < 10000)%Z ->
  mul (inject_Z amount) (sub 1 (round (inject_Z feeRateBp / 10000)))
  = sub (inject_Z amount) (mul (inject_Z amount) (round (inject_Z feeRateBp / 10000))).
Proof.
  intros Hamount Hfee. unfold mul at 1. unfold sub at 2.
  apply round_proper.
  rewrite (keptShare_exact feeRateBp Hfee).
  pose proof (AmountOutFacts.feeRate_representable feeRateBp Hfee) as Hrate.
  change (inject_Z BASIS_POINTS) with 10000 in Hrate.
  assert (Hfeeval : mul (inject_Z amount) (round (inject_Z feeRateBp / 10000))
                    == inject_Z amount * (inject_Z feeRateBp / 10000)).
  { unfold mul.
    rewrite (round_proper _ (inject_Z amount * (inject_Z feeRateBp / 10000)))
      by now rewrite Hrate.
    destruct (Z.eq_dec feeRateBp 0) as [->|Hnonzero].
    - assert (Hzero : inject_Z amount * (inject_Z 0 / 10000) == 0)
        by (change (inject_Z 0) with 0; unfold Qdiv; ring).
      rewrite (round_proper _ 0 Hzero), Hzero. reflexivity.
    - apply (round_representable _ (amount * feeRateBp) (-4)); [|nia].
      rewrite inject_Z_mult. change (10 ^ (-4)) with (/ 10000). field. }
  rewrite Hfeeval. ring.
Qed.

End PricingFacts.

(** X2: [calculateOutput] throws 'Invalid amounts or reserves' on every
    non-positive amount or a non-positive reserve of the direction it prices
    (the direction is A to B when [coinIn] is the pool's first coin, B to A
    for every other [coinIn]); on positive values and a fee rate of
    0..9999 basis points it returns a positive output. *)
Theorem calculateOutput_throws_or_positive (pool : Pool) (coinIn : string) (amountIn : Q) :
  let isA2B := String.eqb (type (coinA pool)) coinIn in
  let reserveIn := if isA2B then reserveA pool else reserveB pool in
  let reserveOut := if isA2B then reserveB pool else reserveA pool in
  ((amountIn <= 0 \/ reserveIn <= 0 \/ reserveOut <= 0)%Q ->
   calculateOutput pool coinIn amountIn = Throw "Invalid amounts or reserves")
  /\ ((0 < amountIn)%Q -> (0 < reserveIn)%Q -> (0 < reserveOut)%Q ->
      0 <= feeRate pool < 10000 ->
      exists amountOut,
        calculateOutput pool coinIn amountIn = Ok amountOut /\ (0 < amountOut)%Q).
Proof.
  intros isA2B reserveIn reserveOut. unfold calculateOutput.
  fold isA2B. fold reserveIn. fold reserveOut. split.
  - intros Hbad. now rewrite (PricingFacts.guard_true _ _ _ Hbad).
  - intros Hamount Hin Hout Hfee.
    rewrite (PricingFacts.guard_false _ _ _ Hamount Hin Hout).
    rewrite DecimalFacts.div_Ok by discriminate. cbn [bind].
    pose proof (PricingFacts.keptShare_exact (feeRate pool) Hfee) as Hkept.
    set (kept := Decimal.sub 1%Q (Decimal.round (inject_Z (feeRate pool) / 10000)%Q)) in *.
    assert (Hkeptpos : (0 < kept)%Q).
    { rewrite Hkept.
      assert (Hrate : (inject_Z (feeRate pool) / 10000 < 1)%Q).
      { apply Qlt_shift_div_r; [reflexivity|].
        change (1 * 10000)%Q with (inject_Z 10000). rewrite <- Zlt_Qlt. lia. }
      lra. }
    assert (Hafter : (0 < Decimal.mul amountIn kept)%Q)
      by (apply DecimalFacts.round_positive, Qmult_lt_0_compat; assumption).
    assert (Hnum : (0 < Decimal.mul (Decimal.mul amountIn kept) reserveOut)%Q)
      by (apply DecimalFacts.round_positive, Qmult_lt_0_compat; assumption).
    assert (Hden : (0 < Decimal.add reserveIn (Decimal.mul amountIn kept))%Q)
      by (apply DecimalFacts.round_positive; lra).
    rewrite DecimalFacts.div_Ok by lra.
    eexists. split; [reflexivity|].
    apply DecimalFacts.round_positive. apply Qlt_shift_div_l; [exact Hden | lra].
Qed.

(** X3: on a whole amount of 1 .. 10^16 - 1 raw units and a fee rate of
    0..9999 basis points, the backend's [calculateOutput] and the SDK's
    [getAmountOut] on the reserves of the same direction give the same
    outcome, although they take the fee in different ways. *)
Theorem calculateOutput_agrees_with_getAmountOut
  (pool : Pool) (coinIn : string) (amount : Z) :
  0 < amount < 10 ^ 16 -> 0 <= feeRate pool < 10000 ->
  let isA2B := String.eqb (type (coinA pool)) coinIn in
  let reserveIn := if isA2B then reserveA pool else reserveB pool in
  let reserveOut := if isA2B then reserveB pool else reserveA pool in
  calculateOutput pool coinIn (inject_Z amount)
  = MathUtils.getAmountOut (inject_Z amount) reserveIn reserveOut (feeRate pool).
Proof.
  intros Hamount Hfee isA2B reserveIn reserveOut.
  unfold calculateOutput, MathUtils.getAmountOut, MathUtils.amountAfterFee,
    MathUtils.calculateFee.
  fold isA2B. fold reserveIn. fold reserveOut.
  destruct (Decimal.lte (inject_Z amount) 0%Q || Decimal.lte reserveIn 0%Q
            || Decimal.lte reserveOut 0%Q); [reflexivity|].
  change (inject_Z BASIS_POINTS) with 10000%Q.
  rewrite DecimalFacts.div_Ok by discriminate. cbn [bind].
  now rewrite (PricingFacts.afterFee_two_ways amount (feeRate pool) Hamount Hfee).
Qed.

Lemma calculateOutput_agrees_with_getAmountOut_witness :
  calculateOutput (examplePool "0xa") "0x1::a::A" (inject_Z 100)
  = MathUtils.getAmountOut (inject_Z 100) (1000 # 1) (2000 # 1) 30.
Proof.
  apply (calculateOutput_agrees_with_getAmountOut (examplePool "0xa") "0x1::a::A" 100).
  - lia.
  - simpl. lia.
Defined.

Module BestPoolFacts.

Import Decimal DecimalFacts.
Local Open Scope Q_scope.

Section Scan.

Variable coinIn : string.
Variable amountIn : Q.

Let priced (pool : Pool) : outcome Decimal.t := calculateOutput pool coinIn amountIn.

(** What the loop of [getBestPoolForPair] holds after the pools [seen]. *)
Definition scanned (seen : list Pool) (acc : outcome (option Pool * Decimal.t)) : Prop :=
  match acc with
  | Ok (None, bestOutput) =>
      bestOutput = 0
      /\ forall pool other, In pool seen -> priced pool = Ok other -> other <= 0
  | Ok (Some best, bestOutput) =>
      priced best = Ok bestOutput /\ 0 < bestOutput
      /\ exists before after,
          seen = before ++ best :: after
          /\ (forall pool other, In pool before -> priced pool = Ok other ->
                                 other < bestOutput)
          /\ (forall pool other, In pool after -> priced pool = Ok other ->
                                 other <= bestOutput)
  | Throw _ => False
  | NonFinite => exists pool, In pool seen /\ priced pool = NonFinite
  end.

Lemma scanned_step (seen : list Pool) (acc : outcome (option Pool * Decimal.t))
  (pool : Pool) :
  scanned seen acc -> scanned (seen ++ [pool]) (considerPool coinIn amountIn acc pool).
Proof.
  destruct acc as [[[best|] bestOutput]|message|]; simpl; intros Hacc.
  - destruct Hacc as (Hbest & Hpos & before & after & Hseen & Hbefore & Hafter).
    fold (priced pool). destruct (priced pool) as [output| |] eqn:Hpriced.
    + destruct (gt output bestOutput) eqn:Hgt; simpl.
      * apply PricingFacts.gt_true in Hgt.
        split; [exact Hpriced|]. split; [lra|].
        exists seen, []. split; [reflexivity|]. split; [|intros ? ? []].
        intros candidate other Hin Hother. subst seen.
        apply in_app_or in Hin. destruct Hin as [Hin|[<-|Hin]].
        -- specialize (Hbefore _ _ Hin Hother). lra.
        -- rewrite Hbest in Hother. injection Hother as <-. exact Hgt.
        -- specialize (Hafter _ _ Hin Hother). lra.
      * apply PricingFacts.gt_false in Hgt.
        split; [exact Hbest|]. split; [exact Hpos|].
        exists before, (after ++ [pool]). subst seen.
        split; [now rewrite <- app_assoc|]. split; [exact Hbefore|].
        intros candidate other Hin Hother. apply in_app_or in Hin.
        destruct Hin as [Hin|[<-|[]]]; [now apply (Hafter candidate)|].
        rewrite Hpriced in Hother. now injection Hother as <-.
    + simpl. split; [exact Hbest|]. split; [exact Hpos|].
      exists before, (after ++ [pool]). subst seen.
      split; [now rewrite <- app_assoc|]. split; [exact Hbefore|].
      intros candidate other Hin Hother. apply in_app_or in Hin.
      destruct Hin as [Hin|[<-|[]]]; [now apply (Hafter candidate)|].
      rewrite Hpriced in Hother. discriminate.
    + simpl. exists pool. split; [apply in_or_app; right; now left | exact Hpriced].
  - destruct Hacc as [-> Hseen].
    fold (priced pool). destruct (priced pool) as [output| |] eqn:Hpriced.
    + destruct (gt output 0) eqn:Hgt; simpl.
      * apply PricingFacts.gt_true in Hgt.
        split; [exact Hpriced|]. split; [exact Hgt|].
        exists seen, []. split; [reflexivity|]. split; [|intros ? ? []].
        intros candidate other Hin Hother. specialize (Hseen _ _ Hin Hother). lra.
      * apply PricingFacts.gt_false in Hgt. split; [reflexivity|].
        intros candidate other Hin Hother. apply in_app_or in Hin.
        destruct Hin as [Hin|[<-|[]]]; [now apply (Hseen candidate)|].
        rewrite Hpriced in Hother. now injection Hother as <-.
    + simpl. split; [reflexivity|].
      intros candidate other Hin Hother. apply in_app_or in Hin.
      destruct Hin as [Hin|[<-|[]]]; [now apply (Hseen candidate)|].
      rewrite Hpriced in Hother. discriminate.
    + simpl. exists pool. split; [apply in_or_app; right; now left | exact Hpriced].
  - contradiction.
  - destruct Hacc as (found & Hin & Hfound). exists found.
    split; [apply in_or_app; now left | exact Hfound].
Qed.

Lemma scanned_fold (rest : list Pool) :
  forall (seen : list Pool) (acc : outcome (option Pool * Decimal.t)),
    scanned seen acc ->
    scanned (seen ++ rest) (fold_left (considerPool coinIn amountIn) rest acc).
Proof.
  induction rest as [|pool rest IH]; simpl; intros seen acc Hacc.
  - now rewrite app_nil_r.
  - replace (seen ++ pool :: rest) with ((seen ++ [pool]) ++ rest)
      by now rewrite <- app_assoc.
    apply IH, scanned_step, Hacc.
Qed.

End Scan.

End BestPoolFacts.

(** X4: [getBestPoolForPair] never throws.  The pool it returns is a pool of
    the pair on which [calculateOutput] returns a positive output, strictly
    larger than the output of every pool listed before it and at least the
    output of every pool listed after it; it returns [null] only when no pool of
    the pair gives a positive output. *)
Theorem getBestPoolForPair_maximises
  (s : PoolService) (coinA coinB : string) (amountIn : Q) :
  let candidates := getPoolsForPair s coinA coinB in
  match getBestPoolForPair s coinA coinB amountIn with
  | Ok (Some best) =>
      exists output before after,
        candidates = before ++ best :: after
        /\ calculateOutput best coinA amountIn = Ok output
        /\ (0 < output)%Q
        /\ (forall pool other, In pool before ->
                               calculateOutput pool coinA amountIn = Ok other ->
                               (other < output)%Q)
        /\ (forall pool other, In pool after ->
                               calculateOutput pool coinA amountIn = Ok other ->
                               (other <= output)%Q)
  | Ok None =>
      forall pool other, In pool candidates ->
                         calculateOutput pool coinA amountIn = Ok other -> (other <= 0)%Q
  | Throw _ => False
  | NonFinite =>
      exists pool, In pool candidates /\ calculateOutput pool coinA amountIn = NonFinite
  end.
Proof.
  intros candidates. unfold getBestPoolForPair. fold candidates.
  destruct (List.length candidates =? 0)%nat eqn:Hempty.
  - apply Nat.eqb_eq, length_zero_iff_nil in Hempty. rewrite Hempty.
    intros pool other [].
  - assert (Hstart : BestPoolFacts.scanned coinA amountIn [] (Ok (None, 0%Q))).
    { simpl. split; [reflexivity | intros ? ? []]. }
    pose proof (BestPoolFacts.scanned_fold coinA amountIn candidates [] _ Hstart) as Hend.
    simpl in Hend.
    destruct (fold_left (considerPool coinA amountIn) candidates (Ok (None, 0%Q)))
      as [[[best|] bestOutput]|message|]; simpl in *.
    + destruct Hend as (Hbest & Hpos & before & after & Hseen & Hbefore & Hafter).
      exists bestOutput, before, after. tauto.
    + tauto.
    + contradiction.
    + exact Hend.
Qed.

(** ** Health endpoints *)

(** X5: the health check answers 200 exactly while the last refresh is less
    than 60000 ms old, the readiness check exactly while the cache holds a
    pool and the last refresh is less than 300000 ms old; so a service that
    passes the health check with a pool loaded passes the readiness check.
    An empty cache is reported as 'No pools loaded' whatever its age, and a
    health check at the time of the refresh answers 200. *)
Theorem health_and_readiness (now : Z) (s : PoolService) (env : Providers) :
  (HealthRoutes.health now s = 200 <-> now - getLastUpdateTime s < 60000)
  /\ (fst (HealthRoutes.ready now s) = 200
      <-> (0 < getPoolCount s)%nat /\ now - getLastUpdateTime s < 300000)
  /\ (HealthRoutes.health now s = 200 -> (0 < getPoolCount s)%nat ->
      HealthRoutes.ready now s = (200, HealthRoutes.Ready (getPoolCount s)
                                         (getLastUpdateTime s)))
  /\ (getPoolCount s = 0%nat ->
      HealthRoutes.ready now s
      = (503, HealthRoutes.NotReady "No pools loaded" 0 (now - getLastUpdateTime s)))
  /\ HealthRoutes.health now (refreshAllPools env now s) = 200.
Proof.
  assert (Hhealth : HealthRoutes.health now s = 200 <-> now - getLastUpdateTime s < 60000).
  { unfold HealthRoutes.health, getHealthStatus, getLastUpdateTime. simpl.
    destruct (Z.ltb_spec (now - lastUpdateTime s) 60000); simpl;
      split; intros; try reflexivity; try lia; discriminate. }
  assert (Hready : fst (HealthRoutes.ready now s) = 200
                   <-> (0 < getPoolCount s)%nat /\ now - getLastUpdateTime s < 300000).
  { unfold HealthRoutes.ready.
    destruct (Nat.ltb_spec 0 (getPoolCount s));
      destruct (Z.ltb_spec (now - getLastUpdateTime s) 300000); simpl;
      split; intros; try reflexivity; try lia; discriminate. }
  split; [exact Hhealth|]. split; [exact Hready|]. split; [|split].
  - intros Hok Hcount. apply Hhealth in Hok. unfold HealthRoutes.ready.
    destruct (Nat.ltb_spec 0 (getPoolCount s)); [|lia].
    destruct (Z.ltb_spec (now - getLastUpdateTime s) 300000); [reflexivity | lia].
  - intros Hcount. unfold HealthRoutes.ready. rewrite Hcount. reflexivity.
  - unfold HealthRoutes.health, getHealthStatus. rewrite refreshAllPools_publish.
    unfold publish.
    destruct (fold_left indexPool _ _) as [byAddress byPair]. simpl.
    replace (now - now) with 0 by lia. reflexivity.
Qed.

(** ** Router service: pool statistics and token list *)

Module StatsFacts.

Lemma own_set {V : Type} (o : JsObject.t V) (k q : string) (v : V) :
  JsObject.own (JsObject.set o k v) q
  = if String.eqb k "__proto__" then JsObject.own o q
    else if String.eqb k q then Some v else JsObject.own o q.
Proof.
  unfold JsObject.own, JsObject.set.
  destruct (String.eqb k "__proto__"); [reflexivity | apply JsMapLaws.get_set].
Qed.

Lemma poolsOf_app (dex : string) (seen : list Pool) (pool : Pool) :
  poolsOf dex (seen ++ [pool])
  = poolsOf dex seen ++ (if String.eqb (dexType pool) dex then [pool] else []).
Proof. unfold poolsOf. now rewrite filter_app. Qed.

Lemma proto_inherits : JsObject.inherits "__proto__" = true.
Proof. reflexivity. Qed.

(** One turn of the counting loop keeps every own entry in step with the
    pools counted so far. *)
Lemma own_countDex (seen : list Pool) (o : JsObject.t RouterService.DexEntry) (pool : Pool) :
  (forall dex, JsObject.own o dex = entryFor dex seen) ->
  forall dex, JsObject.own (RouterService.countDex o pool) dex = entryFor dex (seen ++ [pool]).
Proof.
  intros Hinv dex. unfold RouterService.countDex. rewrite own_set.
  destruct (String.eqb_spec (dexType pool) dex) as [Heq|Hne].
  - unfold entryFor. rewrite poolsOf_app, Heq, String.eqb_refl.
    pose proof (Hinv dex) as Hown. unfold entryFor in Hown.
    unfold JsObject.get. fold (JsObject.own o dex). rewrite Hown.
    rewrite length_app, Nat.add_comm. cbn [List.length Nat.add].
    destruct (String.eqb_spec dex "__proto__") as [Hproto|Hproto].
    + rewrite Hproto in *. rewrite proto_inherits in *.
      destruct (List.length (poolsOf "__proto__" seen)); reflexivity.
    + destruct (List.length (poolsOf dex seen)) as [|n];
        destruct (JsObject.inherits dex); try reflexivity.
      rewrite (Nat2Z.inj_succ (S n)).
      destruct (Z.eqb_spec (Z.of_nat (S n)) 0) as [Hzero|_]; [lia | reflexivity].
  - assert (Hsame : entryFor dex (seen ++ [pool]) = entryFor dex seen).
    { unfold entryFor. rewrite poolsOf_app.
      rewrite (proj2 (String.eqb_neq _ _) Hne), app_nil_r. reflexivity. }
    rewrite Hsame, <- (Hinv dex).
    destruct (String.eqb (dexType pool) "__proto__"); reflexivity.
Qed.

Lemma sumOfCounts_set (o : JsObject.t RouterService.DexEntry) (k : string)
  (entry : RouterService.DexEntry) :
  sumOfCounts (JsMap.set o k entry)
  = sumOfCounts o
    - match JsMap.get o k with Some previous => counted previous | None => 0 end
    + counted entry.
Proof.
  unfold sumOfCounts.
  induction o as [|[k' entry'] o IH]; simpl.
  - lia.
  - destruct (String.eqb_spec k' k) as [->|Hne]; simpl; [lia|].
    rewrite IH. lia.
Qed.

Lemma sumOfCounts_countDex (seen : list Pool) (o : JsObject.t RouterService.DexEntry)
  (pool : Pool) :
  (forall dex, JsObject.own o dex = entryFor dex seen) ->
  sumOfCounts (RouterService.countDex o pool)
  = sumOfCounts o + (if ordinaryDex pool then 1 else 0).
Proof.
  intros Hinv. unfold RouterService.countDex, JsObject.set, JsObject.get, ordinaryDex.
  pose proof (Hinv (dexType pool)) as Hown. unfold JsObject.own, entryFor in Hown.
  destruct (String.eqb_spec (dexType pool) "__proto__") as [Hproto|Hproto].
  - rewrite Hproto, proto_inherits. simpl. lia.
  - rewrite sumOfCounts_set, Hown.
    destruct (List.length (poolsOf (dexType pool) seen)) as [|n];
      destruct (JsObject.inherits (dexType pool)); simpl negb; cbv iota;
      rewrite ?(proj2 (String.eqb_neq _ _) Hproto); simpl counted; lia.
Qed.

Lemma fold_countDex (l : list Pool) :
  forall (seen : list Pool) (o : JsObject.t RouterService.DexEntry),
    (forall dex, JsObject.own o dex = entryFor dex seen) ->
    sumOfCounts o = Z.of_nat (List.length (filter ordinaryDex seen)) ->
    (forall dex, JsObject.own (fold_left RouterService.countDex l o) dex
                 = entryFor dex (seen ++ l))
    /\ sumOfCounts (fold_left RouterService.countDex l o)
       = Z.of_nat (List.length (filter ordinaryDex (seen ++ l))).
Proof.
  induction l as [|pool l IH]; intros seen o Hinv Hsum.
  - simpl. rewrite app_nil_r. split; assumption.
  - cbn [fold_left].
    replace (seen ++ pool :: l) with ((seen ++ [pool]) ++ l) by now rewrite <- app_assoc.
    apply IH.
    + now apply own_countDex.
    + rewrite (sumOfCounts_countDex seen o pool Hinv), Hsum, filter_app, length_app.
      simpl filter. destruct (ordinaryDex pool); simpl List.length; lia.
Qed.

Lemma getPoolsInfo_entries (s : PoolService) :
  (forall dex, JsObject.own (RouterService.poolsByDex (RouterService.getPoolsInfo s)) dex
               = entryFor dex (getAllPools s))
  /\ sumOfCounts (RouterService.poolsByDex (RouterService.getPoolsInfo s))
     = Z.of_nat (List.length (filter ordinaryDex (getAllPools s))).
Proof.
  unfold RouterService.getPoolsInfo. simpl.
  apply (fold_countDex (getAllPools s) [] JsObject.empty); reflexivity.
Qed.

End StatsFacts.

(** X6: in the statistics of [getPoolsInfo], [totalPools] is the number of
    cached pools.  For a DEX whose name is no member of [Object.prototype],
    [poolsByDex] holds the number of cached pools of that DEX (what
    [getPoolsByDex] lists), and an entry exactly when there is such a pool.
    A DEX named like a member of [Object.prototype] never gets a count: for
    [__proto__] no entry is recorded, for any other member the entry is a
    string.  So the counts add up to the number of pools with ordinary DEX
    names, which is [totalPools] when every cached pool has one. *)
Theorem getPoolsInfo_counts (s : PoolService) :
  let info := RouterService.getPoolsInfo s in
  RouterService.totalPools info = List.length (getAllPools s)
  /\ (forall dex, JsObject.inherits dex = false ->
        match JsObject.own (RouterService.poolsByDex info) dex with
        | Some (RouterService.Count count) =>
            count = Z.of_nat (List.length (getPoolsByDex s dex)) /\ 0 < count
        | Some (RouterService.MemberText _ _) => False
        | None => getPoolsByDex s dex = []
        end)
  /\ (forall dex, JsObject.inherits dex = true ->
        match JsObject.own (RouterService.poolsByDex info) dex with
        | Some (RouterService.Count _) => False
        | Some (RouterService.MemberText member ones) =>
            member = dex /\ ones = List.length (getPoolsByDex s dex)
            /\ (0 < ones)%nat /\ dex <> "__proto__"%string
        | None => dex = "__proto__"%string \/ getPoolsByDex s dex = []
        end)
  /\ sumOfCounts (RouterService.poolsByDex info)
     = Z.of_nat (List.length (filter ordinaryDex (getAllPools s)))
  /\ ((forall pool, In pool (getAllPools s) -> JsObject.inherits (dexType pool) = false) ->
      sumOfCounts (RouterService.poolsByDex info) = Z.of_nat (RouterService.totalPools info)).
Proof.
  intros info. subst info.
  destruct (StatsFacts.getPoolsInfo_entries s) as [Hown Hsum].
  assert (Hlisted : forall dex, getPoolsByDex s dex = poolsOf dex (getAllPools s))
    by reflexivity.
  split; [reflexivity|]. split; [|split; [|split]].
  - intros dex Hordinary. rewrite Hown, Hlisted. unfold entryFor. rewrite Hordinary.
    destruct (poolsOf dex (getAllPools s)) as [|pool rest]; [reflexivity|].
    cbn [List.length]. split; [reflexivity | lia].
  - intros dex Hmember. rewrite Hown, Hlisted. unfold entryFor. rewrite Hmember.
    destruct (poolsOf dex (getAllPools s)) as [|pool rest]; [now right|].
    cbn [List.length].
    destruct (String.eqb_spec dex "__proto__") as [Hproto|Hproto]; [now left|].
    repeat split; [lia | exact Hproto].
  - exact Hsum.
  - intros Hall. rewrite Hsum. unfold RouterService.getPoolsInfo. simpl.
    f_equal. f_equal. clear Hown Hsum Hlisted.
    induction (getAllPools s) as [|pool rest IH]; [reflexivity|].
    simpl. unfold ordinaryDex at 1. rewrite (Hall pool) by now left.
    simpl. f_equal. apply IH. intros other Hin. apply Hall. now right.
Qed.

Module TokenFacts.

(** What the token map holds after the pools [seen]. *)
Definition collected (seen : list Pool) (tokenMap : JsMap.t RouterService.Token.t) : Prop :=
  NoDup (JsMap.keys tokenMap)
  /\ (forall key token, In (key, token) tokenMap ->
        RouterService.Token.type token = key
        /\ exists pool, In pool seen
                        /\ (token = RouterService.tokenOf (coinA pool)
                            \/ token = RouterService.tokenOf (coinB pool)))
  /\ (forall pool, In pool seen ->
        In (type (coinA pool)) (JsMap.keys tokenMap)
        /\ In (type (coinB pool)) (JsMap.keys tokenMap)).

Lemma In_set {V : Type} (m : JsMap.t V) (k : string) (v : V) (entry : string * V) :
  In entry (JsMap.set m k v) -> entry = (k, v) \/ In entry m.
Proof.
  induction m as [|[k' v'] m IH]; simpl.
  - intuition congruence.
  - destruct (String.eqb_spec k' k) as [->|Hne]; simpl.
    + intuition congruence.
    + intros [H|H]; [tauto | apply IH in H; tauto].
Qed.

Lemma In_keys_set {V : Type} (m : JsMap.t V) (k q : string) (v : V) :
  In q (JsMap.keys (JsMap.set m k v)) <-> q = k \/ In q (JsMap.keys m).
Proof.
  rewrite JsMapLaws.keys_set_cases. unfold JsMap.has.
  destruct (JsMap.get m k) eqn:Hget.
  - apply JsMapLaws.get_Some_keys in Hget. split; [tauto|]. intros [->|H]; assumption.
  - rewrite in_app_iff. simpl. split; intros; intuition congruence.
Qed.

Lemma collected_step (seen : list Pool) (tokenMap : JsMap.t RouterService.Token.t)
  (pool : Pool) :
  collected seen tokenMap -> collected (seen ++ [pool]) (RouterService.addTokens tokenMap pool).
Proof.
  intros (Hnodup & Hentries & Hkeys). unfold RouterService.addTokens.
  split; [|split].
  - now apply JsMapLaws.keys_set_NoDup, JsMapLaws.keys_set_NoDup.
  - intros key token Hin.
    apply In_set in Hin. destruct Hin as [[= -> ->]|Hin].
    { split; [reflexivity|]. exists pool. split; [apply in_or_app; right; now left | tauto]. }
    apply In_set in Hin. destruct Hin as [[= -> ->]|Hin].
    { split; [reflexivity|]. exists pool. split; [apply in_or_app; right; now left | tauto]. }
    destruct (Hentries key token Hin) as (Htype & from & Hfrom & Hwhich).
    split; [exact Htype|]. exists from. split; [apply in_or_app; now left | exact Hwhich].
  - intros other Hin. rewrite !In_keys_set.
    apply in_app_or in Hin. destruct Hin as [Hin|[<-|[]]]; [|tauto].
    destruct (Hkeys other Hin). tauto.
Qed.

Lemma collected_fold (rest : list Pool) :
  forall (seen : list Pool) (tokenMap : JsMap.t RouterService.Token.t),
    collected seen tokenMap ->
    collected (seen ++ rest) (fold_left RouterService.addTokens rest tokenMap).
Proof.
  induction rest as [|pool rest IH]; simpl; intros seen tokenMap Hacc.
  - now rewrite app_nil_r.
  - replace (seen ++ pool :: rest) with ((seen ++ [pool]) ++ rest)
      by now rewrite <- app_assoc.
    apply IH, collected_step, Hacc.
Qed.

Lemma types_are_keys (tokenMap : JsMap.t RouterService.Token.t) :
  (forall key token, In (key, token) tokenMap -> RouterService.Token.type token = key) ->
  map RouterService.Token.type (JsMap.values tokenMap) = JsMap.keys tokenMap.
Proof.
  induction tokenMap as [|[key token] tokenMap IH]; simpl; intros Hentries.
  - reflexivity.
  - f_equal.
    + apply Hentries. now left.
    + apply IH. intros k t Hin. apply Hentries. now right.
Qed.

End TokenFacts.

(** X7: [getSupportedTokens] lists every coin of every cached pool once:
    the token types are pairwise distinct, a type is listed exactly when it
    is the first or the second coin of a cached pool, and each listed token
    carries the name, symbol and decimals of that coin in one of the
    pools. *)
Theorem getSupportedTokens_lists_each_coin_once (s : PoolService) :
  let tokens := RouterService.getSupportedTokens s in
  NoDup (map RouterService.Token.type tokens)
  /\ (forall coin, In coin (map RouterService.Token.type tokens)
                   <-> exists pool, In pool (getAllPools s)
                                    /\ (coin = type (coinA pool) \/ coin = type (coinB pool)))
  /\ (forall token, In token tokens ->
        exists pool, In pool (getAllPools s)
                     /\ (token = RouterService.tokenOf (coinA pool)
                         \/ token = RouterService.tokenOf (coinB pool))).
Proof.
  intros tokens. subst tokens. unfold RouterService.getSupportedTokens.
  assert (Hstart : TokenFacts.collected [] JsMap.empty).
  { split; [constructor|]. split; [intros ? ? []|intros ? []]. }
  pose proof (TokenFacts.collected_fold (getAllPools s) [] JsMap.empty Hstart) as Hend.
  simpl in Hend. destruct Hend as (Hnodup & Hentries & Hkeys).
  set (tokenMap := fold_left RouterService.addTokens (getAllPools s) JsMap.empty) in *.
  assert (Htypes : map RouterService.Token.type (JsMap.values tokenMap)
                   = JsMap.keys tokenMap).
  { apply TokenFacts.types_are_keys. intros key token Hin. now apply Hentries. }
  rewrite Htypes. split; [exact Hnodup|]. split.
  - intros coin. split.
    + intros Hin. unfold JsMap.keys in Hin. apply in_map_iff in Hin.
      destruct Hin as ([key token] & <- & Hin). simpl.
      destruct (Hentries key token Hin) as (Htype & pool & Hpool & Hwhich).
      exists pool. split; [exact Hpool|].
      destruct Hwhich as [->| ->]; simpl in Htype; intuition congruence.
    + intros (pool & Hpool & [->| ->]); now apply Hkeys.
  - intros token Hin. unfold JsMap.values in Hin. apply in_map_iff in Hin.
    destruct Hin as ([key token'] & Heq & Hin). simpl in Heq. subst token'.
    now destruct (Hentries key token Hin).
Qed.

(** ** Path Finder: the routes it builds *)

Module RouteFacts.

(** A step quotes a cached pool of its pair with the pricing functions of the
    Pool Cache. *)
Definition quotedFromCache (s : PoolService) (step : RouteStep.t) : Prop :=
  exists pool,
    In pool (getPoolsForPair s (RouteStep.coinIn step) (RouteStep.coinOut step))
    /\ RouteStep.poolAddress step = poolAddress pool
    /\ RouteStep.dexType step = dexType pool
    /\ RouteStep.feeRate step = feeRate pool
    /\ calculateOutput pool (RouteStep.coinIn step) (RouteStep.amountIn step)
       = Ok (RouteStep.amountOut step)
    /\ calculatePriceImpact pool (RouteStep.coinIn step) (RouteStep.amountIn step)
       = Ok (RouteStep.priceImpact step).

Definition directRoute (coinIn coinOut : string) (amountIn : Q)
  (excludeDexes : list string) (r : Route.t) : Prop :=
  exists step,
    Route.steps r = [step]
    /\ RouteStep.coinIn step = coinIn /\ RouteStep.coinOut step = coinOut
    /\ RouteStep.amountIn step = amountIn
    /\ Route.amountIn r = amountIn
    /\ Route.amountOut r = RouteStep.amountOut step
    /\ Route.priceImpact r = RouteStep.priceImpact step
    /\ Route.estimatedGas r = 5000
    /\ JsArray.includes excludeDexes (RouteStep.dexType step) = false.

Definition twoHopRoute (coinIn coinOut : string) (amountIn : Q) (r : Route.t) : Prop :=
  exists first second,
    Route.steps r = [first; second]
    /\ RouteStep.coinIn first = coinIn
    /\ RouteStep.coinOut first = RouteStep.coinIn second
    /\ RouteStep.coinOut second = coinOut
    /\ RouteStep.coinOut first <> coinOut
    /\ RouteStep.amountIn first = amountIn
    /\ RouteStep.amountIn second = RouteStep.amountOut first
    /\ Route.amountIn r = amountIn
    /\ Route.amountOut r = RouteStep.amountOut second
    /\ Route.priceImpact r = RouteStep.priceImpact first + RouteStep.priceImpact second
    /\ Route.estimatedGas r = 8000.

(** The routes collected so far satisfy [P], and nothing was thrown. *)
Definition sound (P : Route.t -> Prop) (acc : outcome (list Route.t)) : Prop :=
  match acc with
  | Ok routes => Forall P routes
  | Throw _ => False
  | NonFinite => True
  end.

Lemma sound_impl (P P' : Route.t -> Prop) (acc : outcome (list Route.t)) :
  (forall r, P r -> P' r) -> sound P acc -> sound P' acc.
Proof.
  intros Himpl. destruct acc; simpl; [|tauto|tauto].
  intros Hall. eapply Forall_impl; [|exact Hall]. exact Himpl.
Qed.

Lemma pushRoute_sound (P : Route.t -> Prop) (acc : outcome (list Route.t))
  (built : outcome (option Route.t)) :
  sound P acc -> (forall r, built = Ok (Some r) -> P r) ->
  sound P (RouterService.pushRoute acc built).
Proof.
  destruct acc as [routes|message|]; simpl; intros Hacc Hbuilt; [|contradiction|exact I].
  destruct built as [[r|]|message|]; simpl; try exact Hacc; try exact I.
  apply Forall_app. split; [exact Hacc|]. constructor; [now apply Hbuilt | constructor].
Qed.

Lemma best_is_candidate (s : PoolService) (coinA coinB : string) (amountIn : Q)
  (best : Pool) :
  getBestPoolForPair s coinA coinB amountIn = Ok (Some best) ->
  In best (getPoolsForPair s coinA coinB).
Proof.
  unfold getBestPoolForPair.
  destruct (List.length (getPoolsForPair s coinA coinB) =? 0)%nat; [discriminate|].
  assert (Hstart : BestPoolFacts.scanned coinA amountIn [] (Ok (None, 0%Q))).
  { simpl. split; [reflexivity | intros ? ? []]. }
  pose proof (BestPoolFacts.scanned_fold coinA amountIn (getPoolsForPair s coinA coinB)
                [] _ Hstart) as Hend.
  simpl in Hend.
  destruct (fold_left (considerPool coinA amountIn) (getPoolsForPair s coinA coinB)
              (Ok (None, 0%Q))) as [[[found|] bestOutput]|message|]; simpl;
    try discriminate.
  intros [= ->]. destruct Hend as (_ & _ & before & after & -> & _).
  apply in_or_app. right. now left.
Qed.

Lemma singleHop_direct (s : PoolService) (pool : Pool) (coinIn coinOut : string)
  (amountIn : Q) (excludeDexes : list string) (r : Route.t) :
  In pool (getPoolsForPair s coinIn coinOut) ->
  JsArray.includes excludeDexes (dexType pool) = false ->
  RouterService.buildSingleHopRoute pool coinIn coinOut amountIn = Ok (Some r) ->
  directRoute coinIn coinOut amountIn excludeDexes r
  /\ Forall (quotedFromCache s) (Route.steps r).
Proof.
  intros Hin Hallowed. unfold RouterService.buildSingleHopRoute, RouterService.singleHopBody.
  destruct (calculateOutput pool coinIn amountIn) as [amountOut| |] eqn:Hout;
    simpl; try discriminate.
  destruct (calculatePriceImpact pool coinIn amountIn) as [impact| |] eqn:Himpact;
    simpl; try discriminate.
  intros [= <-]. split.
  - eexists. simpl. repeat split; try reflexivity. exact Hallowed.
  - simpl. constructor; [|constructor].
    exists pool. simpl. repeat split; try reflexivity; assumption.
Qed.

Lemma twoHop_built (s : PoolService) (coinIn intermediate coinOut : string)
  (amountIn : Q) (excludeDexes : list string) (r : Route.t) :
  intermediate <> coinOut ->
  RouterService.build2HopRoute s coinIn intermediate coinOut amountIn excludeDexes
  = Ok (Some r) ->
  twoHopRoute coinIn coinOut amountIn r /\ Forall (quotedFromCache s) (Route.steps r).
Proof.
  intros Hdistinct. unfold RouterService.build2HopRoute.
  destruct (List.length (filter _ (getPoolsForPair s coinIn intermediate)) =? 0)%nat;
    [discriminate|].
  destruct (getBestPoolForPair s coinIn intermediate amountIn) as [[bestFirst|]| |]
    eqn:Hfirst; simpl; try discriminate.
  destruct (calculateOutput bestFirst coinIn amountIn) as [firstOutput| |] eqn:Hout1;
    simpl; try discriminate.
  destruct (List.length (filter _ (getPoolsForPair s intermediate coinOut)) =? 0)%nat;
    [discriminate|].
  destruct (getBestPoolForPair s intermediate coinOut firstOutput) as [[bestSecond|]| |]
    eqn:Hsecond; simpl; try discriminate.
  destruct (calculateOutput bestSecond intermediate firstOutput) as [finalOutput| |]
    eqn:Hout2; simpl; try discriminate.
  destruct (calculatePriceImpact bestFirst coinIn amountIn) as [impact1| |] eqn:Himpact1;
    simpl; try discriminate.
  destruct (calculatePriceImpact bestSecond intermediate firstOutput) as [impact2| |]
    eqn:Himpact2; simpl; try discriminate.
  intros [= <-]. apply best_is_candidate in Hfirst, Hsecond. split.
  - do 2 eexists. simpl. repeat split; try reflexivity. exact Hdistinct.
  - simpl. constructor; [|constructor; [|constructor]].
    + exists bestFirst. simpl. repeat split; try reflexivity; assumption.
    + exists bestSecond. simpl. repeat split; try reflexivity; assumption.
Qed.

Lemma intermediate_not_destination (coinIn coinOut : string) (excludeDexes : list string)
  (allPools : list Pool) :
  forall intermediateTokens : JsSet.t,
    Forall (fun coin => coin <> coinOut) intermediateTokens ->
    Forall (fun coin => coin <> coinOut)
      (fold_left (RouterService.collectIntermediate coinIn coinOut excludeDexes)
         allPools intermediateTokens).
Proof.
  induction allPools as [|pool allPools IH]; simpl; intros tokens Htokens.
  - exact Htokens.
  - apply IH. unfold RouterService.collectIntermediate.
    destruct (JsArray.includes excludeDexes (dexType pool)); [exact Htokens|].
    destruct (String.eqb (type (coinA pool)) coinIn || String.eqb (type (coinB pool)) coinIn);
      [|exact Htokens].
    set (otherCoin := if String.eqb (type (coinA pool)) coinIn
                      then type (coinB pool) else type (coinA pool)).
    destruct (String.eqb_spec otherCoin coinOut) as [Heq|Hne]; simpl; [exact Htokens|].
    unfold JsSet.add. destruct (JsSet.has tokens otherCoin); [exact Htokens|].
    apply Forall_app. split; [exact Htokens | constructor; [exact Hne | constructor]].
Qed.

Lemma findMultiHopRoutes_sound (s : PoolService) (coinIn coinOut : string)
  (amountIn : Q) (maxHops : Z) (excludeDexes : list string) :
  sound (fun r => twoHopRoute coinIn coinOut amountIn r
                  /\ Forall (quotedFromCache s) (Route.steps r))
    (RouterService.findMultiHopRoutes s coinIn coinOut amountIn maxHops excludeDexes).
Proof.
  unfold RouterService.findMultiHopRoutes.
  pose proof (intermediate_not_destination coinIn coinOut excludeDexes (getAllPools s) []
                (Forall_nil _)) as Htokens.
  set (tokens := fold_left (RouterService.collectIntermediate coinIn coinOut excludeDexes)
                   (getAllPools s) []) in *.
  assert (Hgen : forall acc,
             sound (fun r => twoHopRoute coinIn coinOut amountIn r
                             /\ Forall (quotedFromCache s) (Route.steps r)) acc ->
             sound (fun r => twoHopRoute coinIn coinOut amountIn r
                             /\ Forall (quotedFromCache s) (Route.steps r))
               (fold_left
                  (fun acc intermediateCoin =>
                     RouterService.pushRoute acc
                       (RouterService.build2HopRoute s coinIn intermediateCoin coinOut
                          amountIn excludeDexes)) tokens acc)).
  { induction Htokens as [|coin tokens Hcoin Htokens IH]; simpl; intros acc Hacc.
    - exact Hacc.
    - apply IH, pushRoute_sound; [exact Hacc|].
      intros r Hbuilt. now apply (twoHop_built s coinIn coin coinOut amountIn excludeDexes). }
  apply Hgen. simpl. constructor.
Qed.

Lemma findDirectRoutes_sound (s : PoolService) (coinIn coinOut : string)
  (amountIn : Q) (excludeDexes : list string) :
  sound (fun r => directRoute coinIn coinOut amountIn excludeDexes r
                  /\ Forall (quotedFromCache s) (Route.steps r))
    (fold_left
       (fun acc pool =>
          if JsArray.includes excludeDexes (dexType pool) then acc
          else RouterService.pushRoute acc
                 (RouterService.buildSingleHopRoute pool coinIn coinOut amountIn))
       (getPoolsForPair s coinIn coinOut) (Ok [])).
Proof.
  assert (Hgen : forall candidates acc,
             incl candidates (getPoolsForPair s coinIn coinOut) ->
             sound (fun r => directRoute coinIn coinOut amountIn excludeDexes r
                             /\ Forall (quotedFromCache s) (Route.steps r)) acc ->
             sound (fun r => directRoute coinIn coinOut amountIn excludeDexes r
                             /\ Forall (quotedFromCache s) (Route.steps r))
               (fold_left
                  (fun acc pool =>
                     if JsArray.includes excludeDexes (dexType pool) then acc
                     else RouterService.pushRoute acc
                            (RouterService.buildSingleHopRoute pool coinIn coinOut amountIn))
                  candidates acc)).
  { intros candidates.
    induction candidates as [|pool candidates IH]; simpl; intros acc Hincl Hacc.
    - exact Hacc.
    - apply IH; [intros p Hp; apply Hincl; now right|].
      destruct (JsArray.includes excludeDexes (dexType pool)) eqn:Hallowed; [exact Hacc|].
      apply pushRoute_sound; [exact Hacc|].
      intros r Hbuilt.
      apply (singleHop_direct s pool coinIn coinOut amountIn excludeDexes r);
        [apply Hincl; now left | exact Hallowed | exact Hbuilt]. }
  apply Hgen; [apply incl_refl | simpl; constructor].
Qed.

Lemma findAllRoutes_sound (s : PoolService) (coinIn coinOut : string)
  (amountIn : Q) (maxHops : Z) (excludeDexes : list string) :
  sound (fun r => (directRoute coinIn coinOut amountIn excludeDexes r
                   \/ (1 < maxHops /\ twoHopRoute coinIn coinOut amountIn r))
                  /\ Forall (quotedFromCache s) (Route.steps r))
    (RouterService.findAllRoutes s coinIn coinOut amountIn maxHops excludeDexes).
Proof.
  unfold RouterService.findAllRoutes.
  pose proof (findDirectRoutes_sound s coinIn coinOut amountIn excludeDexes) as Hdirect.
  destruct (fold_left _ (getPoolsForPair s coinIn coinOut) (Ok [])) as [routes|message|];
    simpl in *; [|contradiction|exact I].
  destruct (Z.ltb_spec 1 maxHops) as [Hhops|Hhops].
  - pose proof (findMultiHopRoutes_sound s coinIn coinOut amountIn maxHops excludeDexes)
      as Hmulti.
    destruct (RouterService.findMultiHopRoutes s coinIn coinOut amountIn maxHops excludeDexes)
      as [multiHopRoutes|message|]; simpl in *; [|contradiction|exact I].
    apply Forall_app. split.
    + eapply Forall_impl; [|exact Hdirect]. simpl. tauto.
    + eapply Forall_impl; [|exact Hmulti]. simpl. tauto.
  - simpl. eapply Forall_impl; [|exact Hdirect]. simpl. tauto.
Qed.

End RouteFacts.

(** X8: [findAllRoutes] of the backend never throws, and every route it
    returns is either a direct route (one step from [coinIn] to [coinOut] for
    the requested amount, on a DEX that is not excluded, gas 5000) or, when
    [maxHops > 1], a two-step route (the steps connect through an
    intermediate coin other than [coinOut], the second step takes the first
    step's output, the price impacts add up, gas 8000): no route has more
    than two steps whatever [maxHops] is.  Each step carries the address,
    DEX and fee rate of a cached pool of the step's pair and the output and
    price impact the Pool Cache computes on that pool. *)
Theorem findAllRoutes_builds_wellformed_routes
  (s : PoolService) (coinIn coinOut : string) (amountIn : Q) (maxHops : Z)
  (excludeDexes : list string) :
  match RouterService.findAllRoutes s coinIn coinOut amountIn maxHops excludeDexes with
  | Ok found =>
      Forall
        (fun r =>
           (RouteFacts.directRoute coinIn coinOut amountIn excludeDexes r
            \/ (1 < maxHops /\ RouteFacts.twoHopRoute coinIn coinOut amountIn r))
           /\ Forall (RouteFacts.quotedFromCache s) (Route.steps r))
        found
  | Throw _ => False
  | NonFinite => True
  end.
Proof.
  exact (RouteFacts.findAllRoutes_sound s coinIn coinOut amountIn maxHops excludeDexes).
Qed.

(** X9: the two-hop builder consults [excludeDexes] only to test that each
    hop has some pool outside the excluded DEXes; the pool of a hop is then
    the best of all the pools of the pair.  So whenever both hops pass that
    test the route is the one built with no exclusion at all, and it can go
    through an excluded DEX. *)
Theorem build2HopRoute_ignores_exclusion
  (s : PoolService) (coinIn intermediate coinOut : string) (amountIn : Q)
  (excludeDexes : list string) :
  filter (RouterService.notExcluded excludeDexes) (getPoolsForPair s coinIn intermediate)
  <> [] ->
  filter (RouterService.notExcluded excludeDexes) (getPoolsForPair s intermediate coinOut)
  <> [] ->
  RouterService.build2HopRoute s coinIn intermediate coinOut amountIn excludeDexes
  = RouterService.build2HopRoute s coinIn intermediate coinOut amountIn [].
Proof.
  intros Hfirst Hsecond.
  assert (Hnone : forall pools, filter (RouterService.notExcluded []) pools = pools).
  { intros pools. induction pools as [|pool pools IH]; simpl; [reflexivity | now rewrite IH]. }
  assert (Htest : forall pools : list Pool, pools <> [] -> (List.length pools =? 0)%nat = false).
  { intros [|pool pools] Hne; [contradiction | reflexivity]. }
  assert (Hfirst' : getPoolsForPair s coinIn intermediate <> []).
  { intros Hempty. apply Hfirst. now rewrite Hempty. }
  assert (Hsecond' : getPoolsForPair s intermediate coinOut <> []).
  { intros Hempty. apply Hsecond. now rewrite Hempty. }
  unfold RouterService.build2HopRoute.
  rewrite !Hnone, (Htest _ Hfirst), (Htest _ Hfirst'), (Htest _ Hsecond),
    (Htest _ Hsecond').
  reflexivity.
Qed.

Lemma build2HopRoute_ignores_exclusion_witness :
  RouterService.build2HopRoute triangle "0x1::a::A" "0x1::m::M" "0x1::b::B" (100 # 1)
    ["CETUS"%string]
  = RouterService.build2HopRoute triangle "0x1::a::A" "0x1::m::M" "0x1::b::B" (100 # 1) []
  /\ match RouterService.build2HopRoute triangle "0x1::a::A" "0x1::m::M" "0x1::b::B"
             (100 # 1) ["CETUS"%string] with
     | Ok (Some r) => map RouteStep.dexType (Route.steps r) = ["CETUS"%string; "PANCAKE"%string]
     | _ => False
     end.
Proof.
  split.
  - apply (build2HopRoute_ignores_exclusion triangle "0x1::a::A" "0x1::m::M" "0x1::b::B"
             (100 # 1) ["CETUS"%string]); vm_compute; discriminate.
  - vm_compute. reflexivity.
Defined.

(** X10: [findBestRoute] of the backend never throws.  With the defaults
    [excludeDexes = []] and [maxHops = 3] for absent fields, it answers
    [null] exactly when the Path Finder found no route; otherwise the best
    route and the alternatives are routes the Path Finder found, and the
    alternatives number [min(4, n - 1)] for [n] routes found. *)
Theorem findBestRoute_answers (s : PoolService) (request : QuoteRequest.t) :
  let excludeDexes :=
    match QuoteRequest.excludeDexes request with Some e => e | None => [] end in
  let maxHops :=
    match QuoteRequest.maxHops request with Some h => h | None => 3 end in
  let found :=
    RouterService.findAllRoutes s (QuoteRequest.coinIn request)
      (QuoteRequest.coinOut request) (QuoteRequest.amountIn request) maxHops excludeDexes in
  match RouterService.findBestRoute s request with
  | Ok (Some response) =>
      exists allRoutes,
        found = Ok allRoutes
        /\ In (route response) allRoutes
        /\ incl (routes response) allRoutes
        /\ List.length (routes response) = Nat.min 4 (List.length allRoutes - 1)
  | Ok None => found = Ok []
  | Throw _ => False
  | NonFinite => found = NonFinite
  end.
Proof.
  intros excludeDexes maxHops found. unfold RouterService.findBestRoute.
  change RouterService.maxHops with 3. fold excludeDexes. fold maxHops. fold found.
  pose proof (RouteFacts.findAllRoutes_sound s (QuoteRequest.coinIn request)
                (QuoteRequest.coinOut request) (QuoteRequest.amountIn request)
                maxHops excludeDexes) as Hsound.
  fold found in Hsound.
  destruct found as [allRoutes|message|]; simpl in Hsound; [|contradiction|reflexivity].
  pose proof (selectRoutes_shape allRoutes) as Hshape.
  pose proof (JsArrayFacts.sort_perm RouterService.compareFn allRoutes) as Hperm.
  destruct (RouterService.selectRoutes allRoutes) as [response|]; [|now subst].
  destruct Hshape as (Hbest & Hrest & Hlength).
  exists allRoutes. split; [reflexivity|]. split; [|split; [|exact Hlength]].
  - apply (Permutation_in _ Hperm). rewrite Hbest. now left.
  - intros r Hr. apply (Permutation_in _ Hperm). rewrite Hbest. right.
    rewrite Hrest in Hr.
    rewrite <- (firstn_skipn 4 (skipn 1 (JsArray.sort RouterService.compareFn allRoutes))).
    apply in_or_app. now left.
Qed.

(** ** SDK: the pool graph and the paths of the local search *)

Module GraphFacts.
Import AptosRouter.

(** The edges a pool contributes at [coin]. *)
Definition edgesAt (coin : string) (pool : ApiPool) : list Neighbor.t :=
  (if String.eqb (type (coin_a pool)) coin
   then [ {| Neighbor.coinOut := type (coin_b pool); Neighbor.pool := pool |} ] else [])
  ++ (if String.eqb (type (coin_b pool)) coin
      then [ {| Neighbor.coinOut := type (coin_a pool); Neighbor.pool := pool |} ] else []).

Lemma neighborsOf_ensureKey (graph : Graph) (coin q : string) :
  neighborsOf (ensureKey graph coin) q = neighborsOf graph q.
Proof.
  unfold ensureKey, neighborsOf, JsMap.has.
  destruct (JsMap.get graph coin) eqn:Hget; simpl; [reflexivity|].
  rewrite JsMapLaws.get_set. destruct (String.eqb_spec coin q) as [<-|Hne]; [|reflexivity].
  now rewrite Hget.
Qed.

Lemma neighborsOf_pushNeighbor (graph : Graph) (coin q : string) (n : Neighbor.t) :
  neighborsOf (pushNeighbor graph coin n) q
  = neighborsOf graph q ++ (if String.eqb coin q then [n] else []).
Proof.
  unfold pushNeighbor. unfold neighborsOf at 1. rewrite JsMapLaws.get_set.
  destruct (String.eqb_spec coin q) as [<-|Hne]; [reflexivity|].
  fold (neighborsOf graph q). now rewrite app_nil_r.
Qed.

Lemma neighborsOf_fold (pools : list ApiPool) (coin : string) :
  forall graph : Graph,
    neighborsOf
      (fold_left
         (fun graph pool =>
            let coinA := type (coin_a pool) in
            let coinB := type (coin_b pool) in
            let graph := ensureKey graph coinA in
            let graph := ensureKey graph coinB in
            let graph :=
              pushNeighbor graph coinA
                {| Neighbor.coinOut := coinB; Neighbor.pool := pool |} in
            pushNeighbor graph coinB {| Neighbor.coinOut := coinA; Neighbor.pool := pool |})
         pools graph) coin
    = neighborsOf graph coin ++ flat_map (edgesAt coin) pools.
Proof.
  induction pools as [|pool pools IH]; simpl; intros graph.
  - now rewrite app_nil_r.
  - rewrite IH, !neighborsOf_pushNeighbor, !neighborsOf_ensureKey.
    unfold edgesAt. now rewrite <- !app_assoc.
Qed.

End GraphFacts.

(** X11: in the graph built from a list of pools, the neighbours of a coin
    are, pool by pool in list order, an edge to the second coin for each pool
    whose first coin it is and an edge to the first coin for each pool whose
    second coin it is; so every edge has its reverse, labelled with the same
    pool, at the coin it leads to. *)
Theorem buildPoolGraph_neighbors (pools : list AptosRouter.ApiPool) (coin : string) :
  AptosRouter.neighborsOf (AptosRouter.buildPoolGraph pools) coin
  = flat_map (GraphFacts.edgesAt coin) pools
  /\ (forall n, In n (AptosRouter.neighborsOf (AptosRouter.buildPoolGraph pools) coin) ->
        In (AptosRouter.Neighbor.pool n) pools
        /\ In {| AptosRouter.Neighbor.coinOut := coin;
                 AptosRouter.Neighbor.pool := AptosRouter.Neighbor.pool n |}
             (AptosRouter.neighborsOf (AptosRouter.buildPoolGraph pools)
                (AptosRouter.Neighbor.coinOut n))).
Proof.
  assert (Hclosed : forall q,
             AptosRouter.neighborsOf (AptosRouter.buildPoolGraph pools) q
             = flat_map (GraphFacts.edgesAt q) pools).
  { intros q. unfold AptosRouter.buildPoolGraph. now rewrite GraphFacts.neighborsOf_fold. }
  split; [apply Hclosed|].
  intros n Hin. rewrite Hclosed in Hin. apply in_flat_map in Hin.
  destruct Hin as (pool & Hpool & Hedge). rewrite Hclosed.
  unfold GraphFacts.edgesAt in Hedge. apply in_app_or in Hedge.
  destruct Hedge as [Hedge|Hedge].
  - destruct (String.eqb_spec (AptosRouter.type (AptosRouter.coin_a pool)) coin)
      as [Ha|Ha]; [|contradiction].
    destruct Hedge as [<-|[]]. simpl. split; [exact Hpool|].
    apply in_flat_map. exists pool. split; [exact Hpool|].
    unfold GraphFacts.edgesAt. rewrite String.eqb_refl. apply in_or_app. right.
    rewrite Ha. now left.
  - destruct (String.eqb_spec (AptosRouter.type (AptosRouter.coin_b pool)) coin)
      as [Hb|Hb]; [|contradiction].
    destruct Hedge as [<-|[]]. simpl. split; [exact Hpool|].
    apply in_flat_map. exists pool. split; [exact Hpool|].
    unfold GraphFacts.edgesAt. rewrite String.eqb_refl. apply in_or_app. left.
    rewrite Hb. now left.
Qed.

Module PathFacts.
Import AptosRouter.

(** A path whose steps follow edges of the graph, from coin to coin. *)
Fixpoint chain (graph : Graph) (from : string) (path : list Neighbor.t) : Prop :=
  match path with
  | [] => True
  | n :: rest => In n (neighborsOf graph from) /\ chain graph (Neighbor.coinOut n) rest
  end.

(** The coins a path passes, its start included, and the coin it ends at. *)
Definition coinsOf (from : string) (path : list Neighbor.t) : list string :=
  from :: map Neighbor.coinOut path.

Definition endOf (from : string) (path : list Neighbor.t) : string :=
  last (map Neighbor.coinOut path) from.

Definition validPath (graph : Graph) (from to : string) (path : list Neighbor.t) : Prop :=
  path <> [] /\ chain graph from path /\ endOf from path = to
  /\ NoDup (coinsOf from path).

Lemma last_cons {A : Type} (l : list A) :
  forall x d : A, last (x :: l) d = last l x.
Proof.
  induction l as [|y l IH]; intros x d; [reflexivity|].
  change (last (x :: y :: l) d) with (last (y :: l) d).
  now rewrite (IH y d), (IH y x).
Qed.

Lemma endOf_cons (from : string) (m : Neighbor.t) (path : list Neighbor.t) :
  endOf from (m :: path) = endOf (Neighbor.coinOut m) path.
Proof. unfold endOf. simpl map. apply last_cons. Qed.

Lemma endOf_app (from : string) (path : list Neighbor.t) (n : Neighbor.t) :
  endOf from (path ++ [n]) = Neighbor.coinOut n.
Proof. unfold endOf. rewrite map_app. simpl. apply last_last. Qed.

Lemma chain_app (graph : Graph) (path : list Neighbor.t) (n : Neighbor.t) :
  forall from,
    chain graph from path -> In n (neighborsOf graph (endOf from path)) ->
    chain graph from (path ++ [n]).
Proof.
  induction path as [|m path IH]; intros from Hchain Hin.
  - simpl in *. tauto.
  - rewrite endOf_cons in Hin. cbn [chain app] in *.
    destruct Hchain as [Hm Hrest]. split; [exact Hm|]. now apply IH.
Qed.

Lemma coinsOf_app (from : string) (path : list Neighbor.t) (n : Neighbor.t) :
  coinsOf from (path ++ [n]) = coinsOf from path ++ [Neighbor.coinOut n].
Proof. unfold coinsOf. rewrite map_app. reflexivity. Qed.

Lemma coinsOf_split (from : string) (path : list Neighbor.t) :
  coinsOf from path = removelast (coinsOf from path) ++ [endOf from path].
Proof.
  unfold coinsOf, endOf.
  rewrite (app_removelast_last from (l := from :: map Neighbor.coinOut path)) at 1
    by discriminate.
  f_equal. f_equal. simpl. destruct (map Neighbor.coinOut path); reflexivity.
Qed.

Lemma has_add (visited : JsSet.t) (x y : string) :
  JsSet.has (JsSet.add visited x) y = JsSet.has visited y || String.eqb y x.
Proof.
  unfold JsSet.add. destruct (JsSet.has visited x) eqn:Hx.
  - destruct (String.eqb_spec y x) as [->|Hne]; [|now rewrite orb_false_r].
    now rewrite Hx.
  - unfold JsSet.has. rewrite existsb_app. simpl. now rewrite orb_false_r.
Qed.

(** The search from an intermediate state: [currentPath] leads from [start]
    to [coinIn] without passing a coin twice, and [visited] holds the coins
    before [coinIn]. *)
Lemma findAllRoutesFuel_valid (start coinOut : string) (graph : Graph) (maxHops : Z) :
  forall (fuel : nat) (coinIn : string) (currentPath : list Neighbor.t)
         (visited : JsSet.t) (found : list (list Neighbor.t)),
    chain graph start currentPath ->
    endOf start currentPath = coinIn ->
    NoDup (coinsOf start currentPath) ->
    (forall x, JsSet.has visited x = true
               <-> In x (removelast (coinsOf start currentPath))) ->
    findAllRoutesFuel fuel coinIn coinOut graph maxHops currentPath visited = Some found ->
    Forall (validPath graph start coinOut) found.
Proof.
  induction fuel as [|fuel IH];
    intros coinIn currentPath visited found Hchain Hend Hnodup Hvisited; [discriminate|].
  simpl.
  destruct (Z.of_nat (List.length currentPath) >=? maxHops); [intros [= <-]; constructor|].
  destruct (String.eqb coinIn coinOut && (0 <? List.length currentPath)%nat) eqn:Harrived.
  { intros [= <-]. constructor; [|constructor].
    apply andb_true_iff in Harrived. destruct Harrived as [Hsame Hlen].
    apply String.eqb_eq in Hsame. apply Nat.ltb_lt in Hlen.
    split; [|split; [exact Hchain | split; [congruence | exact Hnodup]]].
    intros ->. simpl in Hlen. lia. }
  destruct (JsSet.has visited coinIn); [intros [= <-]; constructor|].
  set (visited' := JsSet.add visited coinIn).
  assert (Hvisited' : forall x, JsSet.has visited' x = true
                                <-> In x (coinsOf start currentPath)).
  { intros x. unfold visited'. rewrite has_add, orb_true_iff, Hvisited.
    rewrite (coinsOf_split start currentPath) at 2. rewrite in_app_iff, Hend. simpl.
    rewrite String.eqb_eq. intuition congruence. }
  assert (Hloop : forall neighbors routes result,
             incl neighbors (neighborsOf graph coinIn) ->
             Forall (validPath graph start coinOut) routes ->
             fold_left
               (fun acc neighbor =>
                  match acc with
                  | None => None
                  | Some routes =>
                      if negb (JsSet.has visited' (Neighbor.coinOut neighbor))
                      then
                        match findAllRoutesFuel fuel (Neighbor.coinOut neighbor) coinOut
                                graph maxHops (currentPath ++ [neighbor]) visited' with
                        | None => None
                        | Some subRoutes => Some (routes ++ subRoutes)
                        end
                      else Some routes
                  end) neighbors (Some routes) = Some result ->
             Forall (validPath graph start coinOut) result).
  { induction neighbors as [|neighbor neighbors IHn]; simpl;
      intros routes result Hincl Hroutes Hfold.
    - injection Hfold as <-. exact Hroutes.
    - assert (Hrest : incl neighbors (neighborsOf graph coinIn))
        by (intros n Hn; apply Hincl; now right).
      destruct (JsSet.has visited' (Neighbor.coinOut neighbor)) eqn:Hseen; simpl in Hfold.
      + now apply (IHn routes result).
      + destruct (findAllRoutesFuel fuel (Neighbor.coinOut neighbor) coinOut graph maxHops
                    (currentPath ++ [neighbor]) visited') as [subRoutes|] eqn:Hsub.
        * apply (IHn (routes ++ subRoutes) result Hrest); [|exact Hfold].
          apply Forall_app. split; [exact Hroutes|].
          apply (IH (Neighbor.coinOut neighbor) (currentPath ++ [neighbor]) visited').
          -- apply chain_app; [exact Hchain|]. rewrite Hend. apply Hincl. now left.
          -- apply endOf_app.
          -- rewrite coinsOf_app. apply NoDup_app; [exact Hnodup | repeat constructor; simpl; tauto |].
             intros x Hx [<-|[]]. apply Hvisited' in Hx. congruence.
          -- intros x. rewrite coinsOf_app, removelast_last. apply Hvisited'.
          -- exact Hsub.
        * clear -Hfold. exfalso. induction neighbors; simpl in Hfold; [discriminate | auto]. }
  intros Hfold. apply (Hloop (neighborsOf graph coinIn) [] found);
    [apply incl_refl | constructor | exact Hfold].
Qed.

Lemma NoDup_app_disjoint {A : Type} (l1 l2 : list A) :
  NoDup (l1 ++ l2) -> forall a, In a l1 -> ~ In a l2.
Proof.
  induction l1 as [|x l1 IH]; simpl; intros Hnodup a Hin; [contradiction|].
  inversion Hnodup as [|? ? Hnotin Hrest]; subst.
  destruct Hin as [->|Hin].
  - intros Hin2. apply Hnotin, in_or_app. now right.
  - now apply IH.
Qed.

Lemma chain_app_inv (graph : Graph) (path : list Neighbor.t) (n : Neighbor.t)
  (rest : list Neighbor.t) :
  forall from,
    chain graph from (path ++ n :: rest) ->
    chain graph from path /\ In n (neighborsOf graph (endOf from path)).
Proof.
  induction path as [|m path IH]; intros from Hchain.
  - simpl in *. tauto.
  - rewrite endOf_cons. cbn [chain app] in *. destruct Hchain as [Hm Hrest].
    apply IH in Hrest. tauto.
Qed.

Lemma endOf_In (from : string) (path : list Neighbor.t) :
  path <> [] -> In (endOf from path) (map Neighbor.coinOut path).
Proof.
  intros Hne. unfold endOf.
  destruct (exists_last (l := map Neighbor.coinOut path)) as (front & final & Hsplit).
  { destruct path; [contradiction | discriminate]. }
  rewrite Hsplit, last_last. apply in_or_app. right. now left.
Qed.

Lemma endOf_In_coins (from : string) (path : list Neighbor.t) :
  In (endOf from path) (coinsOf from path).
Proof.
  rewrite (coinsOf_split from path) at 1. apply in_or_app. right. now left.
Qed.

Lemma coinsOf_app_list (from : string) (path rest : list Neighbor.t) :
  coinsOf from (path ++ rest) = coinsOf from path ++ map Neighbor.coinOut rest.
Proof. unfold coinsOf. now rewrite map_app. Qed.

Lemma endOf_app_list (from : string) (path rest : list Neighbor.t) :
  rest <> [] -> endOf from (path ++ rest) = endOf (endOf from path) rest.
Proof.
  revert from. induction path as [|m path IH]; intros from Hne.
  - reflexivity.
  - simpl app. rewrite !endOf_cons. now apply IH.
Qed.

(** What the loop over the neighbours keeps: the paths collected before it
    and the paths of every neighbour it follows. *)
Lemma loop_keeps (fuel : nat) (coinOut : string) (graph : Graph) (maxHops : Z)
  (currentPath : list Neighbor.t) (visited' : JsSet.t) :
  forall (neighbors : list Neighbor.t) (routes result : list (list Neighbor.t)),
    fold_left
      (fun acc neighbor =>
         match acc with
         | None => None
         | Some routes =>
             if negb (JsSet.has visited' (Neighbor.coinOut neighbor))
             then
               match findAllRoutesFuel fuel (Neighbor.coinOut neighbor) coinOut
                       graph maxHops (currentPath ++ [neighbor]) visited' with
               | None => None
               | Some subRoutes => Some (routes ++ subRoutes)
               end
             else Some routes
         end) neighbors (Some routes) = Some result ->
    incl routes result
    /\ forall n, In n neighbors -> JsSet.has visited' (Neighbor.coinOut n) = false ->
                 exists subRoutes,
                   findAllRoutesFuel fuel (Neighbor.coinOut n) coinOut graph maxHops
                     (currentPath ++ [n]) visited' = Some subRoutes
                   /\ incl subRoutes result.
Proof.
  induction neighbors as [|neighbor neighbors IH]; simpl; intros routes result Hfold.
  - injection Hfold as <-. split; [apply incl_refl | intros n []].
  - destruct (JsSet.has visited' (Neighbor.coinOut neighbor)) eqn:Hseen; simpl in Hfold.
    + destruct (IH _ _ Hfold) as [Hroutes Hrest]. split; [exact Hroutes|].
      intros n [<-|Hin] Hfree; [congruence | now apply Hrest].
    + destruct (findAllRoutesFuel fuel (Neighbor.coinOut neighbor) coinOut graph maxHops
                  (currentPath ++ [neighbor]) visited') as [subRoutes|] eqn:Hsub.
      * destruct (IH _ _ Hfold) as [Hroutes Hrest]. split.
        -- intros r Hr. apply Hroutes, in_or_app. now left.
        -- intros n [<-|Hin] Hfree; [|now apply Hrest].
           exists subRoutes. split; [exact Hsub|].
           intros r Hr. apply Hroutes, in_or_app. now right.
      * exfalso. clear -Hfold. induction neighbors; simpl in Hfold; [discriminate | auto].
Qed.

(** The search finds every path it is asked for. *)
Lemma findAllRoutesFuel_complete (start coinOut : string) (graph : Graph) (maxHops : Z) :
  forall (fuel : nat) (rest currentPath : list Neighbor.t) (coinIn : string)
         (visited : JsSet.t) (found : list (list Neighbor.t)),
    findAllRoutesFuel fuel coinIn coinOut graph maxHops currentPath visited = Some found ->
    endOf start currentPath = coinIn ->
    (forall x, JsSet.has visited x = true
               <-> In x (removelast (coinsOf start currentPath))) ->
    validPath graph start coinOut (currentPath ++ rest) ->
    Z.of_nat (List.length (currentPath ++ rest)) < maxHops ->
    In (currentPath ++ rest) found.
Proof.
  induction fuel as [|fuel IH];
    intros rest currentPath coinIn visited found Hfound Hend Hvisited Hvalid Hlength;
    [discriminate|].
  destruct Hvalid as (Hnonempty & Hchain & Hfinal & Hnodup).
  simpl in Hfound.
  destruct (Z.geb_spec (Z.of_nat (List.length currentPath)) maxHops) as [Hfull|_].
  { rewrite length_app in Hlength. lia. }
  assert (Hprefix : NoDup (coinsOf start currentPath)).
  { rewrite coinsOf_app_list in Hnodup. now apply NoDup_app_remove_r in Hnodup. }
  destruct rest as [|n rest].
  - rewrite app_nil_r in *.
    assert (Harrived : String.eqb coinIn coinOut && (0 <? List.length currentPath)%nat = true).
    { apply andb_true_iff. split.
      - apply String.eqb_eq. congruence.
      - apply Nat.ltb_lt. destruct currentPath; [contradiction | simpl; lia]. }
    rewrite Harrived in Hfound. injection Hfound as <-. now left.
  - assert (Hahead : endOf start (currentPath ++ n :: rest)
                     = endOf coinIn (n :: rest)).
    { rewrite endOf_app_list by discriminate. now rewrite Hend. }
    assert (Hnotyet : coinIn <> coinOut).
    { intros Hsame. rewrite coinsOf_app_list in Hnodup.
      pose proof (NoDup_app_disjoint _ _ Hnodup) as Hdisjoint.
      apply (Hdisjoint coinIn).
      - rewrite <- Hend. apply endOf_In_coins.
      - rewrite Hsame, <- Hfinal, Hahead. apply endOf_In. discriminate. }
    assert (Harrived : String.eqb coinIn coinOut && (0 <? List.length currentPath)%nat = false).
    { apply andb_false_iff. left. now apply String.eqb_neq. }
    rewrite Harrived in Hfound.
    assert (Hfresh : JsSet.has visited coinIn = false).
    { destruct (JsSet.has visited coinIn) eqn:Hseen; [|reflexivity]. exfalso.
      apply Hvisited in Hseen. rewrite (coinsOf_split start currentPath), Hend in Hprefix.
      apply NoDup_remove_2 in Hprefix. rewrite app_nil_r in Hprefix. contradiction. }
    rewrite Hfresh in Hfound.
    set (visited' := JsSet.add visited coinIn) in *.
    assert (Hvisited' : forall x, JsSet.has visited' x = true
                                  <-> In x (coinsOf start currentPath)).
    { intros x. unfold visited'. rewrite has_add, orb_true_iff, Hvisited.
      rewrite (coinsOf_split start currentPath) at 2. rewrite in_app_iff, Hend. simpl.
      rewrite String.eqb_eq. intuition congruence. }
    destruct (chain_app_inv graph currentPath n rest start Hchain) as [_ Hedge].
    rewrite Hend in Hedge.
    assert (Hfree : JsSet.has visited' (Neighbor.coinOut n) = false).
    { destruct (JsSet.has visited' (Neighbor.coinOut n)) eqn:Hseen; [|reflexivity]. exfalso.
      apply Hvisited' in Hseen. rewrite coinsOf_app_list in Hnodup.
      pose proof (NoDup_app_disjoint _ _ Hnodup) as Hdisjoint.
      apply (Hdisjoint (Neighbor.coinOut n) Hseen). now left. }
    destruct (loop_keeps fuel coinOut graph maxHops currentPath visited'
                (neighborsOf graph coinIn) [] found Hfound) as [_ Hkept].
    destruct (Hkept n Hedge Hfree) as (subRoutes & Hsub & Hincl).
    apply Hincl.
    replace (currentPath ++ n :: rest) with ((currentPath ++ [n]) ++ rest) in *
      by now rewrite <- app_assoc.
    apply (IH rest (currentPath ++ [n]) (Neighbor.coinOut n) visited' subRoutes Hsub).
    + apply endOf_app.
    + intros x. rewrite coinsOf_app, removelast_last. apply Hvisited'.
    + repeat split; assumption.
    + exact Hlength.
Qed.

End PathFacts.

(** X12: the local search of the SDK always answers, and every path it
    returns is a path of the graph: it is not empty, its first step is an
    edge at [coinIn], each further step is an edge at the coin the step
    before leads to, it ends at [coinOut], and it passes no coin twice.
    Hence a search from a coin to itself returns no path. *)
Theorem findAllRoutes_returns_simple_paths
  (coinIn coinOut : string) (graph : AptosRouter.Graph) (maxHops : Z) :
  match AptosRouter.findAllRoutes coinIn coinOut graph maxHops with
  | Some found =>
      Forall (PathFacts.validPath graph coinIn coinOut) found
      /\ (coinIn = coinOut -> found = [])
  | None => False
  end.
Proof.
  unfold AptosRouter.findAllRoutes.
  destruct (AptosRouterFacts.findAllRoutesFuel_total coinOut graph maxHops
              (S (Z.to_nat maxHops)) coinIn [] []) as (found & Hfound & _).
  { simpl. lia. }
  rewrite Hfound.
  assert (Hvalid : Forall (PathFacts.validPath graph coinIn coinOut) found).
  { apply (PathFacts.findAllRoutesFuel_valid coinIn coinOut graph maxHops
             (S (Z.to_nat maxHops)) coinIn [] [] found); try exact Hfound.
    - exact I.
    - reflexivity.
    - repeat constructor. simpl. tauto.
    - intros x. simpl. split; [discriminate | tauto]. }
  split; [exact Hvalid|].
  intros Hsame. destruct found as [|path found]; [reflexivity|]. exfalso.
  inversion Hvalid as [|? ? (Hnonempty & _ & Hend & Hnodup) _]; subst.
  unfold PathFacts.endOf, PathFacts.coinsOf in *.
  inversion Hnodup as [|? ? Hnotin _]; subst. apply Hnotin.
  destruct path as [|n path]; [contradiction|].
  rewrite <- Hend at 1.
  destruct (exists_last (l := map AptosRouter.Neighbor.coinOut (n :: path)))
    as (front & final & Hsplit); [discriminate|].
  rewrite Hsplit, last_last. apply in_or_app. right. now left.
Qed.

(** X30: conversely, the local search of the SDK returns every path of the
    graph from [coinIn] to [coinOut] that passes no coin twice and has fewer
    than [maxHops] steps. *)
Theorem findAllRoutes_finds_every_simple_path
  (coinIn coinOut : string) (graph : AptosRouter.Graph) (maxHops : Z)
  (path : list AptosRouter.Neighbor.t) :
  PathFacts.validPath graph coinIn coinOut path ->
  Z.of_nat (List.length path) < maxHops ->
  exists found,
    AptosRouter.findAllRoutes coinIn coinOut graph maxHops = Some found /\ In path found.
Proof.
  intros Hvalid Hlength. unfold AptosRouter.findAllRoutes.
  destruct (AptosRouterFacts.findAllRoutesFuel_total coinOut graph maxHops
              (S (Z.to_nat maxHops)) coinIn [] []) as (found & Hfound & _).
  { simpl. lia. }
  exists found. split; [exact Hfound|].
  apply (PathFacts.findAllRoutesFuel_complete coinIn coinOut graph maxHops
           (S (Z.to_nat maxHops)) path [] coinIn [] found Hfound).
  - reflexivity.
  - intros x. simpl. split; [discriminate | tauto].
  - exact Hvalid.
  - exact Hlength.
Qed.

Lemma findAllRoutes_finds_every_simple_path_witness :
  exists found,
    AptosRouter.findAllRoutes "0x1::a::A" "0x1::b::B"
      (AptosRouter.buildPoolGraph [directPool]) 2 = Some found
    /\ In [enteredFromA] found.
Proof.
  apply (findAllRoutes_finds_every_simple_path "0x1::a::A" "0x1::b::B"
           (AptosRouter.buildPoolGraph [directPool]) 2 [enteredFromA]).
  - split; [discriminate|]. split; [simpl; tauto|]. split; [reflexivity|].
    repeat constructor; simpl; intuition discriminate.
  - simpl. lia.
Defined.

(** ** SDK: pricing a path *)

Module RouteOutputFacts.
Import AptosRouter.

(** The steps of a swap route take the amounts of a chain: each step takes
    what the step before gives. *)
Fixpoint amountsChain (start : Q) (steps : list SwapStep.t) (final : Q) : Prop :=
  match steps with
  | [] => start = final
  | step :: rest =>
      SwapStep.amountIn step = start /\ amountsChain (SwapStep.amountOut step) rest final
  end.

(** How a step of the swap route is labelled from the pool of a path step. *)
Definition labelled (n : Neighbor.t) (step : SwapStep.t) : Prop :=
  SwapStep.coinIn step = type (coin_a (Neighbor.pool n))
  /\ SwapStep.coinOut step = type (coin_b (Neighbor.pool n))
  /\ SwapStep.poolAddress step = pool_address (Neighbor.pool n)
  /\ SwapStep.dexType step = dex_type (Neighbor.pool n)
  /\ SwapStep.feeRate step = fee_rate (Neighbor.pool n).

Definition impactSum (steps : list SwapStep.t) : Z :=
  fold_left (fun sum step => sum + SwapStep.priceImpact step) steps 0.

Lemma amountsChain_app (steps : list SwapStep.t) (step : SwapStep.t) :
  forall start final given,
    amountsChain start steps final -> SwapStep.amountIn step = final ->
    SwapStep.amountOut step = given ->
    amountsChain start (steps ++ [step]) given.
Proof.
  induction steps as [|first steps IH]; simpl; intros start final given Hchain Hin Hout.
  - split; [congruence | exact Hout].
  - destruct Hchain as [Hfirst Hrest]. split; [exact Hfirst|]. now apply (IH _ final).
Qed.

Lemma impactSum_app (steps : list SwapStep.t) (step : SwapStep.t) :
  impactSum (steps ++ [step]) = impactSum steps + SwapStep.priceImpact step.
Proof. unfold impactSum. now rewrite fold_left_app. Qed.

(** The loops of [calculateRouteOutput] and [transformToSwapRoute] run in
    step: same amounts, same failures. *)
Definition inStep (amountIn : Q) (seen : list Neighbor.t) (output : outcome (Q * Z))
  (swap : outcome (Q * list SwapStep.t)) : Prop :=
  match output, swap with
  | Ok (amount, impact), Ok (amount', steps) =>
      amount' = amount /\ impactSum steps = impact
      /\ amountsChain amountIn steps amount
      /\ Forall2 labelled seen steps
  | Throw message, Throw message' => message' = message
  | NonFinite, NonFinite => True
  | _, _ => False
  end.

Lemma inStep_step (amountIn : Q) (seen : list Neighbor.t) (output : outcome (Q * Z))
  (swap : outcome (Q * list SwapStep.t)) (n : Neighbor.t) :
  inStep amountIn seen output swap ->
  inStep amountIn (seen ++ [n]) (routeOutputStep output n) (swapRouteStep swap n).
Proof.
  unfold inStep, routeOutputStep, swapRouteStep.
  destruct output as [[amount impact]|message|], swap as [[amount' steps]|message'|];
    simpl; try contradiction; try tauto.
  intros (-> & Himpact & Hchain & Hlabels).
  rewrite String.eqb_refl.
  destruct (MathUtils.getAmountOut amount (reserve_a (Neighbor.pool n))
              (reserve_b (Neighbor.pool n)) (fee_rate (Neighbor.pool n)))
    as [amountOut|message|]; simpl; [|reflexivity|exact I].
  destruct (MathUtils.calculatePriceImpact amount amountOut (reserve_a (Neighbor.pool n))
              (reserve_b (Neighbor.pool n))) as [priceImpact|message|];
    simpl; [|reflexivity|exact I].
  split; [reflexivity|]. split; [rewrite impactSum_app; simpl; lia|]. split.
  - now apply (amountsChain_app steps _ amountIn amount).

  - apply Forall2_app; [exact Hlabels|]. constructor; [|constructor].
    repeat split.
Qed.

Lemma inStep_fold (amountIn : Q) (rest : list Neighbor.t) :
  forall seen output swap,
    inStep amountIn seen output swap ->
    inStep amountIn (seen ++ rest) (fold_left routeOutputStep rest output)
      (fold_left swapRouteStep rest swap).
Proof.
  induction rest as [|n rest IH]; simpl; intros seen output swap Hacc.
  - now rewrite app_nil_r.
  - replace (seen ++ n :: rest) with ((seen ++ [n]) ++ rest) by now rewrite <- app_assoc.
    apply IH, inStep_step, Hacc.
Qed.

Lemma fold_by_pool {S : Type} (step : S -> Neighbor.t -> S)
  (byPool : S -> ApiPool -> S) :
  (forall acc n, step acc n = byPool acc (Neighbor.pool n)) ->
  forall hops acc, fold_left step hops acc = fold_left byPool (map Neighbor.pool hops) acc.
Proof.
  intros Hstep hops. induction hops as [|n hops IH]; simpl; intros acc; [reflexivity|].
  now rewrite Hstep, IH.
Qed.

End RouteOutputFacts.

(** X13: [transformToSwapRoute] prices a path as [calculateRouteOutput]
    does.  When [calculateRouteOutput] returns, [transformToSwapRoute] on its
    [amountOut] returns a swap route with that [amountOut] and the same total
    price impact, one step per path step, each step taking the amount the
    step before gives (the first one [amountIn], the last one giving
    [amountOut]); every step is labelled from the pool's first coin to its
    second coin; the gas estimate is 5000 per step.  When
    [calculateRouteOutput] throws, [transformToSwapRoute] throws the same
    error. *)
Theorem transformToSwapRoute_agrees (route : list AptosRouter.Neighbor.t) (amountIn : Q) :
  match AptosRouter.calculateRouteOutput route amountIn with
  | Ok (amountOut, priceImpact) =>
      exists swap,
        AptosRouter.transformToSwapRoute route amountIn amountOut = Ok swap
        /\ AptosRouter.SwapRoute.amountIn swap = amountIn
        /\ AptosRouter.SwapRoute.amountOut swap = amountOut
        /\ AptosRouter.SwapRoute.priceImpact swap = priceImpact
        /\ RouteOutputFacts.amountsChain amountIn (AptosRouter.SwapRoute.steps swap) amountOut
        /\ Forall2 RouteOutputFacts.labelled route (AptosRouter.SwapRoute.steps swap)
        /\ AptosRouter.SwapRoute.estimatedGas swap = 5000 * Z.of_nat (List.length route)
  | Throw message =>
      forall final, AptosRouter.transformToSwapRoute route amountIn final = Throw message
  | NonFinite =>
      forall final, AptosRouter.transformToSwapRoute route amountIn final = NonFinite
  end.
Proof.
  unfold AptosRouter.calculateRouteOutput, AptosRouter.transformToSwapRoute.
  assert (Hstart : RouteOutputFacts.inStep amountIn [] (Ok (amountIn, 0)) (Ok (amountIn, []))).
  { simpl. repeat split. constructor. }
  pose proof (RouteOutputFacts.inStep_fold amountIn route [] _ _ Hstart) as Hend.
  simpl in Hend. unfold RouteOutputFacts.inStep in Hend.
  destruct (fold_left AptosRouter.routeOutputStep route (Ok (amountIn, 0)))
    as [[amountOut priceImpact]|message|],
    (fold_left AptosRouter.swapRouteStep route (Ok (amountIn, [])))
    as [[amount' steps]|message'|]; try contradiction.
  - destruct Hend as (-> & Himpact & Hchain & Hlabels).
    unfold MathUtils.calculateFee.
    rewrite (DecimalFacts.div_Ok _ _ MathFacts.bp_nonzero). simpl.
    eexists. split; [reflexivity|]. simpl.
    repeat split; try assumption.
    apply Forall2_length in Hlabels. now rewrite Hlabels.
  - subst message'. reflexivity.
  - reflexivity.
Qed.

(** X14: the price of a path depends on its pools only, not on the
    direction in which the path crosses them: [isA2B] compares a pool with
    itself, so every step is priced from [reserve_a] to [reserve_b].  Two
    paths through the same pools get the same output, price impact and swap
    route. *)
Theorem route_pricing_ignores_direction
  (route route' : list AptosRouter.Neighbor.t) (amountIn final : Q) :
  map AptosRouter.Neighbor.pool route = map AptosRouter.Neighbor.pool route' ->
  AptosRouter.calculateRouteOutput route amountIn
  = AptosRouter.calculateRouteOutput route' amountIn
  /\ AptosRouter.transformToSwapRoute route amountIn final
     = AptosRouter.transformToSwapRoute route' amountIn final.
Proof.
  intros Hpools.
  unfold AptosRouter.calculateRouteOutput, AptosRouter.transformToSwapRoute.
  rewrite (RouteOutputFacts.fold_by_pool AptosRouter.routeOutputStep
             (fun acc pool =>
                AptosRouter.routeOutputStep acc
                  {| AptosRouter.Neighbor.coinOut := ""; AptosRouter.Neighbor.pool := pool |})
             (fun acc n => eq_refl) route).
  rewrite (RouteOutputFacts.fold_by_pool AptosRouter.routeOutputStep
             (fun acc pool =>
                AptosRouter.routeOutputStep acc
                  {| AptosRouter.Neighbor.coinOut := ""; AptosRouter.Neighbor.pool := pool |})
             (fun acc n => eq_refl) route').
  rewrite (RouteOutputFacts.fold_by_pool AptosRouter.swapRouteStep
             (fun acc pool =>
                AptosRouter.swapRouteStep acc
                  {| AptosRouter.Neighbor.coinOut := ""; AptosRouter.Neighbor.pool := pool |})
             (fun acc n => eq_refl) route).
  rewrite (RouteOutputFacts.fold_by_pool AptosRouter.swapRouteStep
             (fun acc pool =>
                AptosRouter.swapRouteStep acc
                  {| AptosRouter.Neighbor.coinOut := ""; AptosRouter.Neighbor.pool := pool |})
             (fun acc n => eq_refl) route').
  now rewrite Hpools.
Qed.

Lemma route_pricing_ignores_direction_witness :
  AptosRouter.calculateRouteOutput [enteredFromA] (100 # 1)
  = AptosRouter.calculateRouteOutput [enteredFromB] (100 # 1)
  /\ AptosRouter.transformToSwapRoute [enteredFromA] (100 # 1) (181 # 1)
     = AptosRouter.transformToSwapRoute [enteredFromB] (100 # 1) (181 # 1).
Proof.
  apply (route_pricing_ignores_direction [enteredFromA] [enteredFromB] (100 # 1) (181 # 1)).
  reflexivity.
Defined.

(** ** SDK: the registry of DEX configurations *)

(** X15: [updateDexInfo] changes the entry of the named DEX only: a
    registered DEX gets its entry overlaid with the fields given, a DEX that
    is not registered stays unregistered, the entries of all other DEXes and
    the order of the registry are unchanged. *)
Theorem updateDexInfo_changes_one_entry
  (dexInfos : JsMap.t AptosRouter.DexInfo.t) (dexType other : string)
  (info : AptosRouter.PartialDexInfo.t) :
  JsMap.keys (AptosRouter.updateDexInfo dexInfos dexType info) = JsMap.keys dexInfos
  /\ AptosRouter.getDexInfo (AptosRouter.updateDexInfo dexInfos dexType info) dexType
     = option_map (fun existing => AptosRouter.spread existing info)
         (AptosRouter.getDexInfo dexInfos dexType)
  /\ (other <> dexType ->
      AptosRouter.getDexInfo (AptosRouter.updateDexInfo dexInfos dexType info) other
      = AptosRouter.getDexInfo dexInfos other).
Proof.
  unfold AptosRouter.updateDexInfo, AptosRouter.getDexInfo.
  destruct (JsMap.get dexInfos dexType) as [existing|] eqn:Hget; simpl.
  - split; [|split].
    + apply JsMapFacts.keys_set. now apply JsMapLaws.get_Some_keys in Hget.
    + rewrite JsMapLaws.get_set. now rewrite String.eqb_refl.
    + intros Hne. rewrite JsMapLaws.get_set.
      destruct (String.eqb_spec dexType other); [congruence | reflexivity].
  - split; [reflexivity|]. split; [exact Hget | reflexivity].
Qed.

(** ** AMM Math: tolerance, amounts in display units, fees *)

Module MathMoreFacts.

Import Decimal DecimalFacts.
Local Open Scope Q_scope.

Lemma pow10_pos (k : Z) : 0 < pow10 k.
Proof. unfold pow10. apply (RoundingFacts.Bpow_pos 10). lia. Qed.

Lemma pow10_cancel (k : Z) (x : Q) : x / pow10 k * pow10 k == x.
Proof. pose proof (pow10_pos k). field. lra. Qed.

Lemma pow10_opp (k : Z) : pow10 (- k) == / pow10 k.
Proof. unfold pow10. apply Qpower_opp. Qed.

Lemma eq_sym (x y : Q) : eq x y = eq y x.
Proof.
  unfold eq. destruct (Qeq_bool x y) eqn:Hxy, (Qeq_bool y x) eqn:Hyx; try reflexivity.
  - apply Qeq_bool_iff in Hxy. symmetry in Hxy. apply Qeq_bool_iff in Hxy. congruence.
  - apply Qeq_bool_iff in Hyx. symmetry in Hyx. apply Qeq_bool_iff in Hyx. congruence.
Qed.

Lemma lt_true (x y : Q) : lt x y = true <-> x < y.
Proof.
  unfold lt. destruct (Qle_bool y x) eqn:Htest; simpl.
  - apply Qle_bool_iff in Htest. split; [discriminate | lra].
  - split; [|reflexivity]. intros _. apply Qnot_le_lt. intros Hle.
    apply Qle_bool_iff in Hle. congruence.
Qed.

Lemma lt_false' (x y : Q) : lt x y = false <-> y <= x.
Proof.
  unfold lt. destruct (Qle_bool y x) eqn:Htest; simpl.
  - apply Qle_bool_iff in Htest. tauto.
  - split; [discriminate|]. intros Hle. apply Qle_bool_iff in Hle. congruence.
Qed.

Lemma max_sym (x y : Q) : ~ x == y -> max x y = max y x.
Proof.
  intros Hne. unfold max.
  destruct (lt x y) eqn:Hxy, (lt y x) eqn:Hyx; try reflexivity.
  - apply lt_true in Hxy, Hyx. lra.
  - apply lt_false' in Hxy, Hyx. exfalso. apply Hne. lra.
Qed.

Lemma min_sym (x y : Q) : ~ x == y -> min x y = min y x.
Proof.
  intros Hne. unfold min.
  destruct (gt x y) eqn:Hxy, (gt y x) eqn:Hyx; try reflexivity.
  - apply PricingFacts.gt_true in Hxy, Hyx. lra.
  - apply PricingFacts.gt_false in Hxy, Hyx. exfalso. apply Hne. lra.
Qed.

Lemma max_min_gap (x y : Q) : ~ x == y -> min x y < max x y /\ (max x y == x \/ max x y == y).
Proof.
  intros Hne. unfold max, min.
  destruct (lt x y) eqn:Hlt, (gt x y) eqn:Hgt.
  - apply lt_true in Hlt. apply PricingFacts.gt_true in Hgt. lra.
  - apply lt_true in Hlt. split; [exact Hlt | right; reflexivity].
  - apply PricingFacts.gt_true in Hgt. split; [exact Hgt | left; reflexivity].
  - apply lt_false' in Hlt. apply PricingFacts.gt_false in Hgt. exfalso. apply Hne. lra.
Qed.

(** The rate of a whole number of basis points is exact. *)
Lemma rate_exact (bp : Z) :
  (0 <= bp <= 10000)%Z ->
  round (inject_Z bp / inject_Z BASIS_POINTS) == inject_Z bp / inject_Z BASIS_POINTS.
Proof.
  intros Hbp. destruct (Z.eq_dec bp 0) as [->|Hnonzero].
  - reflexivity.
  - apply (round_representable _ bp (-4)); [|lia].
    unfold BASIS_POINTS, Qdiv. apply Qmult_comp; reflexivity.
Qed.

Lemma rate_range (bp : Z) :
  (0 <= bp <= 10000)%Z ->
  0 <= inject_Z bp / inject_Z BASIS_POINTS <= 1.
Proof.
  intros Hbp. unfold BASIS_POINTS. split.
  - apply Qle_shift_div_l; [reflexivity|]. rewrite Qmult_0_l.
    change 0 with (inject_Z 0). rewrite <- Zle_Qle. lia.
  - apply Qle_shift_div_r; [reflexivity|].
    change (1 * inject_Z 10000) with (inject_Z 10000). rewrite <- Zle_Qle. lia.
Qed.

(** A share of a whole amount below 10^16, in basis points, is exact. *)
Lemma share_exact (amount bp : Z) :
  (0 <= amount < 10 ^ 16)%Z -> (0 <= bp <= 10000)%Z ->
  mul (inject_Z amount) (round (inject_Z bp / inject_Z BASIS_POINTS))
  == inject_Z amount * (inject_Z bp / inject_Z BASIS_POINTS).
Proof.
  intros Hamount Hbp. unfold mul.
  rewrite (round_proper _ (inject_Z amount * (inject_Z bp / inject_Z BASIS_POINTS)))
    by now rewrite (rate_exact bp Hbp).
  destruct (Z.eq_dec (amount * bp) 0) as [Hzero|Hnonzero].
  - assert (Hval : inject_Z amount * (inject_Z bp / inject_Z BASIS_POINTS) == 0).
    { unfold Qdiv. rewrite Qmult_assoc, <- inject_Z_mult, Hzero.
      change (inject_Z 0) with 0. ring. }
    rewrite (round_proper _ 0 Hval), Hval. reflexivity.
  - apply (round_representable _ (amount * bp) (-4)); [|nia].
    rewrite inject_Z_mult. unfold BASIS_POINTS.
    change (inject_Z 10000) with 10000. change (10 ^ (-4)) with (/ 10000). field.
Qed.

End MathMoreFacts.

(** X16: [isWithinTolerance] does not depend on the order of the two
    amounts. *)
Theorem isWithinTolerance_symmetric (amount1 amount2 : Q) (toleranceBp : Z) :
  MathUtils.isWithinTolerance amount1 amount2 toleranceBp
  = MathUtils.isWithinTolerance amount2 amount1 toleranceBp.
Proof.
  unfold MathUtils.isWithinTolerance. rewrite (MathMoreFacts.eq_sym amount2 amount1).
  destruct (Decimal.eq amount1 amount2) eqn:Hequal; [reflexivity|].
  assert (Hne : ~ (amount1 == amount2)%Q).
  { intros Heq. apply Qeq_bool_iff in Heq. unfold Decimal.eq in Hequal. congruence. }
  now rewrite (MathMoreFacts.max_sym _ _ Hne), (MathMoreFacts.min_sym _ _ Hne).
Qed.

(** X17: equal amounts are within every tolerance, a negative one included;
    two different positive amounts are within no tolerance of zero or
    less. *)
Theorem isWithinTolerance_at_zero (amount1 amount2 : Q) (toleranceBp : Z) :
  ((amount1 == amount2)%Q ->
   MathUtils.isWithinTolerance amount1 amount2 toleranceBp = Ok true)
  /\ ((0 < amount1)%Q -> (0 < amount2)%Q -> ~ (amount1 == amount2)%Q ->
      toleranceBp <= 0 ->
      MathUtils.isWithinTolerance amount1 amount2 toleranceBp = Ok false).
Proof.
  unfold MathUtils.isWithinTolerance. split.
  - intros Heq. apply Qeq_bool_iff in Heq. unfold Decimal.eq. now rewrite Heq.
  - intros Hpos1 Hpos2 Hne Htol.
    assert (Htest : Decimal.eq amount1 amount2 = false).
    { unfold Decimal.eq. destruct (Qeq_bool amount1 amount2) eqn:Heq; [|reflexivity].
      apply Qeq_bool_iff in Heq. contradiction. }
    rewrite Htest.
    destruct (MathMoreFacts.max_min_gap amount1 amount2 Hne) as [Hgap Hwhich].
    set (larger := Decimal.max amount1 amount2) in *.
    set (smaller := Decimal.min amount1 amount2) in *.
    assert (Hlarger : (0 < larger)%Q) by (destruct Hwhich as [-> | ->]; assumption).
    assert (Hdiff : (0 < Decimal.sub larger smaller)%Q)
      by (apply DecimalFacts.round_positive; lra).
    rewrite DecimalFacts.div_Ok by lra. cbn [bind]. f_equal.
    apply DecimalFacts.lte_false.
    apply Qle_lt_trans with 0%Q.
    + change 0%Q with (inject_Z 0). rewrite <- Zle_Qle. exact Htol.
    + apply DecimalFacts.round_positive. apply Qmult_lt_0_compat; [|reflexivity].
      apply DecimalFacts.round_positive. apply Qlt_shift_div_l; [exact Hlarger | lra].
Qed.

(** X18: a whole number of raw units of at most 20 digits survives the
    round trip through display units: [formatAmount] returns the exact
    quotient by [10^decimals], and [parseAmount] of that, with the same
    [decimals], is the number of raw units again. *)
Theorem parseAmount_formatAmount (raw decimals : Z) :
  0 <= raw < 10 ^ 20 ->
  exists shown,
    MathUtils.formatAmount (inject_Z raw) decimals = Ok shown
    /\ (shown == inject_Z raw / 10 ^ decimals)%Q
    /\ MathUtils.parseAmount shown decimals = raw.
Proof.
  intros Hraw. unfold MathUtils.formatAmount, MathUtils.parseAmount.
  pose proof (MathMoreFacts.pow10_pos decimals) as Hpow.
  rewrite DecimalFacts.div_Ok by lra.
  eexists. split; [reflexivity|].
  assert (Hshown : (Decimal.round (inject_Z raw / Decimal.pow10 decimals)
                    == inject_Z raw / Decimal.pow10 decimals)%Q).
  { destruct (Z.eq_dec raw 0) as [->|Hnonzero].
    - assert (Hval : (inject_Z 0 / Decimal.pow10 decimals == 0)%Q)
        by (change (inject_Z 0) with 0%Q; field; lra).
      rewrite (DecimalFacts.round_proper _ 0%Q Hval), Hval. reflexivity.
    - apply (DecimalFacts.round_representable _ raw (- decimals)); [|lia].
      fold (Decimal.pow10 (- decimals)). rewrite MathMoreFacts.pow10_opp. reflexivity. }
  split; [exact Hshown|].
  unfold Decimal.floor, Decimal.mul.
  rewrite (DecimalFacts.round_proper _ (inject_Z raw)).
  - rewrite (Qfloor_comp _ _ (DecimalFacts.round_Z raw ltac:(lia))). apply Qfloor_Z.
  - rewrite Hshown. apply MathMoreFacts.pow10_cancel.
Qed.

Lemma parseAmount_formatAmount_witness :
  exists shown,
    MathUtils.formatAmount (inject_Z 123456789) 8 = Ok shown
    /\ (shown == inject_Z 123456789 / 10 ^ 8)%Q
    /\ MathUtils.parseAmount shown 8 = 123456789.
Proof.
  apply (parseAmount_formatAmount 123456789 8). lia.
Defined.

(** X19: [parseAmount] truncates: for a non-negative amount of at most 20
    significant digits it returns the number of whole raw units in
    [amount * 10^decimals], never more. *)
Theorem parseAmount_truncates (amount : Q) (decimals : Z) :
  (0 <= amount)%Q -> representable amount ->
  MathUtils.parseAmount amount decimals = Qfloor (amount * 10 ^ decimals)%Q
  /\ (inject_Z (MathUtils.parseAmount amount decimals) <= amount * 10 ^ decimals)%Q
  /\ (amount * 10 ^ decimals < inject_Z (MathUtils.parseAmount amount decimals + 1))%Q.
Proof.
  intros Hnonneg Hexact. unfold representable in Hexact.
  assert (Hvalue : MathUtils.parseAmount amount decimals
                   = Qfloor (amount * 10 ^ decimals)%Q).
  { unfold MathUtils.parseAmount, Decimal.floor, Decimal.mul, Decimal.pow10.
    apply Qfloor_comp.
    destruct (Qle_lt_or_eq _ _ Hnonneg) as [Hpos|Hzero].
    - rewrite (DecimalFacts.round_shift amount decimals Hpos). now rewrite Hexact.
    - assert (Hval : (amount * 10 ^ decimals == 0)%Q) by (rewrite <- Hzero; ring).
      rewrite (DecimalFacts.round_proper _ 0%Q Hval), Hval. reflexivity. }
  rewrite Hvalue. split; [reflexivity|]. split; [apply Qfloor_le | apply Qlt_floor].
Qed.

Lemma parseAmount_truncates_witness :
  MathUtils.parseAmount (15 # 10) 0 = Qfloor ((15 # 10) * 10 ^ 0)%Q
  /\ (inject_Z (MathUtils.parseAmount (15 # 10) 0) <= (15 # 10) * 10 ^ 0)%Q
  /\ ((15 # 10) * 10 ^ 0 < inject_Z (MathUtils.parseAmount (15 # 10) 0 + 1))%Q.
Proof.
  apply (parseAmount_truncates (15 # 10) 0).
  - discriminate.
  - vm_compute. reflexivity.
Defined.

(** X20: on a whole amount below 10^16 and a fee rate of 0..10000 basis
    points, [calculateFee] and [amountAfterFee] are exact: the fee is
    [amount * feeRateBp / 10000], it lies between 0 and the amount, and fee
    and amount after fee add up to the amount. *)
Theorem fee_and_remainder_add_up (amount feeRateBp : Z) :
  0 <= amount < 10 ^ 16 -> 0 <= feeRateBp <= 10000 ->
  exists fee remainder,
    MathUtils.calculateFee (inject_Z amount) feeRateBp = Ok fee
    /\ MathUtils.amountAfterFee (inject_Z amount) feeRateBp = Ok remainder
    /\ (fee == inject_Z amount * inject_Z feeRateBp / 10000)%Q
    /\ (fee + remainder == inject_Z amount)%Q
    /\ (0 <= fee <= inject_Z amount)%Q.
Proof.
  intros Hamount Hfee.
  unfold MathUtils.amountAfterFee, MathUtils.calculateFee.
  rewrite (DecimalFacts.div_Ok _ _ MathFacts.bp_nonzero). cbn [bind].
  pose proof (MathMoreFacts.share_exact amount feeRateBp Hamount Hfee) as Hshare.
  pose proof (MathMoreFacts.rate_range feeRateBp Hfee) as [Hrate0 Hrate1].
  set (fee := Decimal.mul (inject_Z amount)
                (Decimal.round (inject_Z feeRateBp / inject_Z BASIS_POINTS)%Q)) in *.
  assert (Hnonneg : (0 <= inject_Z amount)%Q)
    by (change 0%Q with (inject_Z 0); rewrite <- Zle_Qle; lia).
  assert (Hremainder : (Decimal.sub (inject_Z amount) fee == inject_Z amount - fee)%Q).
  { unfold Decimal.sub.
    destruct (Z.eq_dec (amount * (10000 - feeRateBp)) 0) as [Hzero|Hnonzero].
    - assert (Hval : (inject_Z amount - fee == 0)%Q).
      { rewrite Hshare. unfold BASIS_POINTS.
        assert (Hprod : (inject_Z amount * (10000 - inject_Z feeRateBp) == 0)%Q).
        { change 10000%Q with (inject_Z 10000).
          unfold Qminus. rewrite <- inject_Z_opp, <- inject_Z_plus, <- inject_Z_mult.
          fold (Z.sub 10000 feeRateBp). now rewrite Hzero. }
        change (inject_Z 10000) with 10000%Q.
        assert (Heq : (inject_Z amount - inject_Z amount * (inject_Z feeRateBp / 10000)
                       == inject_Z amount * (10000 - inject_Z feeRateBp) * / 10000)%Q)
          by field.
        rewrite Heq, Hprod. ring. }
      rewrite (DecimalFacts.round_proper _ 0%Q Hval), Hval. reflexivity.
    - apply (DecimalFacts.round_representable _ (amount * (10000 - feeRateBp)) (-4));
        [|nia].
      rewrite Hshare, inject_Z_mult. unfold Z.sub, BASIS_POINTS.
      rewrite inject_Z_plus, inject_Z_opp.
      change (inject_Z 10000) with 10000%Q. change (10 ^ (-4))%Q with (/ 10000)%Q. field. }
  exists fee, (Decimal.sub (inject_Z amount) fee).
  split; [reflexivity|]. split; [reflexivity|]. split; [|split].
  - rewrite Hshare. unfold BASIS_POINTS. change (inject_Z 10000) with 10000%Q. field.
  - rewrite Hremainder. ring.
  - rewrite Hshare. split.
    + apply Qmult_le_0_compat; assumption.
    + nra.
Qed.

Lemma fee_and_remainder_add_up_witness :
  exists fee remainder,
    MathUtils.calculateFee (inject_Z 1000) 30 = Ok fee
    /\ MathUtils.amountAfterFee (inject_Z 1000) 30 = Ok remainder
    /\ (fee == inject_Z 1000 * inject_Z 30 / 10000)%Q
    /\ (fee + remainder == inject_Z 1000)%Q
    /\ (0 <= fee <= inject_Z 1000)%Q.
Proof.
  apply (fee_and_remainder_add_up 1000 30); lia.
Defined.

(** X21: within the valid range of the tolerance (0..10000 basis points),
    on a non-negative amount of at most 20 significant digits, the slippage
    helpers return, the minimum output lies between 0 and the amount, and
    the maximum input is at least the amount. *)
Theorem slippage_bounds_in_range (amount : Q) (slippageToleranceBp : Z) :
  (0 <= amount)%Q -> representable amount -> 0 <= slippageToleranceBp <= 10000 ->
  exists minOutput maxInput,
    MathUtils.calculateMinOutput amount slippageToleranceBp = Ok minOutput
    /\ MathUtils.calculateMaxInput amount slippageToleranceBp = Ok maxInput
    /\ (0 <= minOutput)%Q /\ (minOutput <= amount)%Q /\ (amount <= maxInput)%Q.
Proof.
  intros Hnonneg Hexact Hbp. unfold representable in Hexact.
  rewrite MathFacts.calculateMinOutput_returns, MathFacts.calculateMaxInput_returns.
  do 2 eexists. split; [reflexivity|]. split; [reflexivity|].
  pose proof (MathMoreFacts.rate_exact slippageToleranceBp Hbp) as Hrate.
  pose proof (MathMoreFacts.rate_range slippageToleranceBp Hbp) as [Hrate0 Hrate1].
  set (rate := Decimal.round (inject_Z slippageToleranceBp / inject_Z BASIS_POINTS)%Q) in *.
  assert (Hrate0' : (0 <= rate)%Q) by (rewrite Hrate; exact Hrate0).
  assert (Hrate1' : (rate <= 1)%Q) by (rewrite Hrate; exact Hrate1).
  assert (Hsame : (Decimal.round amount <= amount)%Q /\ (amount <= Decimal.round amount)%Q)
    by (split; apply Qle_lteq; right; [exact Hexact | symmetry; exact Hexact]).
  destruct Hsame as [Hdown Hup].
  assert (Hslip0 : (0 <= Decimal.mul amount rate)%Q).
  { apply DecimalFacts.round_nonneg. apply Qmult_le_0_compat; assumption. }
  assert (Hslip1 : (Decimal.mul amount rate <= amount)%Q).
  { apply Qle_trans with (Decimal.round amount); [|exact Hdown].
    apply DecimalFacts.round_mono. nra. }
  split; [apply DecimalFacts.round_nonneg; lra|]. split.
  - apply Qle_trans with (Decimal.round amount); [|exact Hdown].
    apply DecimalFacts.round_mono. lra.
  - apply Qle_trans with (Decimal.round amount); [exact Hup|].
    apply DecimalFacts.round_mono. lra.
Qed.

Lemma slippage_bounds_in_range_witness :
  exists minOutput maxInput,
    MathUtils.calculateMinOutput (1000 # 1) 50 = Ok minOutput
    /\ MathUtils.calculateMaxInput (1000 # 1) 50 = Ok maxInput
    /\ (0 <= minOutput)%Q /\ (minOutput <= 1000 # 1)%Q /\ (1000 # 1 <= maxInput)%Q.
Proof.
  apply (slippage_bounds_in_range (1000 # 1) 50).
  - discriminate.
  - vm_compute. reflexivity.
  - lia.
Defined.

(** ** Coin type validation *)

Module RegExpFacts.
Import JsRegExp.
Local Open Scope string_scope.

(** The language of an expression. *)
Inductive Matches : JsRegExp.t -> string -> Prop :=
| MEmpty : Matches Empty ""
| MClass (accepts : ascii -> bool) (c : ascii) :
    accepts c = true -> Matches (Class accepts) (String c "")
| MSeq (r1 r2 : JsRegExp.t) (s1 s2 : string) :
    Matches r1 s1 -> Matches r2 s2 -> Matches (Seq r1 r2) (s1 ++ s2)
| MAltL (r1 r2 : JsRegExp.t) (s : string) : Matches r1 s -> Matches (Alt r1 r2) s
| MAltR (r1 r2 : JsRegExp.t) (s : string) : Matches r2 s -> Matches (Alt r1 r2) s
| MStarNil (r : JsRegExp.t) : Matches (Star r) ""
| MStarCons (r : JsRegExp.t) (s1 s2 : string) :
    Matches r s1 -> Matches (Star r) s2 -> Matches (Star r) (s1 ++ s2).

Lemma append_nil_r (s : string) : s ++ "" = s.
Proof. induction s as [|c s IH]; simpl; [reflexivity | now rewrite IH]. Qed.

Lemma append_assoc (s1 s2 s3 : string) : (s1 ++ s2) ++ s3 = s1 ++ (s2 ++ s3).
Proof. induction s1 as [|c s1 IH]; simpl; [reflexivity | now rewrite IH]. Qed.

Lemma append_nil_inv (s1 s2 : string) : s1 ++ s2 = "" -> s1 = "" /\ s2 = "".
Proof. destruct s1; simpl; [tauto | discriminate]. Qed.

Lemma never_spec (s : string) : Matches Never s <-> False.
Proof. split; [intros H; inversion H | contradiction]. Qed.

Lemma empty_spec (s : string) : Matches Empty s <-> s = "".
Proof. split; [intros H; now inversion H | intros ->; constructor]. Qed.

Lemma class_spec (accepts : ascii -> bool) (s : string) :
  Matches (Class accepts) s <-> exists c, s = String c "" /\ accepts c = true.
Proof.
  split.
  - intros H. inversion H; subst. eexists. split; [reflexivity | assumption].
  - intros (c & -> & Hc). now constructor.
Qed.

Lemma seq_spec (r1 r2 : JsRegExp.t) (s : string) :
  Matches (Seq r1 r2) s <-> exists s1 s2, s = s1 ++ s2 /\ Matches r1 s1 /\ Matches r2 s2.
Proof.
  split.
  - intros H. inversion H; subst. do 2 eexists. split; [reflexivity | tauto].
  - intros (s1 & s2 & -> & H1 & H2). now constructor.
Qed.

Lemma alt_spec (r1 r2 : JsRegExp.t) (s : string) :
  Matches (Alt r1 r2) s <-> Matches r1 s \/ Matches r2 s.
Proof.
  split.
  - intros H. inversion H; subst; tauto.
  - intros [H|H]; [now apply MAltL | now apply MAltR].
Qed.

Lemma nullable_spec (r : JsRegExp.t) : nullable r = true <-> Matches r "".
Proof.
  induction r as [| |accepts|r1 IH1 r2 IH2|r1 IH1 r2 IH2|r IH]; simpl.
  - rewrite never_spec. split; [discriminate | contradiction].
  - rewrite empty_spec. tauto.
  - rewrite class_spec. split; [discriminate | intros (c & Hs & _); discriminate].
  - rewrite andb_true_iff, IH1, IH2, seq_spec. split.
    + intros [H1 H2]. exists "", "". tauto.
    + intros (s1 & s2 & Hs & H1 & H2). symmetry in Hs.
      apply append_nil_inv in Hs. destruct Hs as [-> ->]. tauto.
  - rewrite orb_true_iff, IH1, IH2, alt_spec. tauto.
  - split; [intros _; constructor | reflexivity].
Qed.

(** A non-empty word of [r*] starts with a non-empty word of [r]. *)
Lemma star_cons_inv (r : JsRegExp.t) (c : ascii) (s : string) :
  Matches (Star r) (String c s) ->
  exists s1 s2, s = s1 ++ s2 /\ Matches r (String c s1) /\ Matches (Star r) s2.
Proof.
  intros H. remember (Star r) as star eqn:Hstar. remember (String c s) as word eqn:Hword.
  revert c s Hword.
  induction H as [| | | | | |r' s1 s2 H1 _ H2 IH2]; intros first rest Hword;
    try discriminate.
  injection Hstar as ->. destruct s1 as [|c1 s1]; simpl in Hword.
  - now apply IH2.
  - injection Hword as -> <-. exists s1, s2. tauto.
Qed.

Lemma seq_cons (r1 r2 : JsRegExp.t) (c : ascii) (s : string) :
  Matches (Seq r1 r2) (String c s)
  <-> (Matches r1 "" /\ Matches r2 (String c s))
      \/ exists s1 s2, s = s1 ++ s2 /\ Matches r1 (String c s1) /\ Matches r2 s2.
Proof.
  rewrite seq_spec. split.
  - intros (s1 & s2 & Hs & H1 & H2). destruct s1 as [|c1 s1]; simpl in Hs.
    + left. subst s2. tauto.
    + right. injection Hs as <- ->. exists s1, s2. tauto.
  - intros [[H1 H2]|(s1 & s2 & -> & H1 & H2)].
    + exists "", (String c s). tauto.
    + exists (String c s1), s2. tauto.
Qed.

Lemma derive_spec (r : JsRegExp.t) :
  forall (c : ascii) (s : string), Matches (derive c r) s <-> Matches r (String c s).
Proof.
  induction r as [| |accepts|r1 IH1 r2 IH2|r1 IH1 r2 IH2|r IH]; intros c s; simpl.
  - rewrite !never_spec. tauto.
  - rewrite never_spec, empty_spec. split; [contradiction | discriminate].
  - rewrite class_spec. destruct (accepts c) eqn:Haccepts.
    + rewrite empty_spec. split.
      * intros ->. exists c. tauto.
      * intros (c' & [= -> ->] & _). reflexivity.
    + rewrite never_spec. split; [contradiction|].
      intros (c' & [= -> ->] & Hc). congruence.
  - rewrite seq_cons. destruct (nullable r1) eqn:Hnull.
    + rewrite alt_spec, seq_spec, IH2. apply nullable_spec in Hnull. split.
      * intros [(s1 & s2 & -> & H1 & H2)|H2].
        -- right. exists s1, s2. rewrite <- IH1. tauto.
        -- left. tauto.
      * intros [[_ H2]|(s1 & s2 & -> & H1 & H2)].
        -- right. exact H2.
        -- left. exists s1, s2. rewrite IH1. tauto.
    + rewrite seq_spec. split.
      * intros (s1 & s2 & -> & H1 & H2). right. exists s1, s2. rewrite <- IH1. tauto.
      * intros [[H1 _]|(s1 & s2 & -> & H1 & H2)].
        -- apply nullable_spec in H1. congruence.
        -- exists s1, s2. rewrite IH1. tauto.
  - rewrite !alt_spec, IH1, IH2. tauto.
  - rewrite seq_spec. split.
    + intros (s1 & s2 & -> & H1 & H2). apply IH in H1.
      change (String c (s1 ++ s2)) with (String c s1 ++ s2). now constructor.
    + intros H. apply star_cons_inv in H. destruct H as (s1 & s2 & -> & H1 & H2).
      exists s1, s2. rewrite IH. tauto.
Qed.

Lemma test_spec (s : string) : forall r : JsRegExp.t, test r s = true <-> Matches r s.
Proof.
  induction s as [|c s IH]; intros r; simpl.
  - apply nullable_spec.
  - rewrite IH. apply derive_spec.
Qed.

(** The languages of the building blocks of the coin type expression. *)
Lemma literal_spec (l : string) : forall s, Matches (literal l) s <-> s = l.
Proof.
  induction l as [|c l IH]; intros s; simpl.
  - apply empty_spec.
  - rewrite seq_spec. split.
    + intros (s1 & s2 & -> & H1 & H2). apply class_spec in H1.
      destruct H1 as (c' & -> & Hc). apply Ascii.eqb_eq in Hc. subst c'.
      apply IH in H2. now subst s2.
    + intros ->. exists (String c ""), l. split; [reflexivity|]. split.
      * apply class_spec. exists c. split; [reflexivity | apply Ascii.eqb_refl].
      * now apply IH.
Qed.

Lemma star_class_spec (accepts : ascii -> bool) (s : string) :
  Matches (Star (Class accepts)) s <-> allOf accepts s = true.
Proof.
  induction s as [|c s IH]; simpl.
  - split; [reflexivity | intros _; constructor].
  - rewrite andb_true_iff, <- IH. split.
    + intros H. apply star_cons_inv in H. destruct H as (s1 & s2 & -> & H1 & H2).
      apply class_spec in H1. destruct H1 as (c' & [= <- ->] & Hc). simpl. tauto.
    + intros [Hc Hs]. change (String c s) with (String c "" ++ s).
      constructor; [now constructor | exact Hs].
Qed.

Lemma plus_class_spec (accepts : ascii -> bool) (s : string) :
  Matches (plus (Class accepts)) s <-> s <> "" /\ allOf accepts s = true.
Proof.
  unfold plus. rewrite seq_spec. split.
  - intros (s1 & s2 & -> & H1 & H2). apply class_spec in H1.
    destruct H1 as (c & -> & Hc). apply star_class_spec in H2. simpl.
    split; [discriminate | now apply andb_true_iff].
  - intros [Hne Hall]. destruct s as [|c s]; [contradiction|].
    simpl in Hall. apply andb_true_iff in Hall. destruct Hall as [Hc Hs].
    exists (String c ""), s. split; [reflexivity|]. split.
    + now constructor.
    + now apply star_class_spec.
Qed.

Lemma identifier_spec (s : string) :
  Matches MathUtils.identifier s <-> identifierName s = true.
Proof.
  unfold MathUtils.identifier, identifierName. rewrite seq_spec. split.
  - intros (s1 & s2 & -> & H1 & H2). apply class_spec in H1.
    destruct H1 as (c & -> & Hc). apply star_class_spec in H2. simpl.
    now apply andb_true_iff.
  - destruct s as [|c s]; [discriminate|].
    intros Hall. apply andb_true_iff in Hall. destruct Hall as [Hc Hs].
    exists (String c ""), s. split; [reflexivity|]. split.
    + now constructor.
    + now apply star_class_spec.
Qed.

End RegExpFacts.

(** X22: [isValidCoinType] accepts exactly the strings
    [0x<address>::<module>::<name>] in which the address is a non-empty
    sequence of hexadecimal digits and the module and the name are
    identifiers: a letter or underscore followed by letters, digits and
    underscores. *)
Theorem isValidCoinType_accepts_exactly (coinType : string) :
  MathUtils.isValidCoinType coinType = true
  <-> exists address moduleName structName,
        coinType = ("0x" ++ address ++ "::" ++ moduleName ++ "::" ++ structName)%string
        /\ address <> ""%string
        /\ allOf MathUtils.hexDigit address = true
        /\ identifierName moduleName = true
        /\ identifierName structName = true.
Proof.
  unfold MathUtils.isValidCoinType, MathUtils.aptosAddressRegex.
  rewrite RegExpFacts.test_spec. split.
  - intros H.
    apply RegExpFacts.seq_spec in H. destruct H as (prefix & rest1 & -> & Hprefix & H).
    apply RegExpFacts.literal_spec in Hprefix. subst prefix.
    apply RegExpFacts.seq_spec in H. destruct H as (address & rest2 & -> & Haddress & H).
    apply RegExpFacts.plus_class_spec in Haddress. destruct Haddress as [Hne Hhex].
    apply RegExpFacts.seq_spec in H. destruct H as (sep1 & rest3 & -> & Hsep1 & H).
    apply RegExpFacts.literal_spec in Hsep1. subst sep1.
    apply RegExpFacts.seq_spec in H. destruct H as (moduleName & rest4 & -> & Hmodule & H).
    apply RegExpFacts.identifier_spec in Hmodule.
    apply RegExpFacts.seq_spec in H. destruct H as (sep2 & structName & -> & Hsep2 & Hname).
    apply RegExpFacts.literal_spec in Hsep2. subst sep2.
    apply RegExpFacts.identifier_spec in Hname.
    exists address, moduleName, structName. repeat split; assumption.
  - intros (address & moduleName & structName & -> & Hne & Hhex & Hmodule & Hname).
    apply RegExpFacts.seq_spec. exists "0x"%string. eexists. split; [reflexivity|].
    split; [now apply RegExpFacts.literal_spec|].
    apply RegExpFacts.seq_spec. exists address. eexists. split; [reflexivity|].
    split; [now apply RegExpFacts.plus_class_spec|].
    apply RegExpFacts.seq_spec. exists "::"%string. eexists. split; [reflexivity|].
    split; [now apply RegExpFacts.literal_spec|].
    apply RegExpFacts.seq_spec. exists moduleName. eexists. split; [reflexivity|].
    split; [now apply RegExpFacts.identifier_spec|].
    apply RegExpFacts.seq_spec. exists "::"%string, structName. split; [reflexivity|].
    split; [now apply RegExpFacts.literal_spec | now apply RegExpFacts.identifier_spec].
Qed.

(** ** Move math module *)

Module MoveMathFacts.
Import MoveMath.

Lemma safe_mul_spec (a b : Z) :
  u64 a -> u64 b ->
  safe_mul a b
  = if a * b <=? MAX_U64 then Return (a * b) else Abort (out_of_range EOVERFLOW).
Proof.
  unfold u64, safe_mul, u64_div, u64_mul, assert, andThen. intros Ha Hb.
  destruct (Z.eqb_spec a 0) as [->|Hanz].
  { rewrite Z.mul_0_l. reflexivity. }
  destruct (Z.eqb_spec b 0) as [->|Hbnz].
  { rewrite Z.mul_0_r. reflexivity. }
  cbn [orb].
  assert (Hbound : a <= MAX_U64 / b <-> a * b <= MAX_U64).
  { split; intros Hle.
    - pose proof (Z.mul_div_le MAX_U64 b ltac:(lia)). nia.
    - apply Z.div_le_lower_bound; lia. }
  destruct (Z.leb_spec a (MAX_U64 / b)) as [Hfits|Hover];
    destruct (Z.leb_spec (a * b) MAX_U64); try reflexivity; lia.
Qed.

Lemma safe_mul_Return (a b r : Z) :
  u64 a -> u64 b -> safe_mul a b = Return r -> r = a * b /\ a * b <= MAX_U64.
Proof.
  intros Ha Hb. rewrite (safe_mul_spec a b Ha Hb).
  destruct (Z.leb_spec (a * b) MAX_U64); [|discriminate].
  intros [= <-]. lia.
Qed.

Lemma safe_div_Return (a b r : Z) :
  safe_div a b = Return r -> b <> 0 /\ r = a / b.
Proof.
  unfold safe_div, u64_div, assert, andThen.
  destruct (Z.eqb_spec b 0); simpl; [discriminate|].
  intros [= <-]. tauto.
Qed.

Lemma calculate_fee_spec (amount fee_rate_bp : Z) :
  calculate_fee amount fee_rate_bp
  = if 10000 <? fee_rate_bp then Abort (invalid_argument EINVALID_AMOUNT)
    else if MAX_U64 <? amount * fee_rate_bp then ArithmeticError
    else Return (amount * fee_rate_bp / 10000).
Proof.
  unfold calculate_fee, u64_mul, u64_div, assert, andThen, BASIS_POINTS.
  destruct (Z.leb_spec fee_rate_bp 10000), (Z.ltb_spec 10000 fee_rate_bp); try lia;
    [|reflexivity].
  destruct (Z.leb_spec (amount * fee_rate_bp) MAX_U64),
    (Z.ltb_spec MAX_U64 (amount * fee_rate_bp)); try lia; reflexivity.
Qed.

Lemma fee_le_amount (amount fee_rate_bp : Z) :
  0 <= amount -> 0 <= fee_rate_bp <= 10000 ->
  0 <= amount * fee_rate_bp / 10000 <= amount.
Proof.
  intros Ha Hf. split.
  - apply Z.div_pos; nia.
  - apply Z.div_le_upper_bound; nia.
Qed.

Lemma amount_after_fee_Return (amount fee_rate_bp r : Z) :
  u64 amount -> u64 fee_rate_bp ->
  amount_after_fee amount fee_rate_bp = Return r ->
  fee_rate_bp <= 10000 /\ r = amount - amount * fee_rate_bp / 10000.
Proof.
  unfold u64, amount_after_fee. intros Ha Hf. rewrite calculate_fee_spec.
  destruct (Z.ltb_spec 10000 fee_rate_bp); [discriminate|].
  destruct (Z.ltb_spec MAX_U64 (amount * fee_rate_bp)); [discriminate|].
  unfold andThen, u64_sub.
  pose proof (fee_le_amount amount fee_rate_bp ltac:(lia) ltac:(lia)).
  destruct (Z.leb_spec (amount * fee_rate_bp / 10000) amount); [|lia].
  intros [= <-]. lia.
Qed.

(** The amount after fee does not decrease with the amount. *)
Lemma after_fee_mono (x1 x2 fee_rate_bp : Z) :
  0 <= x1 <= x2 -> 0 <= fee_rate_bp <= 10000 ->
  x1 - x1 * fee_rate_bp / 10000 <= x2 - x2 * fee_rate_bp / 10000.
Proof.
  intros Hx Hf.
  assert (Hstep : x2 * fee_rate_bp / 10000 <= x1 * fee_rate_bp / 10000 + (x2 - x1)).
  { rewrite <- Z.div_add by lia. apply Z.div_le_mono; nia. }
  lia.
Qed.

Lemma after_fee_lower (x fee_rate_bp : Z) :
  0 <= x -> 0 <= fee_rate_bp <= 10000 ->
  x * (10000 - fee_rate_bp) <= 10000 * (x - x * fee_rate_bp / 10000).
Proof.
  intros Hx Hf. pose proof (Z.mul_div_le (x * fee_rate_bp) 10000 ltac:(lia)). lia.
Qed.

Lemma get_amount_out_Return (amount_in reserve_in reserve_out fee_rate_bp out : Z) :
  u64 amount_in -> u64 reserve_in -> u64 reserve_out -> u64 fee_rate_bp ->
  get_amount_out amount_in reserve_in reserve_out fee_rate_bp = Return out ->
  0 < amount_in /\ 0 < reserve_in /\ 0 < reserve_out /\ fee_rate_bp <= 10000
  /\ out = (amount_in - amount_in * fee_rate_bp / 10000) * reserve_out
           / (reserve_in + (amount_in - amount_in * fee_rate_bp / 10000)).
Proof.
  intros Hx Hin Hout Hf. unfold get_amount_out, assert.
  destruct (Z.ltb_spec 0 amount_in); [|discriminate]. cbn [andThen].
  destruct (Z.ltb_spec 0 reserve_in); [|discriminate].
  destruct (Z.ltb_spec 0 reserve_out); [|discriminate]. cbn [andb andThen].
  destruct (amount_after_fee amount_in fee_rate_bp) as [after| |] eqn:Hafter;
    try discriminate.
  apply (amount_after_fee_Return _ _ _ Hx Hf) in Hafter. destruct Hafter as [Hfee ->].
  cbn [andThen].
  set (after := amount_in - amount_in * fee_rate_bp / 10000).
  assert (Hafter : u64 after).
  { unfold u64 in *. subst after.
    pose proof (fee_le_amount amount_in fee_rate_bp ltac:(lia) ltac:(lia)). lia. }
  destruct (safe_mul after reserve_out) as [numerator| |] eqn:Hnum; try discriminate.
  apply (safe_mul_Return _ _ _ Hafter Hout) in Hnum. destruct Hnum as [-> _].
  cbn [andThen]. unfold u64_add.
  destruct (Z.leb_spec (reserve_in + after) MAX_U64); [|discriminate]. cbn [andThen].
  intros Hdiv. apply safe_div_Return in Hdiv. destruct Hdiv as [_ ->]. tauto.
Qed.

Lemma get_amount_in_Return (amount_out reserve_in reserve_out fee_rate_bp x : Z) :
  u64 amount_out -> u64 reserve_in -> u64 reserve_out -> u64 fee_rate_bp ->
  get_amount_in amount_out reserve_in reserve_out fee_rate_bp = Return x ->
  0 < amount_out < reserve_out /\ 0 < reserve_in /\ fee_rate_bp < 10000
  /\ x = (reserve_in * amount_out / (reserve_out - amount_out) + 1) * 10000
         / (10000 - fee_rate_bp).
Proof.
  intros Hy Hin Hout Hf. unfold get_amount_in, assert.
  destruct (Z.ltb_spec 0 amount_out); [|discriminate]. cbn [andThen].
  destruct (Z.ltb_spec 0 reserve_in); [|discriminate].
  destruct (Z.ltb_spec 0 reserve_out); [|discriminate]. cbn [andb andThen].
  destruct (Z.ltb_spec amount_out reserve_out); [|discriminate]. cbn [andThen].
  destruct (safe_mul reserve_in amount_out) as [numerator| |] eqn:Hnum; try discriminate.
  apply (safe_mul_Return _ _ _ Hin Hy) in Hnum. destruct Hnum as [-> Hfits].
  cbn [andThen]. unfold u64_sub at 1.
  destruct (Z.leb_spec amount_out reserve_out); [|lia]. cbn [andThen].
  destruct (safe_div (reserve_in * amount_out) (reserve_out - amount_out))
    as [quotient| |] eqn:Hquot; try discriminate.
  apply safe_div_Return in Hquot. destruct Hquot as [_ ->]. cbn [andThen].
  unfold u64_add.
  set (quotient := reserve_in * amount_out / (reserve_out - amount_out)).
  assert (Hquotient : 0 <= quotient <= MAX_U64).
  { unfold u64 in *. subst quotient. split.
    - apply Z.div_pos; nia.
    - apply Z.div_le_upper_bound; nia. }
  destruct (Z.leb_spec (quotient + 1) MAX_U64); [|discriminate]. cbn [andThen].
  unfold u64_sub, BASIS_POINTS.
  destruct (Z.leb_spec fee_rate_bp 10000); [|discriminate]. cbn [andThen].
  destruct (safe_mul (quotient + 1) 10000) as [grossed| |] eqn:Hgross; try discriminate.
  apply safe_mul_Return in Hgross; [|unfold u64; lia|unfold u64, MAX_U64; lia].
  destruct Hgross as [-> _]. cbn [andThen].
  intros Hdiv. apply safe_div_Return in Hdiv. destruct Hdiv as [Hnz ->].
  repeat split; try lia.
Qed.

(** Quotients compare as the fractions do. *)
Lemma div_le_cross (a b c d : Z) :
  0 <= a -> 0 < b -> 0 < d -> a * d <= c * b -> a / b <= c / d.
Proof.
  intros Ha Hb Hd Hcross. apply Z.div_le_lower_bound; [exact Hd|].
  pose proof (Z.mul_div_le a b Hb). nia.
Qed.

End MoveMathFacts.

(** X23: [safe_mul] returns the product exactly when the product fits in
    64 bits and aborts with [out_of_range(EOVERFLOW)] otherwise; it never
    ends in an arithmetic error of the VM. *)
Theorem move_safe_mul_exact (a b : Z) :
  MoveMath.u64 a -> MoveMath.u64 b ->
  MoveMath.safe_mul a b
  = if a * b <=? MoveMath.MAX_U64
    then MoveMath.Return (a * b)
    else MoveMath.Abort (MoveMath.out_of_range MoveMath.EOVERFLOW).
Proof. exact (MoveMathFacts.safe_mul_spec a b). Qed.

Lemma move_safe_mul_exact_witness :
  MoveMath.safe_mul 4294967296 4294967296
  = MoveMath.Abort (MoveMath.out_of_range MoveMath.EOVERFLOW)
  /\ MoveMath.safe_mul 4294967296 4294967295 = MoveMath.Return 18446744069414584320.
Proof.
  split.
  - rewrite (move_safe_mul_exact 4294967296 4294967296); [reflexivity | |];
      unfold MoveMath.u64, MoveMath.MAX_U64; lia.
  - rewrite (move_safe_mul_exact 4294967296 4294967295); [reflexivity | |];
      unfold MoveMath.u64, MoveMath.MAX_U64; lia.
Defined.

(** X24: [calculate_fee] aborts with [invalid_argument(EINVALID_AMOUNT)]
    exactly when the fee rate exceeds 10000, and with an arithmetic error
    exactly when the rate is valid but [amount * fee_rate_bp] overflows;
    otherwise the fee is [amount * fee_rate_bp / 10000], at most the amount,
    and [amount_after_fee] returns the amount less that fee, so that fee and
    amount after fee add up to the amount. *)
Theorem move_fee_and_remainder (amount fee_rate_bp : Z) :
  MoveMath.u64 amount -> MoveMath.u64 fee_rate_bp ->
  match MoveMath.calculate_fee amount fee_rate_bp with
  | MoveMath.Return fee =>
      fee_rate_bp <= 10000 /\ amount * fee_rate_bp <= MoveMath.MAX_U64
      /\ fee = amount * fee_rate_bp / 10000 /\ 0 <= fee <= amount
      /\ MoveMath.amount_after_fee amount fee_rate_bp = MoveMath.Return (amount - fee)
  | MoveMath.Abort code =>
      code = MoveMath.invalid_argument MoveMath.EINVALID_AMOUNT /\ 10000 < fee_rate_bp
  | MoveMath.ArithmeticError =>
      fee_rate_bp <= 10000 /\ MoveMath.MAX_U64 < amount * fee_rate_bp
  end.
Proof.
  unfold MoveMath.u64. intros Ha Hf. unfold MoveMath.amount_after_fee.
  rewrite MoveMathFacts.calculate_fee_spec.
  destruct (Z.ltb_spec 10000 fee_rate_bp); [tauto|].
  destruct (Z.ltb_spec MoveMath.MAX_U64 (amount * fee_rate_bp)); [tauto|].
  pose proof (MoveMathFacts.fee_le_amount amount fee_rate_bp ltac:(lia) ltac:(lia)).
  repeat split; try lia.
  unfold MoveMath.andThen, MoveMath.u64_sub.
  destruct (Z.leb_spec (amount * fee_rate_bp / 10000) amount); [reflexivity | lia].
Qed.

Lemma move_fee_and_remainder_witness :
  MoveMath.calculate_fee 1000 30 = MoveMath.Return 3
  /\ MoveMath.amount_after_fee 1000 30 = MoveMath.Return 997.
Proof.
  pose proof (move_fee_and_remainder 1000 30) as Hfee.
  assert (Hcall : MoveMath.calculate_fee 1000 30 = MoveMath.Return 3) by reflexivity.
  rewrite Hcall in Hfee.
  split; [reflexivity|].
  apply Hfee; unfold MoveMath.u64, MoveMath.MAX_U64; lia.
Defined.

(** X25: [calculate_min_output] aborts only on a tolerance above 10000
    (with [invalid_argument(EINVALID_AMOUNT)]) or on the overflow of
    [amount * slippage_tolerance_bp]; its second assertion never fails.  The
    result is the amount less [amount * slippage_tolerance_bp / 10000],
    between 0 and the amount. *)
Theorem move_calculate_min_output (amount slippage_tolerance_bp : Z) :
  MoveMath.u64 amount -> MoveMath.u64 slippage_tolerance_bp ->
  match MoveMath.calculate_min_output amount slippage_tolerance_bp with
  | MoveMath.Return minimum =>
      slippage_tolerance_bp <= 10000
      /\ minimum = amount - amount * slippage_tolerance_bp / 10000
      /\ 0 <= minimum <= amount
  | MoveMath.Abort code =>
      code = MoveMath.invalid_argument MoveMath.EINVALID_AMOUNT
      /\ 10000 < slippage_tolerance_bp
  | MoveMath.ArithmeticError =>
      slippage_tolerance_bp <= 10000
      /\ MoveMath.MAX_U64 < amount * slippage_tolerance_bp
  end.
Proof.
  unfold MoveMath.u64. intros Ha Hs.
  unfold MoveMath.calculate_min_output, MoveMath.assert, MoveMath.u64_mul,
    MoveMath.u64_div, MoveMath.u64_sub, MoveMath.BASIS_POINTS.
  destruct (Z.leb_spec slippage_tolerance_bp 10000); cbn [MoveMath.andThen]; [|split; [reflexivity | lia]].
  destruct (Z.leb_spec (amount * slippage_tolerance_bp) MoveMath.MAX_U64);
    cbn [MoveMath.andThen]; [|lia].
  change (10000 =? 0) with false. cbn [MoveMath.andThen].
  pose proof (MoveMathFacts.fee_le_amount amount slippage_tolerance_bp ltac:(lia) ltac:(lia)).
  destruct (Z.geb_spec amount (amount * slippage_tolerance_bp / 10000)); [|lia].
  cbn [MoveMath.andThen].
  destruct (Z.leb_spec (amount * slippage_tolerance_bp / 10000) amount); [|lia].
  lia.
Qed.

Lemma move_calculate_min_output_witness :
  MoveMath.calculate_min_output 1000 50 = MoveMath.Return 995
  /\ 0 <= 995 <= 1000.
Proof.
  pose proof (move_calculate_min_output 1000 50) as Hmin.
  assert (Hcall : MoveMath.calculate_min_output 1000 50 = MoveMath.Return 995)
    by reflexivity.
  rewrite Hcall in Hmin.
  split; [reflexivity|].
  apply Hmin; unfold MoveMath.u64, MoveMath.MAX_U64; lia.
Defined.

(** X26: whenever [get_amount_out] returns, its result is strictly below
    [reserve_out]; and of two amounts on the same reserves and fee rate, the
    larger one never gets the smaller output. *)
Theorem move_get_amount_out_bounded_monotone
  (x1 x2 reserve_in reserve_out fee_rate_bp out1 out2 : Z) :
  MoveMath.u64 x1 -> MoveMath.u64 x2 -> MoveMath.u64 reserve_in ->
  MoveMath.u64 reserve_out -> MoveMath.u64 fee_rate_bp ->
  MoveMath.get_amount_out x1 reserve_in reserve_out fee_rate_bp = MoveMath.Return out1 ->
  MoveMath.get_amount_out x2 reserve_in reserve_out fee_rate_bp = MoveMath.Return out2 ->
  0 <= out1 < reserve_out /\ (x1 <= x2 -> out1 <= out2).
Proof.
  intros Hx1 Hx2 Hin Hout Hf Hcall1 Hcall2.
  apply (MoveMathFacts.get_amount_out_Return _ _ _ _ _ Hx1 Hin Hout Hf) in Hcall1.
  apply (MoveMathFacts.get_amount_out_Return _ _ _ _ _ Hx2 Hin Hout Hf) in Hcall2.
  destruct Hcall1 as (Hpos1 & Hrin & Hrout & Hfee & ->).
  destruct Hcall2 as (Hpos2 & _ & _ & _ & ->).
  unfold MoveMath.u64 in *.
  pose proof (MoveMathFacts.fee_le_amount x1 fee_rate_bp ltac:(lia) ltac:(lia)) as Hfee1.
  pose proof (MoveMathFacts.fee_le_amount x2 fee_rate_bp ltac:(lia) ltac:(lia)) as Hfee2.
  assert (Hafter : x1 <= x2 ->
                   x1 - x1 * fee_rate_bp / 10000 <= x2 - x2 * fee_rate_bp / 10000)
    by (intros Hle; apply MoveMathFacts.after_fee_mono; lia).
  assert (Hafter1 : 0 <= x1 - x1 * fee_rate_bp / 10000) by lia.
  assert (Hafter2 : 0 <= x2 - x2 * fee_rate_bp / 10000) by lia.
  set (after1 := x1 - x1 * fee_rate_bp / 10000) in *.
  set (after2 := x2 - x2 * fee_rate_bp / 10000) in *.
  clearbody after1 after2. clear Hx1 Hx2 Hin Hout Hf Hfee1 Hfee2.
  assert (Hprod : 0 < reserve_in * reserve_out) by nia.
  split; [split|].
  - apply Z.div_pos; nia.
  - apply Z.div_lt_upper_bound; nia.
  - intros Hle. specialize (Hafter Hle).
    apply MoveMathFacts.div_le_cross; nia.
Qed.

Lemma move_get_amount_out_bounded_monotone_witness :
  MoveMath.get_amount_out 100 1000 2000 30 = MoveMath.Return 181
  /\ MoveMath.get_amount_out 200 1000 2000 30 = MoveMath.Return 333
  /\ 0 <= 181 < 2000 /\ (100 <= 200 -> 181 <= 333).
Proof.
  split; [reflexivity|]. split; [reflexivity|].
  apply (move_get_amount_out_bounded_monotone 100 200 1000 2000 30 181 333);
    try (unfold MoveMath.u64, MoveMath.MAX_U64; lia); reflexivity.
Defined.

(** X27: the input that [get_amount_in] asks for is enough: whenever
    [get_amount_in] returns for a desired output and [get_amount_out]
    returns on that input, with the same reserves and fee rate, the output
    obtained is at least the desired one. *)
Theorem move_get_amount_in_suffices
  (amount_out reserve_in reserve_out fee_rate_bp amount_in obtained : Z) :
  MoveMath.u64 amount_out -> MoveMath.u64 reserve_in -> MoveMath.u64 reserve_out ->
  MoveMath.u64 fee_rate_bp ->
  MoveMath.get_amount_in amount_out reserve_in reserve_out fee_rate_bp
  = MoveMath.Return amount_in ->
  MoveMath.get_amount_out amount_in reserve_in reserve_out fee_rate_bp
  = MoveMath.Return obtained ->
  amount_out <= obtained.
Proof.
  intros Hy Hin Hout Hf Hcall1 Hcall2.
  apply (MoveMathFacts.get_amount_in_Return _ _ _ _ _ Hy Hin Hout Hf) in Hcall1.
  destruct Hcall1 as (Hrange & Hrin & Hfee & Hvalue).
  assert (Hx : MoveMath.u64 amount_in).
  { unfold MoveMath.get_amount_out, MoveMath.assert in Hcall2.
    unfold MoveMath.u64 in *. split.
    - subst amount_in. apply Z.div_pos; [|lia].
      assert (0 <= reserve_in * amount_out / (reserve_out - amount_out))
        by (apply Z.div_pos; nia).
      lia.
    - destruct (Z.ltb_spec 0 amount_in); [|discriminate]. cbn [MoveMath.andThen] in Hcall2.
      destruct (Z.ltb_spec 0 reserve_in); [|discriminate].
      destruct (Z.ltb_spec 0 reserve_out); [|discriminate].
      cbn [andb MoveMath.andThen] in Hcall2.
      unfold MoveMath.amount_after_fee in Hcall2.
      rewrite MoveMathFacts.calculate_fee_spec in Hcall2.
      destruct (Z.ltb_spec 10000 fee_rate_bp); [discriminate|].
      destruct (Z.ltb_spec MoveMath.MAX_U64 (amount_in * fee_rate_bp)); [discriminate|].
      destruct (Z.eq_dec fee_rate_bp 0) as [->|Hnonzero]; [|nia].
      rewrite Z.sub_0_r in Hvalue. rewrite Z.div_mul in Hvalue by lia.
      subst amount_in.
      assert (reserve_in * amount_out / (reserve_out - amount_out)
              <= reserve_in * amount_out)
        by (apply Z.div_le_upper_bound; nia).
      cbn [MoveMath.andThen] in Hcall2.
      unfold MoveMath.u64_sub in Hcall2. rewrite Z.mul_0_r in Hcall2.
      change (0 / 10000) with 0 in Hcall2.
      destruct (Z.leb_spec 0 (reserve_in * amount_out / (reserve_out - amount_out) + 1));
        [|discriminate].
      cbn [MoveMath.andThen] in Hcall2. rewrite Z.sub_0_r in Hcall2.
      set (x := reserve_in * amount_out / (reserve_out - amount_out) + 1) in *.
      destruct (MoveMath.safe_mul x reserve_out) as [numerator| |]; try discriminate.
      cbn [MoveMath.andThen] in Hcall2. unfold MoveMath.u64_add in Hcall2.
      destruct (Z.leb_spec (reserve_in + x) MoveMath.MAX_U64); [lia | discriminate]. }
  apply (MoveMathFacts.get_amount_out_Return _ _ _ _ _ Hx Hin Hout Hf) in Hcall2.
  destruct Hcall2 as (Hpos & _ & _ & _ & ->).
  unfold MoveMath.u64 in *.
  set (quotient := reserve_in * amount_out / (reserve_out - amount_out)) in *.
  set (after := amount_in - amount_in * fee_rate_bp / 10000).
  assert (Hquotient : reserve_in * amount_out < (quotient + 1) * (reserve_out - amount_out)).
  { subst quotient.
    pose proof (Z.mul_succ_div_gt (reserve_in * amount_out) (reserve_out - amount_out)
                  ltac:(lia)). lia. }
  assert (Hgross : (quotient + 1) * 10000 - (10000 - fee_rate_bp)
                   < amount_in * (10000 - fee_rate_bp)).
  { subst amount_in.
    pose proof (Z.mul_succ_div_gt ((quotient + 1) * 10000) (10000 - fee_rate_bp)
                  ltac:(lia)). lia. }
  assert (Hafter : quotient + 1 <= after).
  { pose proof (MoveMathFacts.after_fee_lower amount_in fee_rate_bp ltac:(lia) ltac:(lia)).
    fold after in H. nia. }
  apply Z.div_le_lower_bound; nia.
Qed.

Lemma move_get_amount_in_suffices_witness :
  MoveMath.get_amount_in 181 1000 2000 30 = MoveMath.Return 100
  /\ MoveMath.get_amount_out 100 1000 2000 30 = MoveMath.Return 181
  /\ 181 <= 181.
Proof.
  split; [reflexivity|]. split; [reflexivity|].
  apply (move_get_amount_in_suffices 181 1000 2000 30 100 181);
    try (unfold MoveMath.u64, MoveMath.MAX_U64; lia); reflexivity.
Defined.

(** X28: whenever [calculate_price_impact] returns, the impact is between 0
    and 10000 basis points; with an empty reserve it is 10000. *)
Theorem move_price_impact_in_range
  (amount_in amount_out reserve_in reserve_out impact : Z) :
  MoveMath.u64 amount_in -> MoveMath.u64 amount_out -> MoveMath.u64 reserve_in ->
  MoveMath.u64 reserve_out ->
  MoveMath.calculate_price_impact amount_in amount_out reserve_in reserve_out
  = MoveMath.Return impact ->
  0 <= impact <= 10000 /\ (reserve_in = 0 \/ reserve_out = 0 -> impact = 10000).
Proof.
  intros Hx Hy Hin Hout. unfold MoveMath.calculate_price_impact, MoveMath.BASIS_POINTS.
  destruct (Z.eqb_spec reserve_in 0) as [->|Hrin]; cbn [orb].
  { intros [= <-]. lia. }
  destruct (Z.eqb_spec reserve_out 0) as [->|Hrout].
  { intros [= <-]. lia. }
  destruct (MoveMath.safe_mul reserve_out 10000) as [scaled_reserve| |] eqn:Hscaled;
    try discriminate.
  apply MoveMathFacts.safe_mul_Return in Hscaled;
    [|exact Hout|unfold MoveMath.u64, MoveMath.MAX_U64; lia].
  destruct Hscaled as [-> Hfits]. cbn [MoveMath.andThen].
  destruct (MoveMath.safe_div (reserve_out * 10000) reserve_in) as [spot_price| |] eqn:Hspot;
    try discriminate.
  apply MoveMathFacts.safe_div_Return in Hspot. destruct Hspot as [_ ->].
  cbn [MoveMath.andThen].
  destruct (MoveMath.safe_mul amount_out 10000) as [scaled_out| |] eqn:Hscaledout;
    try discriminate.
  apply MoveMathFacts.safe_mul_Return in Hscaledout;
    [|exact Hy|unfold MoveMath.u64, MoveMath.MAX_U64; lia].
  destruct Hscaledout as [-> Hfits']. cbn [MoveMath.andThen].
  destruct (MoveMath.safe_div (amount_out * 10000) amount_in) as [execution_price| |]
    eqn:Hexec; try discriminate.
  apply MoveMathFacts.safe_div_Return in Hexec. destruct Hexec as [Hxnz ->].
  cbn [MoveMath.andThen].
  unfold MoveMath.u64 in *.
  set (spot := reserve_out * 10000 / reserve_in).
  set (execution := amount_out * 10000 / amount_in).
  assert (Hspot0 : 0 <= spot) by (apply Z.div_pos; lia).
  assert (Hexec0 : 0 <= execution) by (apply Z.div_pos; lia).
  assert (Hspotmax : spot <= MoveMath.MAX_U64)
    by (apply Z.div_le_upper_bound; nia).
  destruct (Z.geb_spec execution spot) as [Hge|Hlt].
  { intros [= <-]. split; [lia | intros [?|?]; contradiction]. }
  unfold MoveMath.u64_sub.
  destruct (Z.leb_spec execution spot); [|lia]. cbn [MoveMath.andThen].
  destruct (MoveMath.safe_mul (spot - execution) 10000) as [scaled_diff| |] eqn:Hdiff;
    try discriminate.
  apply MoveMathFacts.safe_mul_Return in Hdiff;
    [|unfold MoveMath.u64; lia|unfold MoveMath.u64, MoveMath.MAX_U64; lia].
  destruct Hdiff as [-> _]. cbn [MoveMath.andThen].
  intros Hdiv. apply MoveMathFacts.safe_div_Return in Hdiv. destruct Hdiv as [_ ->].
  split; [split|intros [?|?]; contradiction].
  - apply Z.div_pos; lia.
  - apply Z.div_le_upper_bound; nia.
Qed.

Lemma move_price_impact_in_range_witness :
  MoveMath.calculate_price_impact 100 180 1000 2000 = MoveMath.Return 1000
  /\ 0 <= 1000 <= 10000 /\ (1000 = 0 \/ 2000 = 0 -> 1000 = 10000).
Proof.
  split; [reflexivity|].
  apply (move_price_impact_in_range 100 180 1000 2000 1000);
    try (unfold MoveMath.u64, MoveMath.MAX_U64; lia); reflexivity.
Defined.

(** ** Move utilities: the ordering of coin names *)

Module MoveUtilsFacts.
Import MoveUtils.








End MoveUtilsFacts.


(** ** Pool Cache: a refresh among the readers of the cache *)

Module SnapshotFacts.







End SnapshotFacts.

Module RefreshTaskFacts.

Import RefreshTask.

(** The loop of [refreshAllPools] and the statement after it, run without
    suspension, index the pools that are left and stamp the time. *)
Lemma run_loop (env : Providers) (now : Z) (rest : list Pool) :
  forall (s : PoolService) (spare : nat),
    run (4 * List.length rest + 3 + spare) env now (NextPool rest, s)
    = (Returned,
       {| pools := fst (fold_left indexPool rest (pools s, poolsByPair s));
          poolsByPair := snd (fold_left indexPool rest (pools s, poolsByPair s));
          lastUpdateTime := now |}).
Proof.
  induction rest as [|pool rest IH]; intros s spare.
  - reflexivity.
  - replace (4 * List.length (pool :: rest) + 3 + spare)%nat
      with (S (S (S (S (4 * List.length rest + 3 + spare))))) by (simpl; lia).
    cbn [run step]. rewrite IH. reflexivity.
Qed.

(** Resumed after its last [await], the function runs to its return and
    leaves the cache as [publish] describes it. *)
Lemma resume_rebuilds (env : Providers) (now : Z) (s : PoolService)
  (cetusPools pancakePools liquidSwapPools : list Pool) :
  resume env now (Combine cetusPools pancakePools liquidSwapPools, s)
  = (Returned, publish (cetusPools ++ pancakePools ++ liquidSwapPools) now s).
Proof.
  unfold resume. cbn [fst statementsAhead].
  set (allPools := cetusPools ++ pancakePools ++ liquidSwapPools).
  replace (S (4 * List.length allPools + 5))
    with (S (S (S (4 * List.length allPools + 3 + 0)))) by lia.
  cbn [run step]. fold allPools. rewrite run_loop. cbn [pools poolsByPair].
  unfold publish.
  destruct (fold_left indexPool allPools (JsMap.empty, JsMap.empty)); reflexivity.
Qed.

(** A job always ends: from every statement the function reaches its next
    [await] or its return. *)
Definition parked (point : Point) : bool :=
  match point with
  | FetchPancake _ | FetchLiquidSwap _ _ | Combine _ _ _ | Returned => true
  | _ => false
  end.

Lemma resume_ends_the_job (env : Providers) (now : Z) (c : Point * PoolService) :
  parked (fst (resume env now c)) = true.
Proof.
  destruct c as [point s]. unfold resume. cbn [fst].
  destruct point as [ | | | cetusPools pancakePools liquidSwapPools | allPools | allPools
                      | rest | pool rest | pool rest | pool rest | | ];
    cbn [statementsAhead]; try reflexivity.
  - pose proof (resume_rebuilds env now s cetusPools pancakePools liquidSwapPools) as Hrun.
    unfold resume in Hrun. cbn [fst statementsAhead] in Hrun. now rewrite Hrun.
  - replace (S (4 * List.length allPools + 4))
      with (S (S (4 * List.length allPools + 3 + 0))) by lia.
    cbn [run step]. now rewrite run_loop.
  - replace (S (4 * List.length allPools + 3))
      with (S (4 * List.length allPools + 3 + 0)) by lia.
    cbn [run step]. now rewrite run_loop.
  - replace (S (4 * List.length rest + 2)) with (4 * List.length rest + 3 + 0)%nat by lia.
    now rewrite run_loop.
  - replace (S (4 * List.length rest + 5))
      with (S (S (S (4 * List.length rest + 3 + 0)))) by lia.
    cbn [run step]. now rewrite run_loop.
  - replace (S (4 * List.length rest + 4))
      with (S (S (4 * List.length rest + 3 + 0))) by lia.
    cbn [run step]. now rewrite run_loop.
  - replace (S (4 * List.length rest + 3))
      with (S (4 * List.length rest + 3 + 0)) by lia.
    cbn [run step]. now rewrite run_loop.
Qed.

(** The whole function, job by job, is [refreshAllPools]. *)
Lemma resume_four_times (env : Providers) (now : Z) (s : PoolService) :
  resume env now (resume env now (resume env now (resume env now (FetchCetus, s))))
  = (Returned, refreshAllPools env now s).
Proof.
  change (resume env now (FetchCetus, s)) with (FetchPancake (fetchCetusPools env), s).
  change (resume env now (FetchPancake (fetchCetusPools env), s))
    with (FetchLiquidSwap (fetchCetusPools env) (fetchPancakePools env), s).
  change (resume env now
            (FetchLiquidSwap (fetchCetusPools env) (fetchPancakePools env), s))
    with (Combine (fetchCetusPools env) (fetchPancakePools env)
            (fetchLiquidSwapPools env), s).
  rewrite resume_rebuilds. now rewrite refreshAllPools_publish.
Qed.

(** Statement by statement the rebuild is not atomic: two statements after
    the pools are combined the address index is empty, one statement later
    the pair index is empty too, whatever the cache held and whatever was
    fetched.  No [await] stands between these statements and the return. *)
Lemma rebuild_passes_through_an_empty_index (env : Providers) (now : Z) (s : PoolService)
  (cetusPools pancakePools liquidSwapPools : list Pool) :
  let start := (Combine cetusPools pancakePools liquidSwapPools, s) in
  getAllPools (snd (advance 2 env now start)) = []
  /\ (forall first second, getPoolsForPair (snd (advance 2 env now start)) first second
                           = getPoolsForPair s first second)
  /\ getAllPools (snd (advance 3 env now start)) = []
  /\ (forall first second, getPoolsForPair (snd (advance 3 env now start)) first second = []).
Proof. repeat split. Qed.





End RefreshTaskFacts.

